(** * Chunked encode/decode of the audio autoencoder

    A shallow embedding of [stable_audio_tools/models/autoencoders.py]:
    [AudioAutoencoder.encode], [decode], [encode_audio], [decode_audio],
    [DiffusionAutoencoder.decode] and the autoencoder factories, with the
    properties of the chunked streaming procedure proved over it.

    Tensors keep two of their three axes: the batch axis and the time axis.
    A cell of a tensor is a _frame_, the column of all channel values at one
    time step of one batch item; the number of channels is carried by the
    frame.  Python exceptions are values of [exn]; every function that can
    raise lives in the monad [M], which also records a trace of the
    effects the properties talk about (windows cut from the input, module
    forward calls, slices pasted into the output buffer, module
    constructions).  The sub-modules (encoder, decoder, bottleneck,
    pretransform) are pure functions on tensors, as the codec interface
    has them.

    The file has three parts: the embedding of the program, the
    vocabulary the statements are written with, and the properties. *)

From stdpp Require Import base option list list_numbers gmap strings pretty.
From Stdlib Require Import ZArith Lia.

Local Open Scope string_scope.
Local Open Scope list_scope.
Local Open Scope Z_scope.

Local Set Warnings "-register-all".

(** ** Exceptions and the effect trace *)

Inductive exn : Type :=
  | AssertionError (msg : string)
  | KeyError (key : string)
  | ValueError (msg : string)
  | TypeError (msg : string)
  | AttributeError (msg : string)
  | RuntimeError (msg : string)
  | UnboundLocalError (var : string)
  | IndexError
  | ZeroDivisionError
  | RecursionError
  (** what [torch.cat] raises for an empty list of tensors: a
      [ValueError] or a [RuntimeError], depending on the version of
      torch, which the repository does not pin *)
  | EmptyTensorList.

Inductive event : Type :=
  (** [audio[:, :, lo:hi]] was cut from the input (bounds normalised) *)
  | Window (lo hi : Z)
  (** forward call of a sub-module on a tensor of shape (batch, _, len) *)
  | Forward (module : string) (batch len : nat)
  (** [y_final[:, :, t_lo:t_hi] = y_chunk[:, :, c_lo:c_hi]] (bounds normalised) *)
  | Paste (t_lo t_hi c_lo c_hi : Z)
  (** a module constructor ran: its weights are allocated *)
  | Construct (cls : string).

Global Instance exn_eq_dec : EqDecision exn.
Proof. solve_decision. Defined.
Global Instance event_eq_dec : EqDecision event.
Proof. solve_decision. Defined.

(** A computation returns a value or raises, and leaves a trace. *)
Definition M (A : Type) : Type := (exn + A) * list event.

Definition ret {A} (a : A) : M A := (inr a, []).
Definition raise {A} (e : exn) : M A := (inl e, []).
Definition tell (ev : event) : M unit := (inr tt, [ev]).
Definition bind {A B} (m : M A) (f : A → M B) : M B :=
  match m with
  | (inl e, l) => (inl e, l)
  | (inr a, l) => let '(r, l') := f a in (r, l ++ l')
  end.

Global Instance M_ret : MRet M := @ret.
Global Instance M_bind : MBind M := λ A B f m, bind m f.

Definition result {A} (m : M A) : exn + A := m.1.
Definition trace {A} (m : M A) : list event := m.2.

(** [for x in xs: out.append(f(x))] *)
Fixpoint mapM {A B} (f : A → M B) (xs : list A) : M (list B) :=
  match xs with
  | [] => mret []
  | x :: xs => y ← f x; ys ← mapM f xs; mret (y :: ys)
  end.

(** [for x in xs: s = body(x, s)] *)
Fixpoint foldM {A S} (body : A → S → M S) (xs : list A) (s : S) : M S :=
  match xs with
  | [] => mret s
  | x :: xs => s' ← body x s; foldM body xs s'
  end.

(** ** Python integers, ranges and slices *)

(** [len(range(start, stop, step))] for a non-zero step *)
Definition range_len (start stop step : Z) : Z :=
  if 0 <? step then Z.max 0 ((stop - start + step - 1) / step)
  else Z.max 0 ((start - stop - step - 1) / (- step)).

(** [range(start, stop, step)]; a zero step raises [ValueError] *)
Definition py_range (start stop step : Z) : M (list Z) :=
  if step =? 0 then raise (ValueError "range() arg 3 must not be zero")
  else mret ((λ k, start + k * step) <$> seqZ 0 (range_len start stop step)).

(** One bound of a slice [a:b] over an axis of length [len]: an omitted
    bound takes its default, a negative one counts from the end, and the
    result is clamped to [0, len]. *)
Definition slice_index (len : Z) (i : option Z) (default : Z) : Z :=
  match i with
  | None => default
  | Some i => let i := if i <? 0 then i + len else i in Z.max 0 (Z.min len i)
  end.

(** The indices [lo, hi) selected by [start:stop] on an axis of length [len] *)
Definition slice_bounds (len : nat) (start stop : option Z) : nat * nat :=
  let lo := slice_index (Z.of_nat len) start 0 in
  let hi := slice_index (Z.of_nat len) stop (Z.of_nat len) in
  (Z.to_nat lo, Z.to_nat (Z.max lo hi)).

(** ** Python values, for configuration dictionaries and keyword arguments *)

Inductive pyval : Type :=
  | PNone
  | PBool (b : bool)
  | PInt (z : Z)
  | PStr (s : string)
  | PList (l : list pyval)
  | PDict (d : gmap string pyval).

Abbreviation kwargs := (gmap string pyval).

(** [d.get(key, default)] *)
Definition dict_get (d : gmap string pyval) (key : string) (default : pyval) : pyval :=
  match d !! key with Some v => v | None => default end.

(** [d[key]] *)
Definition dict_item (d : gmap string pyval) (key : string) : M pyval :=
  match d !! key with Some v => mret v | None => raise (KeyError key) end.

(** Using a value as a dictionary.  Anything else takes no string
    subscript and is no mapping for [**] ([TypeError]), and has no [get]
    ([AttributeError]). *)
Definition as_dict (v : pyval) : M (gmap string pyval) :=
  match v with
  | PDict d => mret d
  | _ => raise (TypeError "not a dictionary")
  end.

Definition dict_of_get (v : pyval) : M (gmap string pyval) :=
  match v with
  | PDict d => mret d
  | _ => raise (AttributeError "object has no attribute 'get'")
  end.

(** Truth value of a Python object, as [not x] tests it *)
Definition truthy (v : pyval) : bool :=
  match v with
  | PNone => false
  | PBool b => b
  | PInt z => negb (z =? 0)
  | PStr s => negb (String.eqb s "")
  | PList l => match l with [] => false | _ => true end
  | PDict d => negb (bool_decide (size d = 0%nat))
  end.

Definition is_none (v : pyval) : bool :=
  match v with PNone => true | _ => false end.

(** ** Tensors *)

(** A tensor of shape [(shape0, _, shape2)]: [data] has one row per batch
    item, and a row has one frame per time step.  The shape is kept
    beside the data, as torch does, so that it is defined for empty
    tensors too. *)
Record tensor (A : Type) : Type := Tensor {
  shape0 : nat;
  shape2 : nat;
  data : list (list A)
}.
Global Arguments Tensor {A} _ _ _.
Global Arguments shape0 {A} _.
Global Arguments shape2 {A} _.
Global Arguments data {A} _.

(** What torch needs of a frame: the all-zero frame of [c] channels, and
    the element-wise hyperbolic tangent. *)
Class Frame (A : Type) : Type := {
  zeros : nat → A;
  tanh : A → A
}.

Section tensors.
Context {A : Type} `{!Frame A}.

(** The data agree with the declared shape. *)
Definition wf (t : tensor A) : Prop :=
  length (data t) = shape0 t ∧ Forall (λ row, length row = shape2 t) (data t).

(** [t[:, :, start:stop]] *)
Definition slice2 (t : tensor A) (start stop : option Z) : tensor A :=
  let '(lo, hi) := slice_bounds (shape2 t) start stop in
  Tensor (shape0 t) (hi - lo) ((λ row, take (hi - lo) (drop lo row)) <$> data t).

(** [t[start:stop]] *)
Definition slice0 (t : tensor A) (start stop : option Z) : tensor A :=
  let '(lo, hi) := slice_bounds (shape0 t) start stop in
  Tensor (hi - lo) (shape2 t) (take (hi - lo) (drop lo (data t))).

(** [torch.cat(ts, dim=0)]: the list must not be empty and the tensors
    must agree on the other axes. *)
Definition torch_cat (ts : list (tensor A)) : M (tensor A) :=
  match ts with
  | [] => raise EmptyTensorList
  | t :: rest =>
      if forallb (λ u, Nat.eqb (shape2 u) (shape2 t)) rest
      then mret (Tensor (sum_list (shape0 <$> ts)) (shape2 t) (concat (data <$> ts)))
      else raise (RuntimeError "Sizes of tensors must match except in dimension 0")
  end.

(** [torch.stack(ts)]: a new leading axis indexing the tensors of [ts],
    which must not be empty and must all have the same shape. *)
Definition torch_stack (ts : list (tensor A)) : M (list (tensor A)) :=
  match ts with
  | [] => raise (RuntimeError "stack expects a non-empty TensorList")
  | t :: rest =>
      if forallb (λ u, Nat.eqb (shape0 u) (shape0 t) && Nat.eqb (shape2 u) (shape2 t)) rest
      then mret ts
      else raise (RuntimeError "stack expects each tensor to be equal size")
  end.

(** [torch.zeros((b, c, n))] *)
Definition torch_zeros (b c n : nat) : tensor A :=
  Tensor b n (replicate b (replicate n (zeros c))).

(** [torch.tanh(t)] *)
Definition torch_tanh (t : tensor A) : tensor A :=
  Tensor (shape0 t) (shape2 t) ((λ row : list A, tanh <$> row) <$> data t).

(** The rows of [src] broadcast to shape [(b, _, n)]: an axis of size 1
    is repeated. *)
Definition expand_rows (b n : nat) (src : tensor A) : list (list A) :=
  let rows :=
    if Nat.eqb (shape0 src) b then data src
    else match data src with [row] => replicate b row | rows => rows end in
  (λ row, if Nat.eqb (shape2 src) n then row
          else match row with [x] => replicate n x | _ => row end) <$> rows.

(** [dst[:, :, start:stop] = src]: [src] must have the shape of the
    selected view or broadcast to it. *)
Definition setitem2 (dst : tensor A) (start stop : option Z) (src : tensor A)
    : M (tensor A) :=
  let '(lo, hi) := slice_bounds (shape2 dst) start stop in
  if (Nat.eqb (shape0 src) (shape0 dst) || Nat.eqb (shape0 src) 1)
     && (Nat.eqb (shape2 src) (hi - lo) || Nat.eqb (shape2 src) 1)
  then mret (Tensor (shape0 dst) (shape2 dst)
               (zip_with (λ d s, take lo d ++ s ++ drop hi d)
                  (data dst) (expand_rows (shape0 dst) (hi - lo) src)))
  else raise (RuntimeError "The expanded size of the tensor must match the existing size").
End tensors.

(** ** The autoencoder and its collaborators *)

Section autoencoder.
Context {A : Type} `{!Frame A}.

(** The [info] dictionary: its values are opaque to this code. *)
Definition info : Type := gmap string pyval.

(** [Pretransform]: a reversible transform around the codec *)
Record Pretransform : Type := {
  enable_grad : bool;
  pt_encode : tensor A → tensor A;
  pt_decode : tensor A → tensor A
}.

(** [Bottleneck]: [encode(latents, return_info=True, **kwargs)] and
    [decode(latents)] *)
Record Bottleneck : Type := {
  is_discrete : bool;
  bn_encode : kwargs → tensor A → tensor A * info;
  bn_decode : tensor A → tensor A
}.

(** The attributes [AudioAutoencoder.__init__] stores.  [encoder] and
    [decoder] may be [None]; a decoder is called with the keyword
    arguments forwarded to it. *)
Record AudioAutoencoder : Type := {
  encoder : option (tensor A → tensor A);
  decoder : option (kwargs → tensor A → tensor A);
  latent_dim : nat;
  downsampling_ratio : Z;
  io_channels : nat;
  out_channels : nat;
  bottleneck : option Bottleneck;
  pretransform : option Pretransform;
  soft_clip : bool
}.

(** What [encode] returns: [latents], or [(latents, info)] *)
Inductive encoded : Type :=
  | Latents (latents : tensor A)
  | LatentsInfo (latents : tensor A) (i : info).

(** One forward call of a sub-module *)
Definition forward (name : string) (f : tensor A → tensor A) (x : tensor A)
    : M (tensor A) :=
  _ ← tell (Forward name (shape0 x) (shape2 x)); mret (f x).

(** [[f(x[i : i + 1]) for i in range(n)]] joined by [torch.cat(_, dim=0)] *)
Definition iterate (name : string) (f : tensor A → tensor A) (n : nat) (x : tensor A)
    : M (tensor A) :=
  outs ← mapM (λ i, forward name f (slice0 x (Some i) (Some (i + 1))))
              (seqZ 0 (Z.of_nat n));
  torch_cat outs.

(** [AudioAutoencoder.encode] *)
Definition encode (self : AudioAutoencoder) (audio : tensor A)
    (return_info skip_pretransform iterate_batch : bool) (kw : kwargs) : M encoded :=
  let info0 : info := ∅ in
  audio ← match pretransform self with
          | Some pt =>
              if negb skip_pretransform then
                if enable_grad pt then
                  if iterate_batch
                  then iterate "pretransform.encode" (pt_encode pt) (shape0 audio) audio
                  else forward "pretransform.encode" (pt_encode pt) audio
                else (* with torch.no_grad() *)
                  if iterate_batch
                  then iterate "pretransform.encode" (pt_encode pt) (shape0 audio) audio
                  else forward "pretransform.encode" (pt_encode pt) audio
              else mret audio
          | None => mret audio
          end;
  latents ← match encoder self with
            | Some enc =>
                if iterate_batch
                then iterate "encoder" enc (shape0 audio) audio
                else forward "encoder" enc audio
            | None => mret audio
            end;
  '(latents, info1) ←
      match bottleneck self with
      | Some bn =>
          _ ← tell (Forward "bottleneck.encode" (shape0 latents) (shape2 latents));
          let '(latents, bottleneck_info) := bn_encode bn kw latents in
          mret (latents, bottleneck_info ∪ info0)
      | None => mret (latents, info0)
      end;
  if return_info then mret (LatentsInfo latents info1) else mret (Latents latents).

(** [AudioAutoencoder.decode].  The sequential path calls the decoder
    without the keyword arguments, and the pretransform loop under
    [no_grad] counts the items of [latents], not of [decoded]. *)
Definition decode (self : AudioAutoencoder) (latents : tensor A)
    (iterate_batch : bool) (kw : kwargs) : M (tensor A) :=
  latents ← match bottleneck self with
            | Some bn =>
                if iterate_batch
                then iterate "bottleneck.decode" (bn_decode bn) (shape0 latents) latents
                else forward "bottleneck.decode" (bn_decode bn) latents
            | None => mret latents
            end;
  decoded ← match decoder self with
            | Some dec =>
                if iterate_batch
                then iterate "decoder" (dec ∅) (shape0 latents) latents
                else forward "decoder" (dec kw) latents
            | None =>
                (* [self.decoder] is called on the first item of the
                   loop, when there is one *)
                if iterate_batch && Nat.eqb (shape0 latents) 0
                then torch_cat []
                else raise (TypeError "'NoneType' object is not callable")
            end;
  decoded ← match pretransform self with
            | Some pt =>
                if enable_grad pt then
                  if iterate_batch
                  then iterate "pretransform.decode" (pt_decode pt) (shape0 decoded) decoded
                  else forward "pretransform.decode" (pt_decode pt) decoded
                else (* with torch.no_grad() *)
                  if iterate_batch
                  then iterate "pretransform.decode" (pt_decode pt) (shape0 latents) decoded
                  else forward "pretransform.decode" (pt_decode pt) decoded
            | None => mret decoded
            end;
  if soft_clip self then mret (torch_tanh decoded) else mret decoded.

(** Binding [**kwargs] to the parameters of [encode] and of [decode]:
    a keyword naming a parameter sets it, the others stay in [kwargs]. *)
Definition kw_flag (kw : kwargs) (name : string) : bool :=
  match kw !! name with Some v => truthy v | None => false end.

Definition encode_kw (self : AudioAutoencoder) (audio : tensor A) (kw : kwargs)
    : M encoded :=
  if bool_decide (is_Some (kw !! "audio"))
  then raise (TypeError "encode() got multiple values for argument 'audio'")
  else encode self audio (kw_flag kw "return_info") (kw_flag kw "skip_pretransform")
         (kw_flag kw "iterate_batch")
         (delete "return_info" (delete "skip_pretransform" (delete "iterate_batch" kw))).

Definition decode_kw (self : AudioAutoencoder) (latents : tensor A) (kw : kwargs)
    : M (tensor A) :=
  if bool_decide (is_Some (kw !! "latents"))
  then raise (TypeError "decode() got multiple values for argument 'latents'")
  else decode self latents (kw_flag kw "iterate_batch") (delete "iterate_batch" kw).

(** *** Chunking *)

(** [chunk = audio[:, :, start:stop]], recording the window *)
Definition get_window (audio : tensor A) (start stop : option Z) : M (tensor A) :=
  let '(lo, hi) := slice_bounds (shape2 audio) start stop in
  _ ← tell (Window (Z.of_nat lo) (Z.of_nat hi));
  mret (slice2 audio start stop).

(** The window loop, the same text in [encode_audio] and [decode_audio]:
<<
    for i in range(0, total_size - chunk_size + 1, hop_size):
        chunk = audio[:, :, i : i + chunk_size]
        chunks.append(chunk)
    if i + chunk_size != total_size:
        chunk = audio[:, :, -chunk_size:]
        chunks.append(chunk)
>>
    After the loop [i] is the last value the range produced; it is
    unbound when the range was empty. *)
Definition collect_chunks (audio : tensor A) (total_size chunk_size hop_size : Z)
    : M (list (tensor A)) :=
  starts ← py_range 0 (total_size - chunk_size + 1) hop_size;
  chunks ← mapM (λ i, get_window audio (Some i) (Some (i + chunk_size))) starts;
  i ← match last starts with
      | Some i => mret i
      | None => raise (UnboundLocalError "i")
      end;
  if bool_decide (i + chunk_size ≠ total_size) then
    chunk ← get_window audio (Some (- chunk_size)) None;
    mret (chunks ++ [chunk])
  else mret chunks.

(** [chunks[i, :]] *)
Definition chunk_at (chunks : list (tensor A)) (i : Z) : M (tensor A) :=
  match chunks !! Z.to_nat i with
  | Some c => mret c
  | None => raise IndexError
  end.

(** Removing the edges of the overlaps, the same text in both functions:
<<
    if i > 0:
        t_start += ol
        chunk_start += ol
    if i < num_chunks - 1:
        t_end -= ol
        chunk_end -= ol
>> *)
Definition trim_edges (i num_chunks ol : Z) (t_start t_end chunk_start chunk_end : Z)
    : Z * Z * Z * Z :=
  let '(t_start, chunk_start) :=
    if 0 <? i then (t_start + ol, chunk_start + ol) else (t_start, chunk_start) in
  let '(t_end, chunk_end) :=
    if i <? num_chunks - 1 then (t_end - ol, chunk_end - ol) else (t_end, chunk_end) in
  (t_start, t_end, chunk_start, chunk_end).

(** [y_final[:, :, t_start:t_end] = y_chunk[:, :, chunk_start:chunk_end]] *)
Definition paste (y_final : tensor A) (t_start t_end : Z)
    (y_chunk : tensor A) (chunk_start chunk_end : Z) : M (tensor A) :=
  y ← setitem2 y_final (Some t_start) (Some t_end)
        (slice2 y_chunk (Some chunk_start) (Some chunk_end));
  let '(t_lo, t_hi) := slice_bounds (shape2 y_final) (Some t_start) (Some t_end) in
  let '(c_lo, c_hi) := slice_bounds (shape2 y_chunk) (Some chunk_start) (Some chunk_end) in
  _ ← tell (Paste (Z.of_nat t_lo) (Z.of_nat t_hi) (Z.of_nat c_lo) (Z.of_nat c_hi));
  mret y.

(** [a // b] *)
Definition floordiv (a b : Z) : M Z :=
  if b =? 0 then raise ZeroDivisionError else mret (a / b).

(** [torch.zeros((b, c, n))] with a size computed at run time *)
Definition zeros_buffer (b c : nat) (n : Z) : M (tensor A) :=
  if n <? 0 then raise (RuntimeError "Trying to create tensor with negative dimension")
  else mret (torch_zeros b c (Z.to_nat n)).

(** The tensor [self.encode(x)] returns when [return_info] is off *)
Definition as_latents (e : encoded) : M (tensor A) :=
  match e with
  | Latents t => mret t
  | LatentsInfo _ _ => raise (AttributeError "'tuple' object has no attribute 'shape'")
  end.

(** The body of the second loop of [encode_audio].  All arguments but
    [i] and [y_final] are the local variables of the function;
    [samples_per_latent] is known to be non-zero here, [y_size] having
    been computed before the loop. *)
Definition encode_audio_step (self : AudioAutoencoder) (chunks : list (tensor A))
    (num_chunks y_size hop_size chunk_size overlap samples_per_latent : Z)
    (i : Z) (y_final : tensor A) : M (tensor A) :=
  x_chunk ← chunk_at chunks i;
  (* encode the chunk *)
  e ← encode self x_chunk false false false ∅;
  y_chunk ← as_latents e;
  let y_len := Z.of_nat (shape2 y_chunk) in
  (* figure out where to put the audio along the time domain *)
  let '(t_start, t_end) :=
    if bool_decide (i = num_chunks - 1)
    then (* final chunk always goes at the end *)
      (y_size - y_len, y_size)
    else
      let t_start := i * hop_size / samples_per_latent in
      (t_start, t_start + chunk_size / samples_per_latent) in
  (* remove the edges of the overlaps *)
  let ol := overlap / samples_per_latent / 2 in
  let '(t_start, t_end, chunk_start, chunk_end) :=
    trim_edges i num_chunks ol t_start t_end 0 y_len in
  (* paste the chunked audio into our y_final output audio *)
  paste y_final t_start t_end y_chunk chunk_start chunk_end.

(** [AudioAutoencoder.encode_audio] *)
Definition encode_audio (self : AudioAutoencoder) (audio : tensor A)
    (chunked : bool) (overlap chunk_size : Z) (kw : kwargs) : M encoded :=
  if negb chunked then
    (* default behavior. Encode the entire audio in parallel *)
    encode_kw self audio kw
  else
    let samples_per_latent := downsampling_ratio self in
    let total_size := Z.of_nat (shape2 audio) in
    let batch_size := shape0 audio in
    let chunk_size := chunk_size * samples_per_latent in
    let overlap := overlap * samples_per_latent in
    let hop_size := chunk_size - overlap in
    chunks ← collect_chunks audio total_size chunk_size hop_size;
    chunks ← torch_stack chunks;
    let num_chunks := Z.of_nat (length chunks) in
    y_size ← floordiv total_size samples_per_latent;
    y_final ← zeros_buffer batch_size (latent_dim self) y_size;
    y_final ← foldM (encode_audio_step self chunks num_chunks y_size hop_size
                       chunk_size overlap samples_per_latent)
                    (seqZ 0 num_chunks) y_final;
    mret (Latents y_final).

(** The body of the second loop of [decode_audio] *)
Definition decode_audio_step (self : AudioAutoencoder) (chunks : list (tensor A))
    (num_chunks y_size hop_size chunk_size overlap samples_per_latent : Z)
    (i : Z) (y_final : tensor A) : M (tensor A) :=
  x_chunk ← chunk_at chunks i;
  (* decode the chunk *)
  y_chunk ← decode self x_chunk false ∅;
  let y_len := Z.of_nat (shape2 y_chunk) in
  (* figure out where to put the audio along the time domain *)
  let '(t_start, t_end) :=
    if bool_decide (i = num_chunks - 1)
    then (* final chunk always goes at the end *)
      (y_size - y_len, y_size)
    else
      let t_start := i * hop_size * samples_per_latent in
      (t_start, t_start + chunk_size * samples_per_latent) in
  (* remove the edges of the overlaps *)
  let ol := (overlap / 2) * samples_per_latent in
  let '(t_start, t_end, chunk_start, chunk_end) :=
    trim_edges i num_chunks ol t_start t_end 0 y_len in
  (* paste the chunked audio into our y_final output audio *)
  paste y_final t_start t_end y_chunk chunk_start chunk_end.

(** [AudioAutoencoder.decode_audio] *)
Definition decode_audio (self : AudioAutoencoder) (latents : tensor A)
    (chunked : bool) (overlap chunk_size : Z) (kw : kwargs) : M (tensor A) :=
  if negb chunked then
    (* default behavior. Decode the entire latent in parallel *)
    decode_kw self latents kw
  else
    (* chunked decoding *)
    let hop_size := chunk_size - overlap in
    let total_size := Z.of_nat (shape2 latents) in
    let batch_size := shape0 latents in
    chunks ← collect_chunks latents total_size chunk_size hop_size;
    chunks ← torch_stack chunks;
    let num_chunks := Z.of_nat (length chunks) in
    (* samples_per_latent is just the downsampling ratio *)
    let samples_per_latent := downsampling_ratio self in
    let y_size := total_size * samples_per_latent in
    y_final ← zeros_buffer batch_size (out_channels self) y_size;
    foldM (decode_audio_step self chunks num_chunks y_size hop_size
             chunk_size overlap samples_per_latent)
          (seqZ 0 num_chunks) y_final.
End autoencoder.

Global Arguments Pretransform : clear implicits.
Global Arguments Bottleneck : clear implicits.
Global Arguments AudioAutoencoder : clear implicits.
Global Arguments encoded : clear implicits.

(** ** The diffusion autoencoder *)

Module DiffusionAutoencoder.
Section diffusion.
Context {A : Type} `{!Frame A}.

(** A [DiffusionAutoencoder] is an [AudioAutoencoder] with a diffusion
    model.  The sampler, the noise source and the interpolation are
    torch and sampling-library functions. *)
Record t : Type := {
  base : AudioAutoencoder A;
  (** [sample(self.diffusion, noise, steps, 0, input_concat_cond=latents)] *)
  sample : tensor A → Z → tensor A → tensor A;
  (** [torch.randn(b, c, n)] *)
  randn : nat → nat → Z → tensor A;
  (** [F.interpolate(latents, size=n, mode="nearest")] *)
  interpolate : tensor A → Z → tensor A
}.

(** [DiffusionAutoencoder.decode].  A method call [self.decode(latents)]
    takes a new frame of the interpreter's stack; [depth] is the
    number of frames still available, and the call raises
    [RecursionError] when none is left. *)
Fixpoint decode (depth : nat) (self : t) (latents : tensor A) (steps : Z)
    : M (tensor A) :=
  match depth with
  | O => raise RecursionError
  | S depth =>
      let upsampled_length :=
        Z.of_nat (shape2 latents) * downsampling_ratio (base self) in
      latents ← match bottleneck (base self) with
                | Some bn => forward "bottleneck.decode" (bn_decode bn) latents
                | None => mret latents
                end;
      latents ← match decoder (base self) with
                | Some _ => decode depth self latents 100
                | None => mret latents
                end;
      (* Upsample latents to match diffusion length *)
      let latents :=
        if bool_decide (Z.of_nat (shape2 latents) ≠ upsampled_length)
        then interpolate self latents upsampled_length
        else latents in
      let noise := randn self (shape0 latents) (io_channels (base self)) upsampled_length in
      _ ← tell (Forward "diffusion" (shape0 noise) (shape2 noise));
      let decoded := sample self noise steps latents in
      match pretransform (base self) with
      | Some pt =>
          if enable_grad pt
          then forward "pretransform.decode" (pt_decode pt) decoded
          else (* with torch.no_grad() *)
            forward "pretransform.decode" (pt_decode pt) decoded
      | None => mret decoded
      end
  end.
End diffusion.
Global Arguments t : clear implicits.
End DiffusionAutoencoder.

(** ** The factories *)

Section factories.
(** The module objects are opaque here: an encoder, a decoder, a
    bottleneck, a pretransform. *)
Context {Enc Dec Bn Pt : Type}.

(** The constructor of the class of that name, called with the
    configuration as keyword arguments; it may raise. *)
Variable new_encoder : string → kwargs → exn + Enc.
Variable new_decoder : string → kwargs → exn + Dec.
(** [create_pretransform_from_config] and [create_bottleneck_from_config]
    of the [factory] module *)
Variable create_pretransform_from_config : pyval → pyval → M Pt.
Variable create_bottleneck_from_config : pyval → M Bn.

(** A constructed module, and whether its parameters were frozen
    ([requires_grad = False]) *)
Record built (T : Type) : Type := Built { module : T; frozen : bool }.
Global Arguments Built {T} _ _.
Global Arguments module {T} _.
Global Arguments frozen {T} _.

Definition construct {T} (new : string → kwargs → exn + T) (cls : string) (kw : kwargs)
    : M T :=
  match new cls kw with
  | inl e => raise e
  | inr m => _ ← tell (Construct cls); mret m
  end.

(** [assert cond, msg] *)
Definition assert (cond : bool) (msg : string) : M unit :=
  if cond then mret tt else raise (AssertionError msg).

(** [v == s] for a string literal [s] *)
Definition is_str (v : pyval) (s : string) : bool :=
  match v with PStr s' => String.eqb s' s | _ => false end.

(** [str(v)] of a scalar, as an f-string prints it; containers are
    abbreviated. *)
Definition py_str (v : pyval) : string :=
  match v with
  | PNone => "None"
  | PBool true => "True"
  | PBool false => "False"
  | PInt z => pretty z
  | PStr s => s
  | PList _ => "[...]"
  | PDict _ => "{...}"
  end.

(** [list(reversed(v))] *)
Definition reversed_list (v : pyval) : M pyval :=
  match v with
  | PList l => mret (PList (reverse l))
  | PStr s => mret (PList (reverse ((λ c, PStr (String c "")) <$> String.list_ascii_of_string s)))
  | _ => raise (TypeError "argument to reversed() must be a sequence")
  end.

(** The class [cls] called with [encoder_config["config"]] as its
    keyword arguments *)
Definition from_config {T} (new : string → kwargs → exn + T) (cls : string)
    (cfg : gmap string pyval) : M T :=
  c ← dict_item cfg "config";
  kw ← as_dict c;
  construct new cls kw.

(** [create_encoder_from_config] *)
Definition create_encoder_from_config (encoder_config : pyval) : M (built Enc) :=
  cfg ← dict_of_get encoder_config;
  let encoder_type := dict_get cfg "type" PNone in
  _ ← assert (negb (is_none encoder_type)) "Encoder type must be specified";
  encoder ←
    (if is_str encoder_type "oobleck" then from_config new_encoder "OobleckEncoder" cfg
     else if is_str encoder_type "seanet" then
       c ← dict_item cfg "config";
       seanet_encoder_config ← dict_of_get c;
       (* SEANet encoder expects strides in reverse order *)
       ratios ← reversed_list
                  (dict_get seanet_encoder_config "ratios"
                     (PList [PInt 2; PInt 2; PInt 2; PInt 2; PInt 2]));
       construct new_encoder "SEANetEncoder" (<["ratios" := ratios]> seanet_encoder_config)
     else if is_str encoder_type "dac" then from_config new_encoder "DACEncoderWrapper" cfg
     else if is_str encoder_type "local_attn" then
       from_config new_encoder "TransformerEncoder1D" cfg
     else raise (ValueError ("Unknown encoder type " +:+ py_str encoder_type)));
  let requires_grad := dict_get cfg "requires_grad" (PBool true) in
  mret (Built encoder (negb (truthy requires_grad))).

(** [create_decoder_from_config] *)
Definition create_decoder_from_config (decoder_config : pyval) : M (built Dec) :=
  cfg ← dict_of_get decoder_config;
  let decoder_type := dict_get cfg "type" PNone in
  _ ← assert (negb (is_none decoder_type)) "Decoder type must be specified";
  decoder ←
    (if is_str decoder_type "oobleck" then from_config new_decoder "OobleckDecoder" cfg
     else if is_str decoder_type "seanet" then from_config new_decoder "SEANetDecoder" cfg
     else if is_str decoder_type "dac" then from_config new_decoder "DACDecoderWrapper" cfg
     else if is_str decoder_type "local_attn" then
       from_config new_decoder "TransformerDecoder1D" cfg
     else raise (ValueError ("Unknown decoder type " +:+ py_str decoder_type)));
  let requires_grad := dict_get cfg "requires_grad" (PBool true) in
  mret (Built decoder (negb (truthy requires_grad))).

(** The arguments [create_autoencoder_from_config] passes to the
    [AudioAutoencoder] constructor *)
Record autoencoder_args : Type := {
  arg_encoder : built Enc;
  arg_decoder : built Dec;
  arg_io_channels : pyval;
  arg_latent_dim : pyval;
  arg_downsampling_ratio : pyval;
  arg_sample_rate : pyval;
  arg_bottleneck : option Bn;
  arg_pretransform : option Pt;
  arg_in_channels : pyval;
  arg_out_channels : pyval;
  arg_soft_clip : pyval
}.

(** [create_autoencoder_from_config] *)
Definition create_autoencoder_from_config (config : pyval) : M autoencoder_args :=
  config_d ← as_dict config;
  model ← dict_item config_d "model";
  ae_config ← as_dict model;
  encoder_config ← dict_item ae_config "encoder";
  encoder ← create_encoder_from_config encoder_config;
  decoder_config ← dict_item ae_config "decoder";
  decoder ← create_decoder_from_config decoder_config;
  let bottleneck := dict_get ae_config "bottleneck" PNone in
  let latent_dim := dict_get ae_config "latent_dim" PNone in
  _ ← assert (negb (is_none latent_dim)) "latent_dim must be specified in model config";
  let downsampling_ratio := dict_get ae_config "downsampling_ratio" PNone in
  _ ← assert (negb (is_none downsampling_ratio))
        "downsampling_ratio must be specified in model config";
  let io_channels := dict_get ae_config "io_channels" PNone in
  _ ← assert (negb (is_none io_channels)) "io_channels must be specified in model config";
  let sample_rate := dict_get config_d "sample_rate" PNone in
  _ ← assert (negb (is_none sample_rate)) "sample_rate must be specified in model config";
  let in_channels := dict_get ae_config "in_channels" PNone in
  let out_channels := dict_get ae_config "out_channels" PNone in
  let pretransform := dict_get ae_config "pretransform" PNone in
  pretransform ←
    (if negb (is_none pretransform)
     then pt ← create_pretransform_from_config pretransform sample_rate; mret (Some pt)
     else mret None);
  bottleneck ←
    (if negb (is_none bottleneck)
     then bn ← create_bottleneck_from_config bottleneck; mret (Some bn)
     else mret None);
  decoder_d ← dict_of_get decoder_config;
  let soft_clip := dict_get decoder_d "soft_clip" (PBool false) in
  _ ← tell (Construct "AudioAutoencoder");
  mret {| arg_encoder := encoder; arg_decoder := decoder;
          arg_io_channels := io_channels; arg_latent_dim := latent_dim;
          arg_downsampling_ratio := downsampling_ratio;
          arg_sample_rate := sample_rate; arg_bottleneck := bottleneck;
          arg_pretransform := pretransform; arg_in_channels := in_channels;
          arg_out_channels := out_channels; arg_soft_clip := soft_clip |}.
End factories.

(** ** Integer helpers of [utils.py] *)

(** [x.bit_length()]: the number of bits of the absolute value *)
Definition bit_length (x : Z) : Z :=
  if x =? 0 then 0 else Z.log2 (Z.abs x) + 1.

(** [next_power_of_two]: [2 ** (n - 1).bit_length()] *)
Definition next_power_of_two (n : Z) : Z := 2 ^ bit_length (n - 1).

(** [next_multiple_of_64]: [((n + 63) // 64) * 64] *)
Definition next_multiple_of_64 (n : Z) : Z := ((n + 63) / 64) * 64.

(** ** Preparing audio for the encoder

    [preprocess_audio_list_for_encoder] takes tensors of any rank.  A
    tensor is its shape and its elements in row-major order; squeezing
    and unsqueezing change the shape only. *)

Record ndarray (A : Type) : Type := NdArray {
  nd_shape : list nat;
  nd_data : list A
}.
Global Arguments NdArray {A} _ _.
Global Arguments nd_shape {A} _.
Global Arguments nd_data {A} _.

(** What the method reads of [self] *)
Record encoder_input_format : Type := {
  sample_rate : Z;
  min_length : Z;
  in_channels : Z
}.

Section preprocess.
Context {A : Type}.

(** [T.Resample(in_sr, sample_rate)(audio)] of torchaudio *)
Variable resample : Z → Z → ndarray A → ndarray A.
(** [prepare_audio(audio, in_sr, target_sr, target_length,
    target_channels, device)] of the inference utilities *)
Variable prepare_audio : ndarray A → Z → Z → Z → Z → ndarray A.

(** [t.squeeze(0)]: a leading axis of size 1 is removed *)
Definition squeeze0 (t : ndarray A) : ndarray A :=
  match nd_shape t with
  | 1%nat :: s => NdArray s (nd_data t)
  | _ => t
  end.

(** [t.unsqueeze(0)] *)
Definition unsqueeze0 (t : ndarray A) : ndarray A :=
  NdArray (1%nat :: nd_shape t) (nd_data t).

(** [t.shape[-1]] *)
Definition last_dim (t : ndarray A) : M Z :=
  match last (nd_shape t) with
  | Some n => mret (Z.of_nat n)
  | None => raise IndexError
  end.

(** [torch.stack(ts)] for tensors of any rank *)
Definition nd_stack (ts : list (ndarray A)) : M (ndarray A) :=
  match ts with
  | [] => raise (RuntimeError "stack expects a non-empty TensorList")
  | t :: rest =>
      if forallb (λ u, bool_decide (nd_shape u = nd_shape t)) rest
      then mret (NdArray (length ts :: nd_shape t) (concat (nd_data <$> ts)))
      else raise (RuntimeError "stack expects each tensor to be equal size")
  end.

(** [xs[i]] *)
Definition list_item {X} (xs : list X) (i : Z) : M X :=
  match xs !! Z.to_nat i with
  | Some x => mret x
  | None => raise IndexError
  end.

(** What the first loop does to one item: the shape is brought to
    (channels, length) and the audio resampled to the model's rate. *)
Definition to_channels_by_length (self : encoder_input_format)
    (audio : ndarray A) (in_sr : Z) : M (ndarray A) :=
  let audio :=
    if Nat.eqb (length (nd_shape audio)) 3 && bool_decide (nd_shape audio !! 0%nat = Some 1%nat)
    then (* batchsize 1 was given by accident. Just squeeze it. *)
      squeeze0 audio
    else if Nat.eqb (length (nd_shape audio)) 1
    then (* Mono signal, channel dimension is missing, unsqueeze it in *)
      unsqueeze0 audio
    else audio in
  _ ← assert (Nat.eqb (length (nd_shape audio)) 2)
        "Audio should be shape (Channels x Length) with no batch dimension";
  (* Resample audio *)
  if bool_decide (in_sr ≠ sample_rate self)
  then mret (resample in_sr (sample_rate self) audio)
  else mret audio.

(** The local variables the first loop leaves behind: [new_audio],
    [max_length], and [in_sr], unbound when the loop did not run *)
Record resampled : Type := Resampled {
  new_audio : list (ndarray A);
  max_length : Z;
  in_sr : option Z
}.

(** The body of the first loop *)
Definition resample_step (self : encoder_input_format)
    (audio_list : list (ndarray A)) (in_sr_list : list Z)
    (i : Z) (s : resampled) : M resampled :=
  audio ← list_item audio_list i;
  in_sr ← list_item in_sr_list i;
  audio ← to_channels_by_length self audio in_sr;
  len ← last_dim audio;
  mret (Resampled (new_audio s ++ [audio])
          (if max_length s <? len then len else max_length s)
          (Some in_sr)).

(** [max_length + (self.min_length - (max_length % self.min_length)) %
    self.min_length] *)
Definition padded_audio_length (self : encoder_input_format) (max_length : Z) : M Z :=
  if min_length self =? 0 then raise ZeroDivisionError
  else mret (max_length
             + (min_length self - max_length `mod` min_length self) `mod` min_length self).

(** The body of the second loop.  [in_sr] is the variable the first loop
    left behind: the sample rate of the last item. *)
Definition pad_step (self : encoder_input_format) (in_sr : option Z)
    (padded_audio_length : Z) (i : Z) (new_audio : list (ndarray A))
    : M (list (ndarray A)) :=
  audio ← list_item new_audio i;
  in_sr ← match in_sr with
          | Some sr => mret sr
          | None => raise (UnboundLocalError "in_sr")
          end;
  mret (<[Z.to_nat i := squeeze0 (prepare_audio audio in_sr in_sr padded_audio_length
                                    (in_channels self))]> new_audio).

(** [AudioAutoencoder.preprocess_audio_list_for_encoder]; [in_sr_list]
    is an integer or a list. *)
Definition preprocess_audio_list_for_encoder (self : encoder_input_format)
    (audio_list : list (ndarray A)) (in_sr_list : Z + list Z) : M (ndarray A) :=
  let batch_size := length audio_list in
  let in_sr_list :=
    match in_sr_list with
    | inl sr => replicate batch_size sr
    | inr l => l
    end in
  _ ← assert (Nat.eqb (length in_sr_list) batch_size)
        "list of sample rates must be the same length of audio_list";
  (* resample & find the max length *)
  s ← foldM (resample_step self audio_list in_sr_list)
            (seqZ 0 (Z.of_nat batch_size)) (Resampled [] 0 None);
  (* Pad every audio to the same length, multiple of model's downsampling ratio *)
  padded ← padded_audio_length self (max_length s);
  new_audio ← foldM (pad_step self (in_sr s) padded)
                    (seqZ 0 (Z.of_nat batch_size)) (new_audio s);
  (* convert to tensor *)
  nd_stack new_audio.

(** [AudioAutoencoder.preprocess_audio_for_encoder] *)
Definition preprocess_audio_for_encoder (self : encoder_input_format)
    (audio : ndarray A) (in_sr : Z) : M (ndarray A) :=
  preprocess_audio_list_for_encoder self [audio] (inr [in_sr]).
End preprocess.

(** ** The factory of diffusion autoencoders *)

Section diffusion_factory.
Context {Enc Dec Bn Pt Dif : Type}.

Variable new_encoder : string → kwargs → exn + Enc.
Variable new_decoder : string → kwargs → exn + Dec.
Variable create_pretransform_from_config : pyval → pyval → M Pt.
Variable create_bottleneck_from_config : pyval → M Bn.
(** The constructors of the diffusion wrappers *)
Variable new_diffusion : string → kwargs → exn + Dif.
(** [np.prod] of numpy *)
Variable np_prod : pyval → M pyval.

(** [v[key]] for a string key *)
Definition subscript (v : pyval) (key : string) : M pyval :=
  d ← as_dict v;
  dict_item d key.

(** The class [cls] called with [diffae_config["diffusion"]["config"]]
    as its keyword arguments *)
Definition diffusion_from_config (cls : string) (diffae_config : gmap string pyval)
    : M Dif :=
  section ← dict_item diffae_config "diffusion";
  c ← subscript section "config";
  kw ← as_dict c;
  construct new_diffusion cls kw.

(** [np.prod(diffae_config["diffusion"]["config"][key])] *)
Definition prod_of (key : string) (diffae_config : gmap string pyval) : M pyval :=
  section ← dict_item diffae_config "diffusion";
  c ← subscript section "config";
  v ← subscript c key;
  np_prod v.

(** The arguments [create_diffAE_from_config] passes to the
    [DiffusionAutoencoder] constructor *)
Record diffusion_autoencoder_args : Type := {
  dae_encoder : option (built Enc);
  dae_decoder : option (built Dec);
  dae_diffusion : Dif;
  dae_io_channels : pyval;
  dae_sample_rate : pyval;
  dae_latent_dim : pyval;
  dae_downsampling_ratio : pyval;
  dae_diffusion_downsampling_ratio : pyval;
  dae_bottleneck : option Bn;
  dae_pretransform : option Pt
}.

(** [create_diffAE_from_config].  The local variable [diffusion] is
    bound by one of three branches and by no other; it is read when the
    arguments of the constructor are evaluated.  The initial value of
    [diffusion_downsampling_ratio] is a one-element tuple, written as
    a list here. *)
Definition create_diffAE_from_config (config : pyval) : M diffusion_autoencoder_args :=
  config_d ← as_dict config;
  model ← dict_item config_d "model";
  diffae_config ← as_dict model;
  encoder ←
    match diffae_config !! "encoder" with
    | Some encoder_config =>
        e ← create_encoder_from_config new_encoder encoder_config; mret (Some e)
    | None => mret None
    end;
  decoder ←
    match diffae_config !! "decoder" with
    | Some decoder_config =>
        d ← create_decoder_from_config new_decoder decoder_config; mret (Some d)
    | None => mret None
    end;
  section ← dict_item diffae_config "diffusion";
  diffusion_model_type ← subscript section "type";
  diffusion ←
    (if is_str diffusion_model_type "DAU1d" then
       d ← diffusion_from_config "DAU1DCondWrapper" diffae_config; mret (Some d)
     else if is_str diffusion_model_type "adp_1d" then
       d ← diffusion_from_config "UNet1DCondWrapper" diffae_config; mret (Some d)
     else if is_str diffusion_model_type "dit" then
       d ← diffusion_from_config "DiTWrapper" diffae_config; mret (Some d)
     else mret None);
  let latent_dim := dict_get diffae_config "latent_dim" PNone in
  _ ← assert (negb (is_none latent_dim)) "latent_dim must be specified in model config";
  let downsampling_ratio := dict_get diffae_config "downsampling_ratio" PNone in
  _ ← assert (negb (is_none downsampling_ratio))
        "downsampling_ratio must be specified in model config";
  let io_channels := dict_get diffae_config "io_channels" PNone in
  _ ← assert (negb (is_none io_channels)) "io_channels must be specified in model config";
  let sample_rate := dict_get config_d "sample_rate" PNone in
  _ ← assert (negb (is_none sample_rate)) "sample_rate must be specified in model config";
  let bottleneck := dict_get diffae_config "bottleneck" PNone in
  let pretransform := dict_get diffae_config "pretransform" PNone in
  pretransform ←
    (if negb (is_none pretransform)
     then pt ← create_pretransform_from_config pretransform sample_rate; mret (Some pt)
     else mret None);
  bottleneck ←
    (if negb (is_none bottleneck)
     then bn ← create_bottleneck_from_config bottleneck; mret (Some bn)
     else mret None);
  diffusion_downsampling_ratio ←
    (if is_str diffusion_model_type "DAU1d" then prod_of "strides" diffae_config
     else if is_str diffusion_model_type "adp_1d" then prod_of "factors" diffae_config
     else if is_str diffusion_model_type "dit" then mret (PInt 1)
     else mret (PList [PNone]));
  diffusion ← match diffusion with
              | Some d => mret d
              | None => raise (UnboundLocalError "diffusion")
              end;
  _ ← tell (Construct "DiffusionAutoencoder");
  mret {| dae_encoder := encoder; dae_decoder := decoder; dae_diffusion := diffusion;
          dae_io_channels := io_channels; dae_sample_rate := sample_rate;
          dae_latent_dim := latent_dim; dae_downsampling_ratio := downsampling_ratio;
          dae_diffusion_downsampling_ratio := diffusion_downsampling_ratio;
          dae_bottleneck := bottleneck; dae_pretransform := pretransform |}.
End diffusion_factory.

(** ** The Oobleck encoder and decoder, on the time axis

    The layers are torch's and EnCodec's.  What this code decides is
    their kernel sizes, strides, dilations and paddings, and their order;
    what follows from it is the length of the output.  A layer is
    represented by what it does to the length of its input: the output
    length torch documents for [Conv1d] and [ConvTranspose1d], with the
    errors torch raises when the padding does not fit the input, when
    the padded input is shorter than the kernel and when the input has
    no frame.  Activations keep the length.  Paddings are not negative
    and dilations are positive, as this code has them; the batch and the
    channels are not empty. *)

Definition layer : Type := Z → M Z.

(** [padding_mode], one of the four strings [Conv1d] accepts: it
    refuses any other when it is constructed *)
Inductive PaddingMode : Type := Zeros | Reflect | Replicate | Circular.

(** [F.pad(input, (padding, padding), mode=padding_mode)], which
    [Conv1d] applies to its input for another mode than zeros: the
    reflection needs an input longer than the padding, the replication
    a frame, and the circular padding an input at least as long as the
    padding.  With zeros the convolution pads by itself. *)
Definition conv_pad (padding_mode : PaddingMode) (padding : Z) : layer :=
  λ L,
    match padding_mode with
    | Zeros => mret L
    | Reflect =>
        if L <=? 0
        then raise (RuntimeError "Expected 2D or 3D input with non-zero dimensions")
        else if padding <? L then mret (L + 2 * padding)
        else raise (RuntimeError
                      "Padding size should be less than the corresponding input dimension")
    | Replicate =>
        if L <=? 0
        then raise (RuntimeError "Expected 2D or 3D input with non-zero dimensions")
        else mret (L + 2 * padding)
    | Circular =>
        if padding <=? L then mret (L + 2 * padding)
        else raise (RuntimeError "Padding value causes wrapping around more than once.")
    end.

(** [nn.Sequential] of the layers, applied in order *)
Definition Sequential (layers : list layer) : layer :=
  foldM (λ (l : layer) x, l x) layers.

(** [F.conv1d] with zero padding on both sides *)
Definition F_conv1d_length (kernel_size stride padding dilation : Z) : layer :=
  λ L, if stride <=? 0 then raise (RuntimeError "non-positive stride is not supported")
       else if L + 2 * padding <? dilation * (kernel_size - 1) + 1
       then raise (RuntimeError "Kernel size can't be greater than actual input size")
       else if L <=? 0
       then raise (RuntimeError "Only zero batch or zero channel inputs are supported")
       else mret ((L + 2 * padding - dilation * (kernel_size - 1) - 1) / stride + 1).

(** [Conv1d(kernel_size, stride, padding, dilation, padding_mode)],
    which [WNConv1d] wraps: with zeros the convolution pads, with
    another mode the input is padded first and convolved without
    padding *)
Definition conv1d_length (kernel_size stride padding dilation : Z)
    (padding_mode : PaddingMode) : layer :=
  λ L,
    match padding_mode with
    | Zeros => F_conv1d_length kernel_size stride padding dilation L
    | _ =>
        padded ← conv_pad padding_mode padding L;
        F_conv1d_length kernel_size stride 0 dilation padded
    end.

(** [ConvTranspose1d(kernel_size, stride, padding)], which
    [WNConvTranspose1d] wraps; its padding mode is zeros *)
Definition conv_transpose1d_length (kernel_size stride padding : Z) : layer :=
  λ L, if stride <=? 0 then raise (RuntimeError "non-positive stride is not supported")
       else if L <=? 0
       then raise (RuntimeError "Only zero batch or zero channel inputs are supported")
       else mret ((L - 1) * stride - 2 * padding + (kernel_size - 1) + 1).

(** [nn.Upsample(scale_factor, mode="nearest")] for an integer factor *)
Definition upsample_length (scale_factor : Z) : layer :=
  λ L, if (L <=? 0) || (L * scale_factor <=? 0)
       then raise (RuntimeError "Input and output sizes should be greater than 0")
       else mret (L * scale_factor).

(** [Conv1d(kernel_size, stride=1, padding="same")] *)
Definition conv1d_same_length : layer :=
  λ L, if L <=? 0
       then raise (RuntimeError "Only zero batch or zero channel inputs are supported")
       else mret L.

(** [TrimPadding.forward]: [x[:, :, : -self.padding]] *)
Definition TrimPadding {A} (padding : Z) (x : tensor A) : tensor A :=
  slice2 x None (Some (- padding)).

(** The same on the length: the upper bound of the slice *)
Definition TrimPadding_length (padding : Z) : layer :=
  λ L, mret (slice_index L (Some (- padding)) L).

(** [a + b] on the time axis: equal sizes, or one of them 1 *)
Definition add_length (a b : Z) : M Z :=
  if a =? b then mret a
  else if a =? 1 then mret b
  else if b =? 1 then mret a
  else raise (RuntimeError "The size of tensor a must match the size of tensor b").

(** [math.ceil(stride / 2)] *)
Definition ceil_half (stride : Z) : Z := (stride + 1) / 2.

Section oobleck.
(** EnCodec's causal [SConv1d(kernel_size, stride)] and
    [SConvTranspose1d(kernel_size, stride)] *)
Variable sconv1d_length : Z → Z → layer.
Variable sconv_transpose1d_length : Z → Z → layer.

(** [ResidualUnit]: [self.padding] *)
Definition ResidualUnit_padding (causal : bool) (dilation kernel_size : Z) : Z :=
  if causal then dilation * (kernel_size - 1)
  else (dilation * (kernel_size - 1)) / 2.

(** [ResidualUnit.forward]; the second convolution is given no
    padding mode and has the default, zeros *)
Definition ResidualUnit (causal : bool) (padding_mode : PaddingMode)
    (dilation kernel_size : Z) : layer :=
  λ x,
    let padding := ResidualUnit_padding causal dilation kernel_size in
    let res := x in
    (* apply conv layers *)
    x ← Sequential [conv1d_length kernel_size 1 padding dilation padding_mode;
                    conv1d_length 1 1 0 1 Zeros] x;
    x ← (if causal
         then (* Trim right padding to get the causal output *)
           TrimPadding_length padding x
         else mret x);
    add_length x res.

(** [EncoderBlock._create_downsample_layer]: the causal layer takes
    no padding mode *)
Definition create_downsample_layer (causal : bool) (padding_mode : PaddingMode)
    (stride : Z) : layer :=
  if causal then sconv1d_length (2 * stride) stride
  else conv1d_length (2 * stride) stride (ceil_half stride) 1 padding_mode.

(** [EncoderBlock]: three residual units and the downsampling layer *)
Definition EncoderBlock (causal : bool) (padding_mode : PaddingMode) (stride : Z) : layer :=
  Sequential [ResidualUnit causal padding_mode 1 7; ResidualUnit causal padding_mode 3 7;
              ResidualUnit causal padding_mode 9 7;
              create_downsample_layer causal padding_mode stride].

(** [DecoderBlock._create_upsample_layer]: the padding mode is not
    used; the transposed convolution has zeros, and the convolution
    after the nearest upsampling is given none *)
Definition create_upsample_layer (causal use_nearest_upsample : bool)
    (padding_mode : PaddingMode) (stride : Z) : M layer :=
  if causal then
    _ ← assert (negb use_nearest_upsample)
          "use_nearest_upsample is not implemented for causal mode!";
    mret (sconv_transpose1d_length (2 * stride) stride)
  else if use_nearest_upsample
  then mret (Sequential [upsample_length stride; conv1d_same_length])
  else mret (conv_transpose1d_length (2 * stride) stride (ceil_half stride)).

(** [DecoderBlock]: the upsampling layer and three residual units *)
Definition DecoderBlock (causal use_nearest_upsample : bool) (padding_mode : PaddingMode)
    (stride : Z) : M layer :=
  upsample_layer ← create_upsample_layer causal use_nearest_upsample padding_mode stride;
  mret (Sequential [upsample_layer; ResidualUnit causal padding_mode 1 7;
                    ResidualUnit causal padding_mode 3 7;
                    ResidualUnit causal padding_mode 9 7]).

(** A convolution with the padding mode of the module, followed by
    [TrimPadding] in causal mode *)
Definition padded_conv (causal : bool) (padding_mode : PaddingMode)
    (kernel_size padding : Z) : layer :=
  if causal
  then Sequential [conv1d_length kernel_size 1 padding 1 padding_mode;
                   TrimPadding_length padding]
  else conv1d_length kernel_size 1 padding 1 padding_mode.

(** [OobleckEncoder.__init__]: the layers.  Only the number of
    channel multipliers matters here. *)
Definition OobleckEncoder (causal : bool) (padding_mode : PaddingMode)
    (c_mults strides : list Z) : M (list layer) :=
  let c_mults := [1] ++ c_mults in
  let depth := Z.of_nat (length c_mults) in
  (* Padding for the first convolution layer *)
  let first_padding := if causal then 6 else 3 in
  let first_conv := padded_conv causal padding_mode 7 first_padding in
  blocks ← mapM (λ i, stride ← list_item strides i;
                      mret (EncoderBlock causal padding_mode stride))
                (seqZ 0 (depth - 1));
  (* Padding for the final convolution layer *)
  let final_padding := if causal then 2 else 1 in
  let final_conv := padded_conv causal padding_mode 3 final_padding in
  mret ([first_conv] ++ blocks ++ [final_conv]).

(** [OobleckDecoder.__init__]: the layers *)
Definition OobleckDecoder (causal use_nearest_upsample : bool) (padding_mode : PaddingMode)
    (c_mults strides : list Z) : M (list layer) :=
  let c_mults := [1] ++ c_mults in
  let depth := Z.of_nat (length c_mults) in
  (* Padding for the first convolution layer *)
  let first_padding := if causal then 6 else 3 in
  let first_conv := padded_conv causal padding_mode 7 first_padding in
  (* main conv decoder blocks *)
  indices ← py_range (depth - 1) 0 (-1);
  blocks ← mapM (λ i, stride ← list_item strides (i - 1);
                      DecoderBlock causal use_nearest_upsample padding_mode stride)
                indices;
  (* Padding for the final convolution layer *)
  let final_padding := if causal then 6 else 3 in
  let final_conv := padded_conv causal padding_mode 7 final_padding in
  mret ([first_conv] ++ blocks ++ [final_conv]).

(** Constructing the module and calling it on an input of length [L] *)
Definition OobleckEncoder_length (causal : bool) (padding_mode : PaddingMode)
    (c_mults strides : list Z) (L : Z) : M Z :=
  layers ← OobleckEncoder causal padding_mode c_mults strides;
  Sequential layers L.

Definition OobleckDecoder_length (causal use_nearest_upsample : bool)
    (padding_mode : PaddingMode) (c_mults strides : list Z) (L : Z) : M Z :=
  layers ← OobleckDecoder causal use_nearest_upsample padding_mode c_mults strides;
  Sequential layers L.
End oobleck.

(** ** Padding in the period discriminator ([discriminators.py]) *)

Section discriminators.
Context {A : Type}.

(** [F.pad(x, (0, pad), mode="reflect")]: the frames before the last
    one, mirrored; the padding must be shorter than the input.  A
    negative padding removes frames, and must leave one. *)
Definition reflect_pad (pad : Z) (x : tensor A) : M (tensor A) :=
  let t := Z.of_nat (shape2 x) in
  if 0 <=? pad then
    if pad <? t then
      mret (Tensor (shape0 x) (Z.to_nat (t + pad))
              ((λ row, row ++ reverse (take (Z.to_nat pad)
                                         (drop (Z.to_nat (t - 1 - pad)) row)))
                 <$> data x))
    else raise (RuntimeError
                  "Padding size should be less than the corresponding input dimension")
  else if t + pad <=? 0
  then raise (RuntimeError "input is too small")
  else mret (Tensor (shape0 x) (Z.to_nat (t + pad))
               ((λ row, take (Z.to_nat (t + pad)) row) <$> data x)).

(** [MPD.pad_to_period] *)
Definition pad_to_period (period : Z) (x : tensor A) : M (tensor A) :=
  let t := Z.of_nat (shape2 x) in
  if period =? 0 then raise ZeroDivisionError
  else reflect_pad (period - t `mod` period) x.

(** *** The tensors of a [MultiDiscriminator], keyed by name *)

(** [x.chunk(chunks, 0)]: pieces of [ceil(B / chunks)] items, the last
    one shorter, and fewer pieces than asked for when they do not fill;
    an empty batch gives [chunks] empty pieces. *)
Definition torch_chunk (chunks : Z) (x : tensor A) : M (list (tensor A)) :=
  if chunks <=? 0
  then raise (RuntimeError "chunk expects chunks to be greater than 0")
  else
    let B := Z.of_nat (shape0 x) in
    let split_size := (B + chunks - 1) / chunks in
    if split_size =? 0
    then mret (replicate (Z.to_nat chunks) (Tensor 0 (shape2 x) []))
    else mret ((λ i, slice0 x (Some (i * split_size)) (Some ((i + 1) * split_size)))
                 <$> seqZ 0 ((B + split_size - 1) / split_size)).

(** A dict comprehension over [(key, value)] pairs: a later pair
    replaces an earlier one of the same key. *)
Definition dict_of_pairs {V} (pairs : list (string * V)) : gmap string V :=
  foldl (λ m kv, <[kv.1 := kv.2]> m) ∅ pairs.

(** [MultiDiscriminator.unpack_tensor_to_dict] *)
Definition unpack_tensor_to_dict (keys : list string) (features : tensor A)
    : M (gmap string (tensor A)) :=
  features ← torch_chunk (Z.of_nat (length keys)) features;
  pairs ← mapM (λ ik, f ← list_item features ik.1; mret (ik.2, f))
               (zip (seqZ 0 (Z.of_nat (length keys))) keys);
  mret (dict_of_pairs pairs).

(** [torch.cat([inputs[k] for k in self.keys], 0)], the first statement
    of [MultiDiscriminator.forward] *)
Definition discriminator_input (keys : list string) (inputs : gmap string (tensor A))
    : M (tensor A) :=
  xs ← mapM (λ k, match inputs !! k with
                  | Some x => mret x
                  | None => raise (KeyError k)
                  end) keys;
  torch_cat xs.
End discriminators.

(** A value of the feature dictionaries: a tensor or a list of tensors *)
Definition as_list {T} (v : T + list T) : list T :=
  match v with
  | inl t => [t]
  | inr l => l
  end.

(** [MultiDiscriminator.concat_dicts]: for every key of either
    dictionary, the list of what the first holds followed by what the
    second holds *)
Definition concat_dicts {T} (dict_a dict_b : gmap string (T + list T))
    : gmap string (T + list T) :=
  merge (λ a b, match a, b with
                | None, None => None
                | _, _ => Some (inr (from_option as_list [] a ++ from_option as_list [] b))
                end) dict_a dict_b.

(** [functools.reduce(f, xs)], without initial value *)
Definition reduce {X} (f : X → X → X) (xs : list X) : M X :=
  match xs with
  | [] => raise (TypeError "reduce() of empty iterable with no initial value")
  | x :: xs => mret (foldl f x xs)
  end.

(** * Specification vocabulary

    The definitions the statements below are written with: the expected
    windows and pastes, the codec laws, the readings of a trace, and a
    small concrete codec and configuration for examples. *)

(** ** Windows and pastes *)

(** The start offsets the window loop produces: the hop grid, then the
    right-aligned window if the grid stopped short of the end. *)
Definition window_starts (total chunk hop : Z) : list Z :=
  let q := (total - chunk) / hop in
  ((λ k, k * hop) <$> seqZ 0 (q + 1))
  ++ (if bool_decide (q * hop + chunk ≠ total) then [total - chunk] else []).

(** Where chunk [i] of [n] goes: the target range in an output of length
    [Y] and the source range in a codec output of length [c], for a hop
    [hop] and a trim [ol], all in the unit of the output. *)
Definition paste_plan (n Y c hop ol i : Z) : Z * Z * Z * Z :=
  trim_edges i n ol
    (if bool_decide (i = n - 1) then Y - c else i * hop)
    (if bool_decide (i = n - 1) then Y else i * hop + c)
    0 c.

Definition paste_event (p : Z * Z * Z * Z) : event :=
  let '(t_start, t_end, chunk_start, chunk_end) := p in
  Paste t_start t_end chunk_start chunk_end.

(** The [n] chunks tile an output of length [Y]: all but the last fit on
    the hop grid, and the grid reaches the end. *)
Record tiling (n Y c hop ol : Z) : Prop := {
  tiling_chunks : 1 ≤ n;
  tiling_hop : 0 < hop;
  tiling_trim : 0 ≤ ol;
  tiling_overlap : 2 * ol ≤ c - hop;
  tiling_chunk : c ≤ Y;
  tiling_fit : ∀ i, 0 ≤ i ≤ n - 2 → i * hop + c ≤ Y;
  tiling_reach : Y ≤ (n - 1) * hop + c
}.

(** The tiling has no double write: the overlap is twice the trim, and
    the hop grid ends exactly at the end of the output. *)
Definition exact_tiling (n Y c hop ol : Z) : Prop :=
  tiling n Y c hop ol ∧ 2 * ol = c - hop ∧ Y = (n - 1) * hop + c.

Section vocabulary.
Context {A : Type} `{!Frame A}.
Implicit Types self : AudioAutoencoder A.
Implicit Types audio latents x : tensor A.

Global Instance tensor_inhabited : Inhabited (tensor A) := populate (Tensor 0 0 []).

(** The codec maps an input of length [T] to an output of length
    [T / R] ([self.encode]), or [T * R] ([self.decode]), and keeps the
    batch. *)
Definition encode_ratio_law self : Prop :=
  ∀ x, wf x →
    ∃ y, result (encode self x false false false ∅) = inr (Latents y)
         ∧ wf y ∧ shape0 y = shape0 x
         ∧ Z.of_nat (shape2 y) = Z.of_nat (shape2 x) / downsampling_ratio self.

Definition decode_ratio_law self : Prop :=
  ∀ x, wf x →
    ∃ y, result (decode self x false ∅) = inr y
         ∧ wf y ∧ shape0 y = shape0 x
         ∧ Z.of_nat (shape2 y) = Z.of_nat (shape2 x) * downsampling_ratio self.

(** The windows the loop cuts from [audio] *)
Definition windows_at audio (chunk : Z) (starts : list Z) : list (tensor A) :=
  (λ s, slice2 audio (Some s) (Some (s + chunk))) <$> starts.

(** The trace of one turn of the second loop: the codec call on the
    chunk, then its paste. *)
Definition encode_step_trace self (chunks : list (tensor A)) (n Y cs ov i : Z)
    : list event :=
  trace (encode self (chunks !!! Z.to_nat i) false false false ∅)
  ++ [paste_event (paste_plan n Y cs (cs - ov) (ov / 2) i)].

(** The trace of chunked [encode_audio] on valid parameters: the
    windows, then for each chunk its codec call and its paste. *)
Definition encode_audio_trace self audio (ov cs : Z) : list event :=
  let R := downsampling_ratio self in
  let total := Z.of_nat (shape2 audio) in
  let starts := window_starts total (cs * R) (cs * R - ov * R) in
  let n := Z.of_nat (length starts) in
  ((λ s, Window s (s + cs * R)) <$> starts)
  ++ concat (encode_step_trace self (windows_at audio (cs * R) starts)
               n (total / R) cs ov <$> seqZ 0 n).

(** The same for one turn of the second loop of [decode_audio] *)
Definition decode_step_trace self (chunks : list (tensor A)) (n Y cs ov i : Z)
    : list event :=
  let R := downsampling_ratio self in
  trace (decode self (chunks !!! Z.to_nat i) false ∅)
  ++ [paste_event (paste_plan n Y (cs * R) ((cs - ov) * R) (ov / 2 * R) i)].

(** The trace of chunked [decode_audio] on valid parameters *)
Definition decode_audio_trace self latents (ov cs : Z) : list event :=
  let R := downsampling_ratio self in
  let total := Z.of_nat (shape2 latents) in
  let starts := window_starts total cs (cs - ov) in
  let n := Z.of_nat (length starts) in
  ((λ s, Window s (s + cs)) <$> starts)
  ++ concat (decode_step_trace self (windows_at latents cs starts)
               n (total * R) cs ov <$> seqZ 0 n).

(** A sub-module processes the items of a batch independently: item [i]
    of its output is a function of item [i] of its input, and the output
    length is a function of the input length. *)
Definition per_sample (f : tensor A → tensor A) : Prop :=
  ∃ (g : list A → list A) (w : nat → nat),
    ∀ t, f t = Tensor (shape0 t) (w (shape2 t)) (g <$> data t).

(** A batched input: a tensor that holds its [shape0] items, at least one *)
Definition batch (x : tensor A) : Prop :=
  length (data x) = shape0 x ∧ (0 < shape0 x)%nat.
End vocabulary.

(** ** Reading a trace *)

(** The windows cut from the input, in order *)
Definition windows_of (tr : list event) : list (Z * Z) :=
  omap (λ e, match e with Window lo hi => Some (lo, hi) | _ => None end) tr.

(** The pastes into the output buffer, in order *)
Definition pastes_of (tr : list event) : list (Z * Z * Z * Z) :=
  omap (λ e, match e with Paste a b c d => Some (a, b, c, d) | _ => None end) tr.

(** The shapes of the inputs of the forward calls of one sub-module *)
Definition forward_calls (name : string) (tr : list event) : list (nat * nat) :=
  omap (λ e, match e with
             | Forward m b n => if String.eqb m name then Some (b, n) else None
             | _ => None
             end) tr.

(** The paste writes output index [j]. *)
Definition covers (j : Z) (p : Z * Z * Z * Z) : Prop :=
  p.1.1.1 ≤ j < p.1.1.2.

Global Instance covers_dec j p : Decision (covers j p).
Proof. unfold covers. apply _. Defined.

(** How many times output index [j] is written *)
Definition writes (j : Z) (tr : list event) : nat :=
  length (filter (covers j) (pastes_of tr)).

(** A window cut from the input *)
Definition is_window (e : event) : Prop :=
  match e with Window _ _ => True | _ => False end.

(** A forward call of a sub-module *)
Definition is_forward (e : event) : Prop :=
  match e with Forward _ _ _ => True | _ => False end.

(** Every paste stays inside an output of length [Y], and every index of
    the output is written at least once. *)
Definition covered (Y : Z) (tr : list event) : Prop :=
  Forall (λ p, 0 ≤ p.1.1.1 ∧ p.1.1.1 < p.1.1.2 ∧ p.1.1.2 ≤ Y) (pastes_of tr)
  ∧ ∀ j, 0 ≤ j < Y → (1 ≤ writes j tr)%nat.

(** Every index of the output is written exactly once. *)
Definition written_once (Y : Z) (tr : list event) : Prop :=
  ∀ j, 0 ≤ j < Y → writes j tr = 1%nat.

(** ** Configuration keys *)

(** The first required key that is absent or [None], in the order the
    function checks them *)
Definition first_missing (config ae_config : gmap string pyval) : option string :=
  if is_none (dict_get ae_config "latent_dim" PNone) then Some "latent_dim"
  else if is_none (dict_get ae_config "downsampling_ratio" PNone)
       then Some "downsampling_ratio"
  else if is_none (dict_get ae_config "io_channels" PNone) then Some "io_channels"
  else if is_none (dict_get config "sample_rate" PNone) then Some "sample_rate"
  else None.

(** ** A small codec for examples

    Frames are integers.  The encoder keeps one frame out of [r], the
    decoder repeats every frame [r] times. *)
Module toy.
Global Instance Z_frame : Frame Z := {| zeros := λ _, 0; tanh := λ x, x |}.

Definition downsample (r : nat) (t : tensor Z) : tensor Z :=
  Tensor (shape0 t) (shape2 t / r)
    ((λ row, (λ k, default 0 (row !! (k * r)%nat)) <$> seq 0 (length row / r)) <$> data t).

Definition upsample (r : nat) (t : tensor Z) : tensor Z :=
  Tensor (shape0 t) (shape2 t * r)
    ((λ row, (λ k, default 0 (row !! (k / r)%nat)) <$> seq 0 (length row * r)) <$> data t).

Definition codec (r : nat) : AudioAutoencoder Z :=
  {| encoder := Some (downsample r);
     decoder := Some (λ _, upsample r);
     latent_dim := 1;
     downsampling_ratio := Z.of_nat r;
     io_channels := 1;
     out_channels := 1;
     bottleneck := None;
     pretransform := None;
     soft_clip := false |}.

(** [b] items, each the ramp 0, 1, ..., n - 1 *)
Definition ramp (b n : nat) : tensor Z :=
  Tensor b n (replicate b (seqZ 0 (Z.of_nat n))).
End toy.

(** A model whose decoder reads a keyword argument: it multiplies every
    frame by [gain], 1 when the keyword is absent. *)
Module toy_gain.
Definition gain (kw : kwargs) : Z :=
  match kw !! "gain" with Some (PInt g) => g | _ => 1 end.

Definition scale (kw : kwargs) (t : tensor Z) : tensor Z :=
  Tensor (shape0 t) (shape2 t) ((λ row : list Z, (λ v, v * gain kw) <$> row) <$> data t).

Definition codec : AudioAutoencoder Z :=
  {| encoder := None;
     decoder := Some scale;
     latent_dim := 1;
     downsampling_ratio := 1;
     io_channels := 1;
     out_channels := 1;
     bottleneck := None;
     pretransform := None;
     soft_clip := false |}.
End toy_gain.

(** A diffusion autoencoder over the example codec: the sampler returns
    its conditioning, the noise is silent, the interpolation repeats
    frames. *)
Module toy_diffusion.
Definition model (r : nat) (with_decoder : bool) : DiffusionAutoencoder.t Z :=
  {| DiffusionAutoencoder.base :=
       {| encoder := Some (toy.downsample r);
          decoder := if with_decoder then Some (λ _, toy.upsample r) else None;
          latent_dim := 1;
          downsampling_ratio := Z.of_nat r;
          io_channels := 1;
          out_channels := 1;
          bottleneck := None;
          pretransform := None;
          soft_clip := false |};
     DiffusionAutoencoder.sample := λ noise steps cond, cond;
     DiffusionAutoencoder.randn := λ b c n, torch_zeros b c (Z.to_nat n);
     DiffusionAutoencoder.interpolate := λ t n, toy.upsample (Z.to_nat n / shape2 t) t |}.
End toy_diffusion.

(** An example configuration and stand-ins for the constructors: a
    module is represented by its class name. *)
Module toy_factory.
Definition new_module (cls : string) (kw : kwargs) : exn + string := inr cls.
Definition create_pretransform (cfg sample_rate : pyval) : M string :=
  _ ← tell (Construct "Pretransform"); mret "Pretransform".
Definition create_bottleneck (cfg : pyval) : M string :=
  _ ← tell (Construct "Bottleneck"); mret "Bottleneck".

Definition codec_config : pyval :=
  PDict {[ "type" := PStr "oobleck"; "config" := PDict ∅ ]}.

(** A model section without [latent_dim] *)
Definition model_config : gmap string pyval :=
  {[ "encoder" := codec_config; "decoder" := codec_config;
     "downsampling_ratio" := PInt 2048; "io_channels" := PInt 2 ]}.

Definition config : gmap string pyval :=
  {[ "model" := PDict model_config; "sample_rate" := PInt 44100 ]}.

Definition create (cfg : pyval) : M (autoencoder_args (Enc:=string) (Dec:=string)) :=
  create_autoencoder_from_config new_module new_module create_pretransform
    create_bottleneck cfg.
End toy_factory.

(** ** The classes behind the type tags of the factories *)

Definition encoder_class (tag : string) : option string :=
  if String.eqb tag "oobleck" then Some "OobleckEncoder"
  else if String.eqb tag "seanet" then Some "SEANetEncoder"
  else if String.eqb tag "dac" then Some "DACEncoderWrapper"
  else if String.eqb tag "local_attn" then Some "TransformerEncoder1D"
  else None.

Definition decoder_class (tag : string) : option string :=
  if String.eqb tag "oobleck" then Some "OobleckDecoder"
  else if String.eqb tag "seanet" then Some "SEANetDecoder"
  else if String.eqb tag "dac" then Some "DACDecoderWrapper"
  else if String.eqb tag "local_attn" then Some "TransformerDecoder1D"
  else None.

(** A configuration with every required key, a pretransform and a
    bottleneck, for examples *)
Module toy_factory_complete.
Definition model_config : gmap string pyval :=
  <["latent_dim" := PInt 64]>
    (<["pretransform" := PDict ∅]>
       (<["bottleneck" := PDict ∅]> toy_factory.model_config)).

Definition config : gmap string pyval :=
  <["model" := PDict model_config]> toy_factory.config.
End toy_factory_complete.

(** ** Audio prepared for the encoder *)

(** The length of an item: the size of its last axis *)
Definition nd_length {A} (t : ndarray A) : Z :=
  from_option Z.of_nat 0 (last (nd_shape t)).

(** The sample rates of the items, [in_sr_list] being an integer or a
    list *)
Definition sample_rates (batch_size : nat) (in_sr_list : Z + list Z) : list Z :=
  match in_sr_list with
  | inl sr => replicate batch_size sr
  | inr l => l
  end.

(** Stand-ins for the resampler and for [prepare_audio]: the first
    leaves the audio as it is, the second returns silence of the shape
    asked for. *)
Module toy_preprocess.
Definition resample (in_sr target_sr : Z) (audio : ndarray Z) : ndarray Z := audio.

Definition prepare_audio (audio : ndarray Z) (in_sr target_sr target_length
    target_channels : Z) : ndarray Z :=
  NdArray [1%nat; Z.to_nat target_channels; Z.to_nat target_length]
    (replicate (Z.to_nat target_channels * Z.to_nat target_length) 0).

Definition format : encoder_input_format :=
  {| sample_rate := 44100; min_length := 4; in_channels := 2 |}.

(** A stereo item of 5 samples, a mono item of 7 without its channel
    axis *)
Definition audio_list : list (ndarray Z) :=
  [NdArray [2%nat; 5%nat] (replicate 10 1); NdArray [7%nat] (replicate 7 1)].
End toy_preprocess.

(** The shapes the method accepts for an item: (length), (channels,
    length) or (1, channels, length) *)
Definition accepted_shape (shape : list nat) : Prop :=
  length shape = 1%nat ∨ length shape = 2%nat
  ∨ (length shape = 3%nat ∧ shape !! 0%nat = Some 1%nat).

(** The wrapper class behind a diffusion type tag *)
Definition diffusion_class (tag : string) : option string :=
  if String.eqb tag "DAU1d" then Some "DAU1DCondWrapper"
  else if String.eqb tag "adp_1d" then Some "UNet1DCondWrapper"
  else if String.eqb tag "dit" then Some "DiTWrapper"
  else None.

(** A configuration of a diffusion autoencoder without encoder and
    decoder, and the same with a diffusion type the factory does not
    know *)
Module toy_diffusion_factory.
Definition diffusion_config (tag : string) : pyval :=
  PDict {[ "type" := PStr tag; "config" := PDict ∅ ]}.

Definition model_config (tag : string) : gmap string pyval :=
  {[ "diffusion" := diffusion_config tag; "latent_dim" := PInt 64;
     "downsampling_ratio" := PInt 2048; "io_channels" := PInt 2 ]}.

Definition config (tag : string) : gmap string pyval :=
  {[ "model" := PDict (model_config tag); "sample_rate" := PInt 44100 ]}.

Definition np_prod (v : pyval) : M pyval := mret v.

Definition create (cfg : pyval)
    : M (diffusion_autoencoder_args (Enc:=string) (Dec:=string) (Dif:=string)) :=
  create_diffAE_from_config toy_factory.new_module toy_factory.new_module
    toy_factory.create_pretransform toy_factory.create_bottleneck
    toy_factory.new_module np_prod cfg.
End toy_diffusion_factory.

(** The product of the strides, as [np.prod] computes it on small
    integers *)
Definition product (l : list Z) : Z := foldr Z.mul 1 l.

(** The strides the encoder and the decoder use: one per channel
    multiplier *)
Definition used_strides (c_mults strides : list Z) : list Z :=
  take (length c_mults) strides.

(** The paddings a padding mode accepts on an input of [L] frames:
    any with zeros and replicate, shorter than the input with reflect,
    not longer than the input with circular *)
Definition padding_fits (padding_mode : PaddingMode) (padding L : Z) : Prop :=
  match padding_mode with
  | Zeros | Replicate => True
  | Reflect => padding < L
  | Circular => padding ≤ L
  end.

(** The computation raises a [RuntimeError] *)
Definition rejects {A} (m : M A) : Prop :=
  ∃ msg, result m = inl (RuntimeError msg).

(** A stand-in for EnCodec's causal layers, which the statements below
    do not use *)
Definition no_causal_layer (kernel_size stride : Z) : layer :=
  λ _, raise (RuntimeError "causal layers are not available").

(** Two named inputs of a [MultiDiscriminator], for examples *)
Module toy_discriminator.
Definition keys : list string := ["reals"; "fakes"].

Definition inputs : gmap string (tensor Z) :=
  {[ "reals" := toy.ramp 2 4; "fakes" := Tensor 2 4 [[9; 9; 9; 9]; [7; 7; 7; 7]] ]}.

Definition features : list (gmap string Z) :=
  [ {[ "reals" := 1; "fakes" := 2 ]}; {[ "reals" := 3 ]}; {[ "fakes" := 4; "reals" := 5 ]} ].
End toy_discriminator.

(** A dictionary of tensors, as a dictionary whose values are tensors
    or lists of tensors *)
Definition tensor_dict {T} (d : gmap string T) : gmap string (T + list T) :=
  inl <$> d.

(** * Properties *)

(** ** Running computations *)

Lemma bind_inr {A B} (m : M A) (f : A → M B) a l :
  m = (inr a, l) → m ≫= f = ((f a).1, l ++ (f a).2).
Proof. intros ->. unfold mbind, M_bind, bind. by destruct (f a). Qed.

Lemma bind_ret {A B} (a : A) (f : A → M B) : mret a ≫= f = f a.
Proof. unfold mbind, mret, M_bind, M_ret, bind, ret. by destruct (f a). Qed.

Lemma bind_tell {B} ev (f : unit → M B) :
  tell ev ≫= f = ((f tt).1, ev :: (f tt).2).
Proof. by rewrite (bind_inr _ _ tt [ev]). Qed.

(** A loop whose body always returns and leaves a trace that depends on
    the element only *)
Lemma mapM_run {A B} (f : A → M B) (g : A → B) (tr : A → list event) xs :
  (∀ x, x ∈ xs → f x = (inr (g x), tr x)) →
  mapM f xs = (inr (g <$> xs), concat (tr <$> xs)).
Proof.
  induction xs as [|x xs IH]; intros Hf; [done|]. simpl.
  rewrite (bind_inr _ _ (g x) (tr x)) by (apply Hf; left).
  rewrite (bind_inr _ _ (g <$> xs) (concat (tr <$> xs)))
    by (apply IH; intros; apply Hf; by right).
  simpl. by rewrite app_nil_r.
Qed.

(** A loop with an invariant on its state *)
Lemma foldM_run {A S} (body : A → S → M S) (P : S → Prop) (tr : A → list event) xs s :
  P s →
  (∀ x s, x ∈ xs → P s → ∃ s', body x s = (inr s', tr x) ∧ P s') →
  ∃ s', foldM body xs s = (inr s', concat (tr <$> xs)) ∧ P s'.
Proof.
  revert s. induction xs as [|x xs IH]; intros s Hs Hbody; simpl.
  - by exists s.
  - destruct (Hbody x s) as (s1 & Hrun & Hs1); [left|done|].
    destruct (IH s1 Hs1) as (s2 & Hrun2 & Hs2).
    { intros; apply Hbody; [by right|done]. }
    exists s2. split; [|done].
    by rewrite (bind_inr _ _ _ _ Hrun), Hrun2.
Qed.

(** ** Ranges and slices *)

Lemma py_range_pos stop step :
  0 < step → 0 ≤ stop →
  py_range 0 (stop + 1) step = mret ((λ k, k * step) <$> seqZ 0 (stop / step + 1)).
Proof.
  intros Hstep Hstop. unfold py_range, range_len.
  destruct (Z.eqb_spec step 0); [lia|].
  destruct (Z.ltb_spec 0 step); [|lia].
  replace (stop + 1 - 0 + step - 1) with (stop + 1 * step) by lia.
  rewrite Z.div_add by lia.
  pose proof (Z.div_pos stop step).
  rewrite Z.max_r by lia. done.
Qed.

Lemma py_range_empty stop step :
  0 < step → stop ≤ 0 → py_range 0 stop step = mret [].
Proof.
  intros Hstep Hstop. unfold py_range, range_len.
  destruct (Z.eqb_spec step 0); [lia|].
  destruct (Z.ltb_spec 0 step); [|lia].
  assert ((stop - 0 + step - 1) / step ≤ 0).
  { assert ((stop - 0 + step - 1) / step < 1); [|lia].
    apply Z.div_lt_upper_bound; lia. }
  rewrite Z.max_l by lia. by rewrite seqZ_nil.
Qed.

Lemma slice_bounds_in len (lo hi : Z) :
  0 ≤ lo ≤ hi → hi ≤ Z.of_nat len →
  slice_bounds len (Some lo) (Some hi) = (Z.to_nat lo, Z.to_nat hi).
Proof.
  intros Hlo Hhi. unfold slice_bounds, slice_index.
  destruct (Z.ltb_spec lo 0), (Z.ltb_spec hi 0); try lia.
  f_equal; f_equal; lia.
Qed.

Lemma slice_bounds_tail len (c : Z) :
  0 < c ≤ Z.of_nat len →
  slice_bounds len (Some (- c)) None = (Z.to_nat (Z.of_nat len - c), len).
Proof.
  intros Hc. unfold slice_bounds, slice_index.
  destruct (Z.ltb_spec (- c) 0); [|lia].
  f_equal; [f_equal|]; lia.
Qed.

Lemma concat_fmap_singleton {A B} (f : A → B) (xs : list A) :
  concat ((λ x, [f x]) <$> xs) = f <$> xs.
Proof. induction xs as [|x xs IH]; csimpl; [done|]. by rewrite IH. Qed.

Lemma last_seqZ m n : 0 < n → last (seqZ m n) = Some (m + n - 1).
Proof.
  intros Hn. replace n with ((n - 1) + 1) at 1 by lia.
  rewrite seqZ_app by lia.
  rewrite (seqZ_cons _ 1), (seqZ_nil _ (Z.pred 1)) by lia.
  rewrite last_snoc. f_equal; lia.
Qed.

(** ** The windows *)

Lemma window_starts_bounds total chunk hop s :
  0 < hop → 0 < chunk ≤ total →
  s ∈ window_starts total chunk hop → 0 ≤ s ∧ s + chunk ≤ total.
Proof.
  intros Hhop Hc. unfold window_starts.
  pose proof (Z.mul_div_le (total - chunk) hop Hhop) as Hq.
  pose proof (Z.div_pos (total - chunk) hop) as Hq0.
  rewrite elem_of_app, list_elem_of_fmap.
  intros [(k & -> & Hk)|Hs].
  - apply elem_of_seqZ in Hk. nia.
  - case_bool_decide; [|by apply elem_of_nil in Hs].
    apply list_elem_of_singleton in Hs as ->. lia.
Qed.

Lemma window_starts_length total chunk hop :
  0 < hop → 0 < chunk ≤ total →
  Z.of_nat (length (window_starts total chunk hop)) =
    (total - chunk) / hop + 1
    + (if bool_decide ((total - chunk) / hop * hop + chunk ≠ total) then 1 else 0).
Proof.
  intros Hhop Hc. unfold window_starts.
  pose proof (Z.div_pos (total - chunk) hop).
  rewrite length_app, length_fmap, length_seqZ.
  case_bool_decide; simpl; lia.
Qed.

Section windows.
Context {A : Type} `{!Frame A}.
Implicit Types audio : tensor A.

Lemma get_window_in audio (lo hi : Z) :
  0 ≤ lo ≤ hi → hi ≤ Z.of_nat (shape2 audio) →
  get_window audio (Some lo) (Some hi)
  = (inr (slice2 audio (Some lo) (Some hi)), [Window lo hi]).
Proof.
  intros Hlo Hhi. unfold get_window.
  rewrite slice_bounds_in by done.
  rewrite bind_tell. simpl. by rewrite !Z2Nat.id by lia.
Qed.

Lemma slice2_tail audio (c : Z) :
  0 < c ≤ Z.of_nat (shape2 audio) →
  slice2 audio (Some (- c)) None
  = slice2 audio (Some (Z.of_nat (shape2 audio) - c)) (Some (Z.of_nat (shape2 audio))).
Proof.
  intros Hc. unfold slice2.
  rewrite slice_bounds_tail, slice_bounds_in by lia.
  by rewrite Nat2Z.id.
Qed.

Lemma get_window_tail audio (c : Z) :
  let total := Z.of_nat (shape2 audio) in
  0 < c ≤ total →
  get_window audio (Some (- c)) None
  = (inr (slice2 audio (Some (total - c)) (Some (total - c + c))),
     [Window (total - c) (total - c + c)]).
Proof.
  intros total Hc. unfold get_window.
  rewrite slice_bounds_tail by done.
  rewrite bind_tell. simpl. rewrite slice2_tail by done.
  replace (total - c + c) with total by lia.
  by rewrite Z2Nat.id by lia.
Qed.

(** The window loop on valid parameters: it returns the windows at
    [window_starts], each of the full length. *)
Lemma collect_chunks_run audio (chunk hop : Z) :
  let total := Z.of_nat (shape2 audio) in
  0 < hop → 0 < chunk ≤ total →
  collect_chunks audio total chunk hop
  = (inr ((λ s, slice2 audio (Some s) (Some (s + chunk))) <$> window_starts total chunk hop),
     (λ s, Window s (s + chunk)) <$> window_starts total chunk hop).
Proof.
  intros total Hhop Hc. unfold collect_chunks, window_starts.
  set (q := (total - chunk) / hop).
  assert (0 ≤ q) as Hq0 by (apply Z.div_pos; lia).
  pose proof (Z.mul_div_le (total - chunk) hop Hhop) as Hq. fold q in Hq.
  rewrite py_range_pos, bind_ret by lia. fold q.
  set (starts := (λ k, k * hop) <$> seqZ 0 (q + 1)).
  assert (∀ s, s ∈ starts → 0 ≤ s ∧ s + chunk ≤ total) as Hstarts.
  { intros s (k & -> & Hk)%list_elem_of_fmap. apply elem_of_seqZ in Hk. nia. }
  rewrite (bind_inr _ _ ((λ s, slice2 audio (Some s) (Some (s + chunk))) <$> starts)
             (concat ((λ s, [Window s (s + chunk)]) <$> starts))).
  2:{ apply mapM_run. intros s Hs. apply get_window_in; apply Hstarts in Hs; lia. }
  rewrite concat_fmap_singleton.
  assert (last starts = Some (q * hop)) as ->.
  { unfold starts. rewrite fmap_last, last_seqZ by lia. simpl. f_equal; lia. }
  rewrite bind_ret. rewrite !fmap_app.
  case_bool_decide as Hal.
  - rewrite get_window_tail by done.
    by rewrite (bind_inr _ _ _ _ eq_refl).
  - simpl. by rewrite !app_nil_r.
Qed.
End windows.

(** ** The paste plan *)

Lemma paste_plan_bounds n Y c hop ol i :
  tiling n Y c hop ol → 0 ≤ i < n →
  ∃ ts te cs ce, paste_plan n Y c hop ol i = (ts, te, cs, ce)
    ∧ 0 ≤ ts ∧ ts < te ∧ te ≤ Y ∧ 0 ≤ cs ∧ cs < ce ∧ ce ≤ c ∧ ce - cs = te - ts.
Proof.
  intros [Hn Hhop Hol Hov Hc Hfit Hreach] Hi.
  unfold paste_plan, trim_edges.
  assert (i = n - 1 ∨ i ≤ n - 2) as [->|Hlast] by lia.
  - rewrite !bool_decide_eq_true_2 by done.
    destruct (Z.ltb_spec 0 (n - 1)), (Z.ltb_spec (n - 1) (n - 1)); try lia;
      eexists _, _, _, _; (split; [reflexivity|]); lia.
  - rewrite !bool_decide_eq_false_2 by lia.
    specialize (Hfit i ltac:(lia)).
    destruct (Z.ltb_spec 0 i), (Z.ltb_spec i (n - 1)); try lia;
      eexists _, _, _, _; (split; [reflexivity|]); nia.
Qed.

(** Every output index lies in the target range of some chunk. *)
Lemma paste_plan_covers n Y c hop ol j :
  tiling n Y c hop ol → 0 ≤ j < Y →
  ∃ i ts te cs ce, 0 ≤ i < n ∧ paste_plan n Y c hop ol i = (ts, te, cs, ce)
    ∧ ts ≤ j < te.
Proof.
  intros [Hn Hhop Hol Hov Hc Hfit Hreach] Hj.
  unfold paste_plan, trim_edges.
  destruct (decide (n = 1)) as [->|Hn1].
  { exists 0. rewrite !bool_decide_eq_true_2 by done. simpl.
    eexists _, _, _, _. split; [lia|]. split; [reflexivity|]. lia. }
  destruct (decide (j < c - ol)) as [Hfirst|Hrest].
  { exists 0. rewrite !bool_decide_eq_false_2 by lia.
    destruct (Z.ltb_spec 0 (n - 1)); [|lia]. simpl.
    eexists _, _, _, _. split; [lia|]. split; [reflexivity|]. lia. }
  set (k := (j - ol) / hop).
  assert (k * hop ≤ j - ol < (k + 1) * hop) as Hk.
  { pose proof (Z.div_mod (j - ol) hop ltac:(lia)).
    pose proof (Z.mod_pos_bound (j - ol) hop Hhop). unfold k. lia. }
  assert (1 ≤ k) as Hk1 by nia.
  destruct (decide (k ≤ n - 2)) as [Hmid|Hend].
  - exists k. rewrite !bool_decide_eq_false_2 by lia.
    destruct (Z.ltb_spec 0 k), (Z.ltb_spec k (n - 1)); try lia.
    eexists _, _, _, _. split; [lia|]. split; [reflexivity|]. lia.
  - exists (n - 1). rewrite !bool_decide_eq_true_2 by done.
    destruct (Z.ltb_spec 0 (n - 1)), (Z.ltb_spec (n - 1) (n - 1)); try lia.
    eexists _, _, _, _. split; [lia|]. split; [reflexivity|]. nia.
Qed.

(** ** Tensor operations on valid ranges *)

Lemma result_trace {A} (m : M A) r : result m = r → m = (r, trace m).
Proof. intros <-. by destruct m. Qed.

Lemma slice_index_range len i d :
  0 ≤ d ≤ len → 0 ≤ slice_index len i d ≤ len.
Proof.
  intros Hd. unfold slice_index. destruct i as [i|]; [|done].
  destruct (Z.ltb_spec i 0); lia.
Qed.

Lemma slice_bounds_le len start stop :
  ((slice_bounds len start stop).1 ≤ (slice_bounds len start stop).2
   ∧ (slice_bounds len start stop).2 ≤ len)%nat.
Proof.
  unfold slice_bounds. simpl.
  pose proof (slice_index_range (Z.of_nat len) start 0 ltac:(lia)).
  pose proof (slice_index_range (Z.of_nat len) stop (Z.of_nat len) ltac:(lia)).
  lia.
Qed.

Section tensor_facts.
Context {A : Type} `{!Frame A}.
Implicit Types t x y : tensor A.

Lemma slice2_shape0 t start stop : shape0 (slice2 t start stop) = shape0 t.
Proof. unfold slice2. by destruct (slice_bounds _ _ _). Qed.

Lemma slice2_shape2 t (lo hi : Z) :
  0 ≤ lo ≤ hi → hi ≤ Z.of_nat (shape2 t) →
  Z.of_nat (shape2 (slice2 t (Some lo) (Some hi))) = hi - lo.
Proof. intros. unfold slice2. rewrite slice_bounds_in by done. simpl. lia. Qed.

Lemma slice2_wf t start stop : wf t → wf (slice2 t start stop).
Proof.
  intros [Hlen Hrows]. unfold slice2.
  pose proof (slice_bounds_le (shape2 t) start stop) as Hb.
  destruct (slice_bounds _ _ _) as [lo hi]. simpl in Hb.
  split; simpl; [by rewrite length_fmap|].
  apply Forall_fmap. eapply Forall_impl; [exact Hrows|].
  intros row Hrow. simpl in *. rewrite length_take, length_drop. lia.
Qed.

(** Slicing a whole row range returns the tensor. *)
Lemma slice2_full t :
  wf t → slice2 t (Some 0) (Some (Z.of_nat (shape2 t))) = t.
Proof.
  intros [Hlen Hrows]. unfold slice2. rewrite slice_bounds_in by lia.
  rewrite Nat2Z.id. simpl. destruct t as [b n rows]. simpl in *.
  f_equal; [lia|].
  rewrite <- (list_fmap_id rows) at 2. apply Forall_fmap_ext_1.
  eapply Forall_impl; [exact Hrows|]. intros row Hrow. simpl in Hrow |- *.
  rewrite drop_0. apply take_ge. lia.
Qed.

Lemma torch_stack_run (ts : list (tensor A)) b n :
  ts ≠ [] → Forall (λ u, shape0 u = b ∧ shape2 u = n) ts →
  torch_stack ts = mret ts.
Proof.
  intros Hne Hall. destruct ts as [|t rest]; [done|]. unfold torch_stack.
  apply Forall_cons in Hall as [[Hb Hn] Hrest].
  rewrite (proj2 (forallb_forall _ _)); [done|].
  intros u Hu. rewrite Forall_forall in Hrest.
  destruct (Hrest u) as [-> ->]; [by apply list_elem_of_In|].
  rewrite Hb, Hn, !Nat.eqb_refl. done.
Qed.

(** A paste between ranges of equal length inside both tensors succeeds
    and keeps the shape of the buffer. *)
Lemma paste_run y_final y_chunk (ts te cs ce : Z) :
  0 ≤ ts ≤ te → te ≤ Z.of_nat (shape2 y_final) →
  0 ≤ cs ≤ ce → ce ≤ Z.of_nat (shape2 y_chunk) →
  ce - cs = te - ts → shape0 y_chunk = shape0 y_final →
  ∃ y, paste y_final ts te y_chunk cs ce = (inr y, [Paste ts te cs ce])
       ∧ shape0 y = shape0 y_final ∧ shape2 y = shape2 y_final.
Proof.
  intros Hts Hte Hcs Hce Hlen Hb. unfold paste, setitem2.
  rewrite !slice_bounds_in by done.
  assert (shape2 (slice2 y_chunk (Some cs) (Some ce)) = (Z.to_nat te - Z.to_nat ts)%nat)
    as Hw.
  { pose proof (slice2_shape2 y_chunk cs ce Hcs Hce). lia. }
  rewrite slice2_shape0, Hb, Hw, !Nat.eqb_refl. cbn [orb andb].
  rewrite bind_ret, bind_tell. simpl.
  eexists. split; [by rewrite !Z2Nat.id by lia|done].
Qed.

(** Pasting a whole codec output over a whole fresh buffer gives the
    codec output. *)
Lemma paste_whole y_chunk b c n :
  wf y_chunk → shape0 y_chunk = b → shape2 y_chunk = n →
  paste (torch_zeros b c n) 0 (Z.of_nat n) y_chunk 0 (Z.of_nat n)
  = (inr y_chunk, [Paste 0 (Z.of_nat n) 0 (Z.of_nat n)]).
Proof.
  intros Hwf Hb Hn. unfold paste, setitem2. subst n.
  rewrite slice2_full by done.
  change (shape2 (torch_zeros b c (shape2 y_chunk))) with (shape2 y_chunk).
  change (shape0 (torch_zeros b c (shape2 y_chunk))) with b.
  rewrite !slice_bounds_in by lia.
  rewrite Hb, !Nat.eqb_refl, Nat2Z.id, Nat.sub_0_r, Nat.eqb_refl. cbn [orb andb].
  rewrite bind_ret, bind_tell. simpl. f_equal.
  destruct Hwf as [Hlen Hrows]. destruct y_chunk as [b' n rows]. simpl in *.
  subst b b'. unfold expand_rows. simpl.
  rewrite !Nat.eqb_refl, list_fmap_id. do 2 f_equal.
  induction rows as [|row rows IH]; simpl; [done|].
  apply Forall_cons in Hrows as [Hrow Hrows].
  rewrite IH by done. f_equal.
  rewrite drop_ge by (rewrite length_replicate; lia). by rewrite app_nil_r.
Qed.
End tensor_facts.

(** ** The tilings of the two functions *)

(** [encode_audio]: windows in samples, pastes in latent frames *)
Lemma encode_tiling (T cs ov R : Z) :
  0 < R → 0 ≤ ov < cs → cs * R ≤ T →
  tiling (Z.of_nat (length (window_starts T (cs * R) (cs * R - ov * R))))
         (T / R) cs (cs - ov) (ov / 2).
Proof.
  intros HR Hov HT.
  assert (0 < cs * R - ov * R) as Hhop by nia.
  rewrite window_starts_length by nia.
  set (hop := cs * R - ov * R) in *. set (q := (T - cs * R) / hop).
  assert (0 ≤ q) as Hq0 by (apply Z.div_pos; lia).
  pose proof (Z.mul_div_le (T - cs * R) hop Hhop) as Hq. fold q in Hq.
  assert (T - cs * R < hop * (q + 1)) as Hq'.
  { pose proof (Z.div_mod (T - cs * R) hop ltac:(lia)).
    pose proof (Z.mod_pos_bound (T - cs * R) hop Hhop). fold q in H. lia. }
  pose proof (Z.mul_div_le ov 2 ltac:(lia)).
  pose proof (Z.div_pos ov 2 ltac:(lia) ltac:(lia)).
  split; try lia.
  - case_bool_decide; lia.
  - apply Z.div_le_lower_bound; lia.
  - intros i Hi. apply Z.div_le_lower_bound; [lia|].
    assert (i ≤ q) by (case_bool_decide; lia). unfold hop in *. nia.
  - case_bool_decide as Hal.
    + assert (T / R < (q + 1) * (cs - ov) + cs); [|lia].
      apply Z.div_lt_upper_bound; [lia|]. unfold hop in *. nia.
    + replace T with ((q * (cs - ov) + cs) * R) by (unfold hop in *; nia).
      rewrite Z.div_mul by lia. lia.
Qed.

(** [decode_audio]: windows in latent frames, pastes in samples *)
Lemma decode_tiling (T cs ov R : Z) :
  0 < R → 0 ≤ ov < cs → cs ≤ T →
  tiling (Z.of_nat (length (window_starts T cs (cs - ov))))
         (T * R) (cs * R) ((cs - ov) * R) (ov / 2 * R).
Proof.
  intros HR Hov HT.
  rewrite window_starts_length by lia.
  set (hop := cs - ov) in *. set (q := (T - cs) / hop).
  assert (0 < hop) as Hhop by (unfold hop; lia).
  assert (0 ≤ q) as Hq0 by (apply Z.div_pos; lia).
  pose proof (Z.mul_div_le (T - cs) hop Hhop) as Hq. fold q in Hq.
  assert (T - cs < hop * (q + 1)) as Hq'.
  { pose proof (Z.div_mod (T - cs) hop ltac:(lia)).
    pose proof (Z.mod_pos_bound (T - cs) hop Hhop). fold q in H. lia. }
  pose proof (Z.mul_div_le ov 2 ltac:(lia)).
  pose proof (Z.div_pos ov 2 ltac:(lia) ltac:(lia)).
  split.
  - case_bool_decide; lia.
  - nia.
  - nia.
  - assert (2 * (ov / 2) * R ≤ ov * R) by nia. unfold hop. lia.
  - nia.
  - intros i Hi. assert (i ≤ q) by (case_bool_decide; lia).
    assert (i * hop + cs ≤ T) by nia. nia.
  - case_bool_decide as Hal.
    + assert (T ≤ (q + 1) * hop + cs) by lia. nia.
    + assert (T = q * hop + cs) by lia. nia.
Qed.

(** ** The chunked runs *)

Section chunked_runs.
Context {A : Type} `{!Frame A}.
Implicit Types self : AudioAutoencoder A.
Implicit Types audio latents x y : tensor A.

Lemma windows_at_lookup audio chunk starts i x :
  wf audio →
  (∀ s, s ∈ starts → 0 ≤ s ∧ s + chunk ≤ Z.of_nat (shape2 audio)) → 0 ≤ chunk →
  windows_at audio chunk starts !! i = Some x →
  wf x ∧ shape0 x = shape0 audio ∧ Z.of_nat (shape2 x) = chunk.
Proof.
  intros Hwf Hstarts Hchunk. unfold windows_at. rewrite list_lookup_fmap.
  destruct (starts !! i) as [s|] eqn:Hs; [|done]. intros [= <-].
  apply list_elem_of_lookup_2 in Hs. apply Hstarts in Hs.
  split; [by apply slice2_wf|]. split; [apply slice2_shape0|].
  rewrite slice2_shape2 by lia. lia.
Qed.

Lemma windows_at_stack audio chunk starts :
  wf audio →
  (∀ s, s ∈ starts → 0 ≤ s ∧ s + chunk ≤ Z.of_nat (shape2 audio)) → 0 ≤ chunk →
  starts ≠ [] →
  torch_stack (windows_at audio chunk starts) = mret (windows_at audio chunk starts).
Proof.
  intros Hwf Hstarts Hchunk Hne.
  apply (torch_stack_run _ (shape0 audio) (Z.to_nat chunk)).
  - unfold windows_at. by destruct starts.
  - apply Forall_lookup_2. intros i x Hx.
    destruct (windows_at_lookup _ _ _ _ _ Hwf Hstarts Hchunk Hx) as (_ & ? & ?).
    split; [done|lia].
Qed.

Lemma encode_audio_step_run self chunks (n Y cs ov i : Z) y_final x :
  let R := downsampling_ratio self in
  0 < R → encode_ratio_law self → tiling n Y cs (cs - ov) (ov / 2) →
  0 ≤ i < n → chunks !! Z.to_nat i = Some x →
  wf x → shape0 x = shape0 y_final → Z.of_nat (shape2 x) = cs * R →
  Z.of_nat (shape2 y_final) = Y →
  ∃ y, encode_audio_step self chunks n Y (cs * R - ov * R) (cs * R) (ov * R) R i y_final
       = (inr y, encode_step_trace self chunks n Y cs ov i)
       ∧ shape0 y = shape0 y_final ∧ shape2 y = shape2 y_final.
Proof.
  intros R HR Hlaw Htil Hi Hx Hwf Hb Hlen HY.
  unfold encode_audio_step, encode_step_trace, chunk_at.
  rewrite (list_lookup_total_correct _ _ _ Hx), Hx, bind_ret.
  destruct (Hlaw x Hwf) as (y_chunk & Hrun & Hwfy & Hby & Hleny).
  rewrite (bind_inr _ _ _ _ (result_trace _ _ Hrun)). simpl as_latents.
  rewrite bind_ret.
  fold R in Hleny. rewrite Hlen, Z.div_mul in Hleny by lia. rewrite Hleny.
  replace (i * (cs * R - ov * R)) with (i * (cs - ov) * R) by lia.
  rewrite !Z.div_mul by lia.
  destruct (paste_plan_bounds _ _ _ _ _ i Htil Hi)
    as (ts & te & c0 & c1 & Hplan & Hbounds).
  rewrite Hplan. unfold paste_plan in Hplan.
  assert (∀ a b : Z, (if bool_decide (i = n - 1) then (a, b) else (i * (cs - ov), i * (cs - ov) + cs))
           = (if bool_decide (i = n - 1) then a else i * (cs - ov),
              if bool_decide (i = n - 1) then b else i * (cs - ov) + cs)) as ->
    by (intros; by case_bool_decide).
  rewrite Hplan.
  destruct (paste_run y_final y_chunk ts te c0 c1) as (y & Hpaste & Hshape);
    [lia..|congruence|].
  exists y. split; [|done]. by rewrite Hpaste.
Qed.

Lemma encode_audio_chunked_run self audio (ov cs : Z) kw :
  let R := downsampling_ratio self in
  let total := Z.of_nat (shape2 audio) in
  wf audio → 0 < R → 0 ≤ ov < cs → cs * R ≤ total → encode_ratio_law self →
  ∃ y, encode_audio self audio true ov cs kw
       = (inr (Latents y), encode_audio_trace self audio ov cs)
       ∧ shape0 y = shape0 audio ∧ Z.of_nat (shape2 y) = total / R.
Proof.
  intros R total Hwf HR Hov Htotal Hlaw.
  unfold encode_audio, encode_audio_trace. cbv zeta. simpl negb. cbv iota.
  fold R total.
  assert (0 < cs * R - ov * R) as Hhop by nia.
  assert (0 < cs * R ≤ total) as Hchunk by nia.
  rewrite (bind_inr _ _ _ _ (collect_chunks_run audio _ _ Hhop Hchunk)). fold total.
  set (starts := window_starts total (cs * R) (cs * R - ov * R)).
  assert (∀ s, s ∈ starts → 0 ≤ s ∧ s + cs * R ≤ total) as Hstarts
    by (intros s; by apply window_starts_bounds).
  assert (starts ≠ []) as Hne.
  { intros Hnil. pose proof (window_starts_length total _ _ Hhop Hchunk) as Hl.
    fold starts in Hl. rewrite Hnil in Hl. simpl in Hl.
    pose proof (Z.div_pos (total - cs * R) (cs * R - ov * R)).
    case_bool_decide; lia. }
  fold (windows_at audio (cs * R) starts). cbn [fst snd].
  rewrite windows_at_stack, bind_ret by (done || lia).
  unfold floordiv. destruct (Z.eqb_spec R 0) as [|_]; [lia|]. rewrite bind_ret.
  pose proof (Z.div_pos total R ltac:(lia) HR) as HY.
  unfold zeros_buffer. destruct (Z.ltb_spec (total / R) 0) as [|_]; [lia|].
  rewrite bind_ret.
  set (chunks := windows_at audio (cs * R) starts).
  assert (length chunks = length starts) as Hlen
    by (unfold chunks, windows_at; by rewrite length_fmap).
  rewrite Hlen. set (n := Z.of_nat (length starts)).
  pose proof (encode_tiling total cs ov R HR Hov Htotal) as Htil.
  fold starts n in Htil.
  edestruct (foldM_run
    (encode_audio_step self chunks n (total / R) (cs * R - ov * R) (cs * R) (ov * R) R)
    (λ y, shape0 y = shape0 audio ∧ Z.of_nat (shape2 y) = total / R)
    (encode_step_trace self chunks n (total / R) cs ov)
    (seqZ 0 n) (torch_zeros (shape0 audio) (latent_dim self) (Z.to_nat (total / R))))
    as (y & Hrun & Hy0 & Hy2).
  { simpl. split; [done|lia]. }
  { intros i y Hi [Hy0 Hy2]. apply elem_of_seqZ in Hi.
    destruct (lookup_lt_is_Some_2 chunks (Z.to_nat i)) as [x Hx]; [lia|].
    destruct (windows_at_lookup _ _ _ _ _ Hwf Hstarts ltac:(lia) Hx) as (Hwfx & Hx0 & Hx2).
    destruct (encode_audio_step_run self chunks n (total / R) cs ov i y x)
      as (y' & Hstep & Hy0' & Hy2'); try done; [congruence|].
    exists y'. split; [done|]. split; congruence. }
  exists y. split; [|done].
  rewrite (bind_inr _ _ _ _ Hrun). simpl. by rewrite app_nil_r.
Qed.

Lemma decode_audio_step_run self chunks (n Y cs ov i : Z) y_final x :
  let R := downsampling_ratio self in
  0 < R → decode_ratio_law self →
  tiling n Y (cs * R) ((cs - ov) * R) (ov / 2 * R) →
  0 ≤ i < n → chunks !! Z.to_nat i = Some x →
  wf x → shape0 x = shape0 y_final → Z.of_nat (shape2 x) = cs →
  Z.of_nat (shape2 y_final) = Y →
  ∃ y, decode_audio_step self chunks n Y (cs - ov) cs ov R i y_final
       = (inr y, decode_step_trace self chunks n Y cs ov i)
       ∧ shape0 y = shape0 y_final ∧ shape2 y = shape2 y_final.
Proof.
  intros R HR Hlaw Htil Hi Hx Hwf Hb Hlen HY.
  unfold decode_audio_step, decode_step_trace, chunk_at.
  rewrite (list_lookup_total_correct _ _ _ Hx), Hx, bind_ret.
  destruct (Hlaw x Hwf) as (y_chunk & Hrun & Hwfy & Hby & Hleny).
  rewrite (bind_inr _ _ _ _ (result_trace _ _ Hrun)).
  fold R in Hleny |- *. rewrite Hlen in Hleny. rewrite Hleny.
  replace (i * (cs - ov) * R) with (i * ((cs - ov) * R)) by lia.
  destruct (paste_plan_bounds _ _ _ _ _ i Htil Hi)
    as (ts & te & c0 & c1 & Hplan & Hbounds).
  rewrite Hplan. unfold paste_plan in Hplan.
  assert (∀ a b : Z,
            (if bool_decide (i = n - 1) then (a, b)
             else (i * ((cs - ov) * R), i * ((cs - ov) * R) + cs * R))
            = (if bool_decide (i = n - 1) then a else i * ((cs - ov) * R),
               if bool_decide (i = n - 1) then b else i * ((cs - ov) * R) + cs * R)) as ->
    by (intros; by case_bool_decide).
  rewrite Hplan.
  destruct (paste_run y_final y_chunk ts te c0 c1) as (y & Hpaste & Hshape);
    [lia..|congruence|].
  exists y. split; [|done]. by rewrite Hpaste.
Qed.

Lemma decode_audio_chunked_run self latents (ov cs : Z) kw :
  let R := downsampling_ratio self in
  let total := Z.of_nat (shape2 latents) in
  wf latents → 0 < R → 0 ≤ ov < cs → cs ≤ total → decode_ratio_law self →
  ∃ y, decode_audio self latents true ov cs kw
       = (inr y, decode_audio_trace self latents ov cs)
       ∧ shape0 y = shape0 latents ∧ Z.of_nat (shape2 y) = total * R.
Proof.
  intros R total Hwf HR Hov Htotal Hlaw.
  unfold decode_audio, decode_audio_trace. cbv zeta. simpl negb. cbv iota.
  fold R total.
  assert (0 < cs - ov) as Hhop by lia.
  assert (0 < cs ≤ total) as Hchunk by lia.
  rewrite (bind_inr _ _ _ _ (collect_chunks_run latents _ _ Hhop Hchunk)). fold total.
  set (starts := window_starts total cs (cs - ov)).
  assert (∀ s, s ∈ starts → 0 ≤ s ∧ s + cs ≤ total) as Hstarts
    by (intros s; by apply window_starts_bounds).
  assert (starts ≠ []) as Hne.
  { intros Hnil. pose proof (window_starts_length total _ _ Hhop Hchunk) as Hl.
    fold starts in Hl. rewrite Hnil in Hl. simpl in Hl.
    pose proof (Z.div_pos (total - cs) (cs - ov)).
    case_bool_decide; lia. }
  fold (windows_at latents cs starts). cbn [fst snd].
  rewrite windows_at_stack, bind_ret by (done || lia).
  unfold zeros_buffer. destruct (Z.ltb_spec (total * R) 0) as [|_]; [nia|].
  rewrite bind_ret.
  set (chunks := windows_at latents cs starts).
  assert (length chunks = length starts) as Hlen
    by (unfold chunks, windows_at; by rewrite length_fmap).
  rewrite Hlen. set (n := Z.of_nat (length starts)).
  pose proof (decode_tiling total cs ov R HR Hov Htotal) as Htil.
  fold starts n in Htil.
  edestruct (foldM_run
    (decode_audio_step self chunks n (total * R) (cs - ov) cs ov R)
    (λ y, shape0 y = shape0 latents ∧ Z.of_nat (shape2 y) = total * R)
    (decode_step_trace self chunks n (total * R) cs ov)
    (seqZ 0 n) (torch_zeros (shape0 latents) (out_channels self) (Z.to_nat (total * R))))
    as (y & Hrun & Hy0 & Hy2).
  { simpl. split; [done|nia]. }
  { intros i y Hi [Hy0 Hy2]. apply elem_of_seqZ in Hi.
    destruct (lookup_lt_is_Some_2 chunks (Z.to_nat i)) as [x Hx]; [lia|].
    destruct (windows_at_lookup _ _ _ _ _ Hwf Hstarts ltac:(lia) Hx) as (Hwfx & Hx0 & Hx2).
    destruct (decode_audio_step_run self chunks n (total * R) cs ov i y x)
      as (y' & Hstep & Hy0' & Hy2'); try done; [congruence|].
    exists y'. split; [done|]. split; congruence. }
  exists y. split; [|done]. by rewrite Hrun.
Qed.
End chunked_runs.

(** ** The example codec obeys the codec laws *)

Lemma toy_ramp_wf b n : wf (toy.ramp b n).
Proof.
  split; simpl; [by rewrite length_replicate|].
  apply Forall_replicate. rewrite length_seqZ. lia.
Qed.

Lemma toy_codec_encode_law r : encode_ratio_law (toy.codec r).
Proof.
  intros x Hwf. exists (toy.downsample r x). split; [done|].
  split; [|split; [done|]].
  - destruct Hwf as [Hlen Hrows]. split; simpl; [by rewrite length_fmap|].
    apply Forall_fmap. eapply Forall_impl; [exact Hrows|]. intros row Hrow.
    simpl in Hrow |- *. by rewrite length_fmap, length_seq, Hrow.
  - simpl. apply Nat2Z.inj_div.
Qed.

Lemma toy_codec_decode_law r : decode_ratio_law (toy.codec r).
Proof.
  intros x Hwf. exists (toy.upsample r x). split; [done|].
  split; [|split; [done|]].
  - destruct Hwf as [Hlen Hrows]. split; simpl; [by rewrite length_fmap|].
    apply Forall_fmap. eapply Forall_impl; [exact Hrows|]. intros row Hrow.
    simpl in Hrow |- *. by rewrite length_fmap, length_seq, Hrow.
  - simpl. lia.
Qed.

(** ** The too-short input (C8) *)

Lemma last_window_starts total chunk hop :
  0 < hop → 0 < chunk ≤ total →
  last (window_starts total chunk hop) = Some (total - chunk).
Proof.
  intros Hhop Hc. unfold window_starts.
  pose proof (Z.div_pos (total - chunk) hop ltac:(lia) Hhop) as Hq.
  case_bool_decide as Hal.
  - by rewrite last_snoc.
  - rewrite app_nil_r, fmap_last, last_seqZ by lia. simpl. f_equal. lia.
Qed.

Lemma collect_chunks_short {A} `{!Frame A} (audio : tensor A) (total chunk hop : Z) :
  0 < hop → total < chunk →
  collect_chunks audio total chunk hop = (inl (UnboundLocalError "i"), []).
Proof.
  intros Hhop Hshort. unfold collect_chunks.
  rewrite py_range_empty by lia. by rewrite bind_ret.
Qed.

(** C8, as the code has it.  For [0 <= overlap < chunk_size] and an input
    shorter than one chunk, chunked [encode_audio] and [decode_audio]
    raise before any window is cut, any sub-module is called or anything
    is written: the range of the window loop is empty, and reading the
    loop variable [i] after it raises [UnboundLocalError]. *)
Theorem short_input_raises_unbound_i {A} `{!Frame A}
    (self : AudioAutoencoder A) (audio latents : tensor A)
    (overlap chunk_size : Z) (kw : kwargs) :
  0 < downsampling_ratio self → 0 ≤ overlap < chunk_size →
  Z.of_nat (shape2 audio) < chunk_size * downsampling_ratio self →
  Z.of_nat (shape2 latents) < chunk_size →
  encode_audio self audio true overlap chunk_size kw = (inl (UnboundLocalError "i"), [])
  ∧ decode_audio self latents true overlap chunk_size kw = (inl (UnboundLocalError "i"), []).
Proof.
  intros HR Hov Ha Hl. split.
  - unfold encode_audio. simpl negb. cbv iota zeta.
    by rewrite collect_chunks_short by nia.
  - unfold decode_audio. simpl negb. cbv iota zeta.
    by rewrite collect_chunks_short by lia.
Qed.

Lemma short_input_raises_unbound_i_witness :
  encode_audio (toy.codec 10) (toy.ramp 1 100) true 8 32 ∅
    = (inl (UnboundLocalError "i"), [])
  ∧ decode_audio (toy.codec 10) (toy.ramp 1 10) true 8 32 ∅
    = (inl (UnboundLocalError "i"), []).
Proof.
  apply (short_input_raises_unbound_i (toy.codec 10) (toy.ramp 1 100) (toy.ramp 1 10) 8 32 ∅);
    simpl; lia.
Defined.

(** C8, as stated, fails: on ten latent frames with [chunk_size = 32]
    and [overlap = 8] the error is not an assertion and names no
    precondition. *)
Lemma short_input_error_is_not_an_assertion :
  result (decode_audio (toy.codec 10) (toy.ramp 1 10) true 8 32 ∅)
    = inl (UnboundLocalError "i")
  ∧ ¬ ∃ msg, result (decode_audio (toy.codec 10) (toy.ramp 1 10) true 8 32 ∅)
             = inl (AssertionError msg).
Proof.
  split; [by vm_compute|]. intros [msg Hmsg]. vm_compute in Hmsg. discriminate.
Qed.

(** ** Counting the writes *)

Lemma filter_length_pos {X} (P : X → Prop) `{!∀ x, Decision (P x)} (l : list X) x :
  x ∈ l → P x → (1 ≤ length (filter P l))%nat.
Proof.
  intros Hx HP. assert (x ∈ filter P l) as Hin by (by apply list_elem_of_filter).
  destruct (filter P l); [by apply elem_of_nil in Hin|simpl; lia].
Qed.

Lemma filter_none {X} (P : X → Prop) `{!∀ x, Decision (P x)} (l : list X) :
  (∀ x, x ∈ l → ¬ P x) → filter P l = [].
Proof.
  induction l as [|a l IH]; intros Hl; [done|].
  rewrite filter_cons_False by (apply Hl; left).
  apply IH. intros x Hx. apply Hl. by right.
Qed.

(** Exactly one element of a duplicate-free list satisfies [P]. *)
Lemma filter_length_unique {X Y} (f : X → Y) (P : Y → Prop) `{!∀ y, Decision (P y)}
    (l : list X) x :
  NoDup l → x ∈ l → P (f x) → (∀ y, y ∈ l → P (f y) → y = x) →
  length (filter P (f <$> l)) = 1%nat.
Proof.
  induction l as [|a l IH]; intros Hnd Hx HP Huniq; [by apply elem_of_nil in Hx|].
  apply NoDup_cons in Hnd as [Ha Hnd]. rewrite fmap_cons.
  destruct (decide (P (f a))) as [HPa|HPa].
  - assert (a = x) as -> by (apply Huniq; [left|done]).
    rewrite filter_cons_True by done. simpl. f_equal.
    rewrite filter_none; [done|].
    intros y (z & -> & Hz)%list_elem_of_fmap HPz.
    apply Ha. rewrite <- (Huniq z); [done|by right|done].
  - rewrite filter_cons_False by done.
    apply IH; [done| |done|].
    + apply elem_of_cons in Hx as [->|Hx]; done.
    + intros y Hy. apply Huniq. by right.
Qed.

Lemma paste_plan_disjoint n Y c hop ol i i' j :
  exact_tiling n Y c hop ol → 0 ≤ i < i' → i' < n →
  covers j (paste_plan n Y c hop ol i) → ¬ covers j (paste_plan n Y c hop ol i').
Proof.
  intros ([Hn Hhop Hol Hov Hc Hfit Hreach] & Heven & Hal) Hi Hi'.
  unfold covers, paste_plan, trim_edges.
  rewrite (bool_decide_eq_false_2 (i = n - 1)) by lia.
  destruct (Z.ltb_spec i (n - 1)); [|lia].
  destruct (Z.ltb_spec 0 i'); [|lia].
  assert ((i + 1) * hop ≤ i' * hop) by nia.
  destruct (Z.ltb_spec 0 i), (Z.ltb_spec i' (n - 1)); simpl;
    case_bool_decide; simpl; nia.
Qed.

Section plan_counts.
Context (n Y c hop ol : Z).

Lemma plan_writes_in_bounds :
  tiling n Y c hop ol →
  Forall (λ p, 0 ≤ p.1.1.1 ∧ p.1.1.1 < p.1.1.2 ∧ p.1.1.2 ≤ Y)
         (paste_plan n Y c hop ol <$> seqZ 0 n).
Proof.
  intros Htil. apply Forall_fmap, Forall_seqZ. intros i Hi. simpl.
  destruct (paste_plan_bounds n Y c hop ol i Htil ltac:(lia))
    as (ts & te & c0 & c1 & -> & ?). simpl. lia.
Qed.

Lemma plan_writes_at_least_once j :
  tiling n Y c hop ol → 0 ≤ j < Y →
  (1 ≤ length (filter (covers j) (paste_plan n Y c hop ol <$> seqZ 0 n)))%nat.
Proof.
  intros Htil Hj.
  destruct (paste_plan_covers n Y c hop ol j Htil Hj)
    as (i & ts & te & c0 & c1 & Hi & Hplan & Hcov).
  apply (filter_length_pos _ _ (paste_plan n Y c hop ol i)).
  - apply list_elem_of_fmap. exists i. split; [done|]. apply elem_of_seqZ. lia.
  - unfold covers. by rewrite Hplan.
Qed.

Lemma plan_writes_exactly_once j :
  exact_tiling n Y c hop ol → 0 ≤ j < Y →
  length (filter (covers j) (paste_plan n Y c hop ol <$> seqZ 0 n)) = 1%nat.
Proof.
  intros Hex Hj. pose proof Hex as (Htil & _).
  destruct (paste_plan_covers n Y c hop ol j Htil Hj)
    as (i & ts & te & c0 & c1 & Hi & Hplan & Hcov).
  apply (filter_length_unique _ _ _ i).
  - apply NoDup_seqZ.
  - apply elem_of_seqZ. lia.
  - unfold covers. by rewrite Hplan.
  - intros i' Hi' Hcov'. apply elem_of_seqZ in Hi'.
    assert (covers j (paste_plan n Y c hop ol i)) as Hcovi
      by (unfold covers; by rewrite Hplan).
    destruct (Z.lt_trichotomy i i') as [Hlt|[Heq|Hgt]]; [|done|].
    + by destruct (paste_plan_disjoint n Y c hop ol i i' j Hex ltac:(lia) ltac:(lia) Hcovi).
    + by destruct (paste_plan_disjoint n Y c hop ol i' i j Hex ltac:(lia) ltac:(lia) Hcov').
Qed.
End plan_counts.

(** ** The traces of the chunked runs *)

Lemma pastes_of_forward tr : Forall is_forward tr → pastes_of tr = [].
Proof.
  induction 1 as [|e tr He _ IH]; [done|]. by destruct e.
Qed.

Lemma windows_of_forward tr : Forall is_forward tr → windows_of tr = [].
Proof.
  induction 1 as [|e tr He _ IH]; [done|]. by destruct e.
Qed.

Lemma pastes_of_app tr1 tr2 : pastes_of (tr1 ++ tr2) = pastes_of tr1 ++ pastes_of tr2.
Proof. apply omap_app. Qed.

Lemma windows_of_app tr1 tr2 : windows_of (tr1 ++ tr2) = windows_of tr1 ++ windows_of tr2.
Proof. apply omap_app. Qed.

Lemma forward_calls_app name tr1 tr2 :
  forward_calls name (tr1 ++ tr2) = forward_calls name tr1 ++ forward_calls name tr2.
Proof. apply omap_app. Qed.

Lemma pastes_of_windows {X} (f g : X → Z) (l : list X) :
  pastes_of ((λ x, Window (f x) (g x)) <$> l) = [].
Proof. induction l; [done|]. by rewrite fmap_cons. Qed.

Lemma windows_of_windows {X} (f g : X → Z) (l : list X) :
  windows_of ((λ x, Window (f x) (g x)) <$> l) = (λ x, (f x, g x)) <$> l.
Proof.
  induction l as [|x l IH]; [done|]. rewrite !fmap_cons.
  change (windows_of (Window (f x) (g x) :: ((λ x, Window (f x) (g x)) <$> l)))
    with ((f x, g x) :: windows_of ((λ x, Window (f x) (g x)) <$> l)).
  by rewrite IH.
Qed.

Lemma forward_calls_windows {X} name (f g : X → Z) (l : list X) :
  forward_calls name ((λ x, Window (f x) (g x)) <$> l) = [].
Proof. induction l; [done|]. by rewrite fmap_cons. Qed.

Lemma pastes_of_paste_event p : pastes_of [paste_event p] = [p].
Proof. by destruct p as [[[a b] c] d]. Qed.

Lemma windows_of_paste_event p : windows_of [paste_event p] = [].
Proof. by destruct p as [[[a b] c] d]. Qed.

Lemma forward_calls_paste_event name p : forward_calls name [paste_event p] = [].
Proof. by destruct p as [[[a b] c] d]. Qed.

(** A loop whose turns each make [k] forward calls and one paste *)
Lemma pastes_of_steps {X} (tr : X → list event) (plan : X → Z * Z * Z * Z) (l : list X) :
  (∀ x, x ∈ l → Forall is_forward (tr x)) →
  pastes_of (concat ((λ x, tr x ++ [paste_event (plan x)]) <$> l)) = plan <$> l.
Proof.
  induction l as [|x l IH]; intros Hfw; [done|].
  rewrite !fmap_cons. simpl. rewrite !pastes_of_app, pastes_of_paste_event.
  rewrite pastes_of_forward by (apply Hfw; left).
  rewrite IH; [done|]. intros; apply Hfw; by right.
Qed.

Lemma windows_of_steps {X} (tr : X → list event) (plan : X → Z * Z * Z * Z) (l : list X) :
  (∀ x, x ∈ l → Forall is_forward (tr x)) →
  windows_of (concat ((λ x, tr x ++ [paste_event (plan x)]) <$> l)) = [].
Proof.
  induction l as [|x l IH]; intros Hfw; [done|].
  rewrite !fmap_cons. simpl. rewrite !windows_of_app, windows_of_paste_event.
  rewrite windows_of_forward by (apply Hfw; left).
  rewrite IH; [done|]. intros; apply Hfw; by right.
Qed.

Lemma forward_calls_steps {X} name (tr : X → list event) (plan : X → Z * Z * Z * Z)
    (l : list X) :
  (∀ x, x ∈ l → length (forward_calls name (tr x)) = 1%nat) →
  length (forward_calls name (concat ((λ x, tr x ++ [paste_event (plan x)]) <$> l)))
  = length l.
Proof.
  induction l as [|x l IH]; intros Hfw; [done|].
  rewrite !fmap_cons. simpl. rewrite !forward_calls_app, forward_calls_paste_event.
  rewrite !length_app, Hfw by left. simpl.
  rewrite IH; [done|]. intros; apply Hfw; by right.
Qed.

Section codec_traces.
Context {A : Type} `{!Frame A}.
Implicit Types self : AudioAutoencoder A.

(** Whole-batch [encode] and [decode] leave forward calls only, one of
    them to the encoder or to the decoder. *)
Lemma encode_trace_forward self x kw :
  Forall is_forward (trace (encode self x false false false kw)).
Proof.
  unfold encode, forward.
  destruct (pretransform self) as [pt|], (encoder self) as [enc|],
    (bottleneck self) as [bn|]; simpl;
    try destruct (enable_grad pt); simpl; try destruct (bn_encode bn _ _); simpl;
    repeat constructor.
Qed.

Lemma decode_trace_forward self x kw :
  Forall is_forward (trace (decode self x false kw)).
Proof.
  unfold decode, forward.
  destruct (bottleneck self) as [bn|], (decoder self) as [dec|],
    (pretransform self) as [pt|]; simpl;
    try destruct (enable_grad pt); simpl; destruct (soft_clip self); simpl;
    repeat constructor.
Qed.

Lemma encode_trace_encoder_calls self enc x kw :
  encoder self = Some enc →
  length (forward_calls "encoder" (trace (encode self x false false false kw))) = 1%nat.
Proof.
  intros Henc. unfold encode, forward. rewrite Henc.
  destruct (pretransform self) as [pt|], (bottleneck self) as [bn|]; simpl;
    try destruct (enable_grad pt); simpl; try destruct (bn_encode bn _ _); done.
Qed.

Lemma decode_trace_decoder_calls self dec x kw :
  decoder self = Some dec →
  length (forward_calls "decoder" (trace (decode self x false kw))) = 1%nat.
Proof.
  intros Hdec. unfold decode, forward. rewrite Hdec.
  destruct (bottleneck self) as [bn|], (pretransform self) as [pt|]; simpl;
    try destruct (enable_grad pt); simpl; destruct (soft_clip self); done.
Qed.

Lemma pastes_of_encode_audio_trace self audio ov cs :
  let R := downsampling_ratio self in
  let total := Z.of_nat (shape2 audio) in
  let n := Z.of_nat (length (window_starts total (cs * R) (cs * R - ov * R))) in
  pastes_of (encode_audio_trace self audio ov cs)
  = paste_plan n (total / R) cs (cs - ov) (ov / 2) <$> seqZ 0 n.
Proof.
  intros R total n. unfold encode_audio_trace. fold R total n.
  rewrite pastes_of_app, pastes_of_windows. simpl.
  unfold encode_step_trace. apply pastes_of_steps.
  intros; apply encode_trace_forward.
Qed.

Lemma windows_of_encode_audio_trace self audio ov cs :
  let R := downsampling_ratio self in
  let total := Z.of_nat (shape2 audio) in
  windows_of (encode_audio_trace self audio ov cs)
  = (λ s, (s, s + cs * R)) <$> window_starts total (cs * R) (cs * R - ov * R).
Proof.
  intros R total. unfold encode_audio_trace. fold R total.
  rewrite windows_of_app, windows_of_windows.
  unfold encode_step_trace. rewrite windows_of_steps, app_nil_r; [done|].
  intros; apply encode_trace_forward.
Qed.

Lemma pastes_of_decode_audio_trace self latents ov cs :
  let R := downsampling_ratio self in
  let total := Z.of_nat (shape2 latents) in
  let n := Z.of_nat (length (window_starts total cs (cs - ov))) in
  pastes_of (decode_audio_trace self latents ov cs)
  = paste_plan n (total * R) (cs * R) ((cs - ov) * R) (ov / 2 * R) <$> seqZ 0 n.
Proof.
  intros R total n. unfold decode_audio_trace. fold R total n.
  rewrite pastes_of_app, pastes_of_windows. simpl.
  unfold decode_step_trace. fold R. apply pastes_of_steps.
  intros; apply decode_trace_forward.
Qed.

Lemma windows_of_decode_audio_trace self latents ov cs :
  let total := Z.of_nat (shape2 latents) in
  windows_of (decode_audio_trace self latents ov cs)
  = (λ s, (s, s + cs)) <$> window_starts total cs (cs - ov).
Proof.
  intros total. unfold decode_audio_trace. fold total.
  rewrite windows_of_app, windows_of_windows.
  unfold decode_step_trace. rewrite windows_of_steps, app_nil_r; [done|].
  intros; apply decode_trace_forward.
Qed.
End codec_traces.

(** ** The last window (C5) *)

Lemma trace_bind_Forall {X Y} (P : event → Prop) (m : M X) (f : X → M Y) :
  Forall P (trace m) → (∀ a, Forall P (trace (f a))) → Forall P (trace (m ≫= f)).
Proof.
  intros Hm Hf. destruct m as [[e|a] l]; [done|].
  rewrite (bind_inr _ _ a l) by done. unfold trace in *. simpl in *.
  apply Forall_app. split; [done|apply Hf].
Qed.

Lemma windows_of_no_window tr : Forall (λ e, ¬ is_window e) tr → windows_of tr = [].
Proof.
  induction 1 as [|e tr He _ IH]; [done|]. by destruct e.
Qed.

Lemma foldM_trace_Forall {X S} (P : event → Prop) (body : X → S → M S) xs s :
  (∀ x s, Forall P (trace (body x s))) → Forall P (trace (foldM body xs s)).
Proof.
  intros Hbody. revert s. induction xs as [|x xs IH]; intros s; simpl; [constructor|].
  apply trace_bind_Forall; [apply Hbody|apply IH].
Qed.

Section no_window.
Context {A : Type} `{!Frame A}.
Implicit Types self : AudioAutoencoder A.

Lemma paste_no_window (y_final y_chunk : tensor A) (ts te cs ce : Z) :
  Forall (λ e, ¬ is_window e) (trace (paste y_final ts te y_chunk cs ce)).
Proof.
  unfold paste. apply trace_bind_Forall.
  - unfold setitem2. destruct (slice_bounds _ _ _). case_match; constructor.
  - intros y. do 2 destruct (slice_bounds _ _ _).
    rewrite bind_tell. unfold trace. simpl. repeat constructor. by intros [].
Qed.

Lemma forward_only_no_window tr : Forall is_forward tr → Forall (λ e, ¬ is_window e) tr.
Proof.
  intros Hfw. eapply Forall_impl; [exact Hfw|]. intros e Hfwd Hwin. by destruct e.
Qed.

(** Whatever the codec does, the second loop cuts no window. *)
Lemma encode_audio_step_no_window self chunks (n Y hop c ov R i : Z) (y : tensor A) :
  Forall (λ e, ¬ is_window e) (trace (encode_audio_step self chunks n Y hop c ov R i y)).
Proof.
  unfold encode_audio_step. apply trace_bind_Forall.
  { unfold chunk_at. case_match; constructor. }
  intros x. apply trace_bind_Forall.
  { apply forward_only_no_window, encode_trace_forward. }
  intros e. apply trace_bind_Forall.
  { destruct e; constructor. }
  intros y_chunk. case_bool_decide; destruct (trim_edges _ _ _ _ _ _ _) as [[[? ?] ?] ?];
    apply paste_no_window.
Qed.

Lemma decode_audio_step_no_window self chunks (n Y hop c ov R i : Z) (y : tensor A) :
  Forall (λ e, ¬ is_window e) (trace (decode_audio_step self chunks n Y hop c ov R i y)).
Proof.
  unfold decode_audio_step. apply trace_bind_Forall.
  { unfold chunk_at. case_match; constructor. }
  intros x. apply trace_bind_Forall.
  { apply forward_only_no_window, decode_trace_forward. }
  intros y_chunk. case_bool_decide; destruct (trim_edges _ _ _ _ _ _ _) as [[[? ?] ?] ?];
    apply paste_no_window.
Qed.

Lemma torch_stack_no_window (ts : list (tensor A)) :
  Forall (λ e, ¬ is_window e) (trace (torch_stack ts)).
Proof. unfold torch_stack. repeat case_match; constructor. Qed.

(** The windows of chunked [encode_audio] and [decode_audio], for any
    codec: those of the first loop. *)
Lemma encode_audio_windows self (audio : tensor A) (ov cs : Z) kw :
  let R := downsampling_ratio self in
  let total := Z.of_nat (shape2 audio) in
  0 < R → 0 ≤ ov < cs → cs * R ≤ total →
  windows_of (trace (encode_audio self audio true ov cs kw))
  = (λ s, (s, s + cs * R)) <$> window_starts total (cs * R) (cs * R - ov * R).
Proof.
  intros R total HR Hov Htotal. unfold encode_audio. simpl negb. cbv iota zeta.
  fold R total.
  assert (0 < cs * R - ov * R) as Hhop by nia.
  assert (0 < cs * R ≤ total) as Hchunk by nia.
  rewrite (bind_inr _ _ _ _ (collect_chunks_run audio _ _ Hhop Hchunk)).
  unfold trace at 1. simpl. rewrite windows_of_app, windows_of_windows.
  rewrite windows_of_no_window; [by rewrite app_nil_r|].
  apply trace_bind_Forall; [apply torch_stack_no_window|]. intros chunks.
  apply trace_bind_Forall; [unfold floordiv; case_match; constructor|]. intros y_size.
  apply trace_bind_Forall; [unfold zeros_buffer; case_match; constructor|]. intros y_final.
  apply trace_bind_Forall; [|constructor].
  apply foldM_trace_Forall. intros; apply encode_audio_step_no_window.
Qed.

Lemma decode_audio_windows self (latents : tensor A) (ov cs : Z) kw :
  let total := Z.of_nat (shape2 latents) in
  0 ≤ ov < cs → cs ≤ total →
  windows_of (trace (decode_audio self latents true ov cs kw))
  = (λ s, (s, s + cs)) <$> window_starts total cs (cs - ov).
Proof.
  intros total Hov Htotal. unfold decode_audio. simpl negb. cbv iota zeta.
  fold total.
  assert (0 < cs - ov) as Hhop by lia.
  assert (0 < cs ≤ total) as Hchunk by lia.
  rewrite (bind_inr _ _ _ _ (collect_chunks_run latents _ _ Hhop Hchunk)).
  unfold trace at 1. simpl. rewrite windows_of_app, windows_of_windows.
  rewrite windows_of_no_window; [by rewrite app_nil_r|].
  apply trace_bind_Forall; [apply torch_stack_no_window|]. intros chunks.
  apply trace_bind_Forall; [unfold zeros_buffer; case_match; constructor|]. intros y_final.
  apply foldM_trace_Forall. intros; apply decode_audio_step_no_window.
Qed.
End no_window.

Lemma windows_last_full total chunk hop :
  0 < hop → 0 < chunk ≤ total →
  let ws := (λ s, (s, s + chunk)) <$> window_starts total chunk hop in
  last ws = Some (total - chunk, total)
  ∧ Forall (λ w, w.2 - w.1 = chunk ∧ 0 ≤ w.1 ∧ w.2 ≤ total) ws.
Proof.
  intros Hhop Hc ws. unfold ws. split.
  - rewrite fmap_last, last_window_starts by done. simpl. do 2 f_equal. lia.
  - apply Forall_fmap, Forall_forall. intros s Hs. simpl.
    apply (window_starts_bounds total chunk hop) in Hs; lia.
Qed.

Lemma collected_chunks {A} `{!Frame A} (audio : tensor A) (chunk hop : Z) :
  let total := Z.of_nat (shape2 audio) in
  let ws := (λ s, (s, s + chunk)) <$> window_starts total chunk hop in
  0 < hop → 0 < chunk ≤ total →
  ∃ chunks,
    collect_chunks audio total chunk hop = (inr chunks, (λ w, Window w.1 w.2) <$> ws)
    ∧ chunks = (λ w, slice2 audio (Some w.1) (Some w.2)) <$> ws
    ∧ last chunks = Some (slice2 audio (Some (total - chunk)) (Some total))
    ∧ Forall (λ c, Z.of_nat (shape2 c) = chunk ∧ shape0 c = shape0 audio) chunks.
Proof.
  intros total ws Hhop Hc.
  destruct (windows_last_full total chunk hop Hhop Hc) as [Hlast Hall].
  exists ((λ w, slice2 audio (Some w.1) (Some w.2)) <$> ws).
  subst ws total. split; [|split; [done|split]].
  - rewrite collect_chunks_run by done.
    by rewrite <- !list_fmap_compose.
  - by rewrite fmap_last, Hlast.
  - apply Forall_fmap. eapply Forall_impl; [exact Hall|].
    intros [lo hi] (Hlen & Hlo & Hhi). unfold compose. cbn [fst snd] in *. split.
    + rewrite slice2_shape2 by lia. lia.
    + apply slice2_shape0.
Qed.

(** C5.  For [0 <= overlap < chunk_size] and an input at least one chunk
    long, whatever the codec, every window chunked [encode_audio] cuts
    has the full chunk length ([chunk_size * R] samples) and lies inside
    the input, and the last one is [total_size - chunk, total_size): it
    ends exactly at the end of the input, on the hop grid if the grid
    ends there, else as the right-aligned window added after it.  The
    chunks the window loop returns are the slices of the input at these
    windows, in order, each of the full chunk length; the last chunk is
    the slice [audio[:, :, total_size - chunk : total_size]].  The same
    holds for [decode_audio], in latent frames. *)
Theorem last_window_ends_at_total_length {A} `{!Frame A} (self : AudioAutoencoder A)
    (audio latents : tensor A) (overlap chunk_size : Z) (kw : kwargs) :
  let R := downsampling_ratio self in
  let samples := Z.of_nat (shape2 audio) in
  let frames := Z.of_nat (shape2 latents) in
  let enc_windows := windows_of (trace (encode_audio self audio true overlap chunk_size kw)) in
  let dec_windows := windows_of (trace (decode_audio self latents true overlap chunk_size kw)) in
  0 < R → 0 ≤ overlap < chunk_size →
  chunk_size * R ≤ samples → chunk_size ≤ frames →
  (last enc_windows = Some (samples - chunk_size * R, samples)
   ∧ Forall (λ w, w.2 - w.1 = chunk_size * R ∧ 0 ≤ w.1 ∧ w.2 ≤ samples) enc_windows
   ∧ ∃ chunks,
       collect_chunks audio samples (chunk_size * R) (chunk_size * R - overlap * R)
       = (inr chunks, (λ w, Window w.1 w.2) <$> enc_windows)
       ∧ chunks = (λ w, slice2 audio (Some w.1) (Some w.2)) <$> enc_windows
       ∧ last chunks = Some (slice2 audio (Some (samples - chunk_size * R)) (Some samples))
       ∧ Forall (λ c, Z.of_nat (shape2 c) = chunk_size * R ∧ shape0 c = shape0 audio)
           chunks)
  ∧ (last dec_windows = Some (frames - chunk_size, frames)
     ∧ Forall (λ w, w.2 - w.1 = chunk_size ∧ 0 ≤ w.1 ∧ w.2 ≤ frames) dec_windows
     ∧ ∃ chunks,
         collect_chunks latents frames chunk_size (chunk_size - overlap)
         = (inr chunks, (λ w, Window w.1 w.2) <$> dec_windows)
         ∧ chunks = (λ w, slice2 latents (Some w.1) (Some w.2)) <$> dec_windows
         ∧ last chunks = Some (slice2 latents (Some (frames - chunk_size)) (Some frames))
         ∧ Forall (λ c, Z.of_nat (shape2 c) = chunk_size ∧ shape0 c = shape0 latents)
             chunks).
Proof.
  intros R samples frames enc_windows dec_windows HR Hov Hs Hf. split.
  - unfold enc_windows. rewrite encode_audio_windows by done.
    assert (0 < chunk_size * R - overlap * R) by nia.
    assert (0 < chunk_size * R ≤ samples) by nia.
    destruct (windows_last_full samples (chunk_size * R) (chunk_size * R - overlap * R))
      as [Hlast Hall]; [done..|].
    split; [done|]. split; [done|]. by apply collected_chunks.
  - unfold dec_windows. rewrite decode_audio_windows by done.
    destruct (windows_last_full frames chunk_size (chunk_size - overlap))
      as [Hlast Hall]; [lia..|].
    split; [done|]. split; [done|]. apply collected_chunks; lia.
Qed.

Lemma last_window_ends_at_total_length_witness :
  let audio := toy.ramp 1 1000 in
  let latents := toy.ramp 1 100 in
  let enc_windows :=
    windows_of (trace (encode_audio (toy.codec 10) audio true 8 32 ∅)) in
  let dec_windows :=
    windows_of (trace (decode_audio (toy.codec 10) latents true 8 32 ∅)) in
  (last enc_windows = Some (1000 - 32 * 10, 1000)
   ∧ Forall (λ w, w.2 - w.1 = 32 * 10 ∧ 0 ≤ w.1 ∧ w.2 ≤ 1000) enc_windows
   ∧ ∃ chunks,
       collect_chunks audio 1000 (32 * 10) (32 * 10 - 8 * 10)
       = (inr chunks, (λ w, Window w.1 w.2) <$> enc_windows)
       ∧ chunks = (λ w, slice2 audio (Some w.1) (Some w.2)) <$> enc_windows
       ∧ last chunks = Some (slice2 audio (Some (1000 - 32 * 10)) (Some 1000))
       ∧ Forall (λ c, Z.of_nat (shape2 c) = 32 * 10 ∧ shape0 c = shape0 audio) chunks)
  ∧ (last dec_windows = Some (100 - 32, 100)
     ∧ Forall (λ w, w.2 - w.1 = 32 ∧ 0 ≤ w.1 ∧ w.2 ≤ 100) dec_windows
     ∧ ∃ chunks,
         collect_chunks latents 100 32 (32 - 8)
         = (inr chunks, (λ w, Window w.1 w.2) <$> dec_windows)
         ∧ chunks = (λ w, slice2 latents (Some w.1) (Some w.2)) <$> dec_windows
         ∧ last chunks = Some (slice2 latents (Some (100 - 32)) (Some 100))
         ∧ Forall (λ c, Z.of_nat (shape2 c) = 32 ∧ shape0 c = shape0 latents) chunks).
Proof.
  apply (last_window_ends_at_total_length (toy.codec 10) (toy.ramp 1 1000) (toy.ramp 1 100)
           8 32 ∅); simpl; lia.
Defined.

(** ** Coverage of the output buffer (C1) *)

Lemma encode_exact_tiling (T cs ov R : Z) :
  0 < R → 0 ≤ ov < cs → cs * R ≤ T →
  ov mod 2 = 0 → (T - cs * R) mod (cs * R - ov * R) = 0 →
  exact_tiling (Z.of_nat (length (window_starts T (cs * R) (cs * R - ov * R))))
               (T / R) cs (cs - ov) (ov / 2).
Proof.
  intros HR Hov HT Heven Hal. split; [by apply encode_tiling|].
  assert (0 < cs * R - ov * R) as Hhop by nia.
  pose proof (Z.div_mod ov 2 ltac:(lia)) as Hov2.
  pose proof (Z.div_mod (T - cs * R) (cs * R - ov * R) ltac:(lia)) as Hq.
  rewrite window_starts_length by nia.
  set (q := (T - cs * R) / (cs * R - ov * R)) in *.
  rewrite bool_decide_eq_false_2 by lia.
  split; [lia|].
  replace T with ((q * (cs - ov) + cs) * R) by nia.
  rewrite Z.div_mul by lia. lia.
Qed.

Lemma decode_exact_tiling (T cs ov R : Z) :
  0 < R → 0 ≤ ov < cs → cs ≤ T →
  ov mod 2 = 0 → (T - cs) mod (cs - ov) = 0 →
  exact_tiling (Z.of_nat (length (window_starts T cs (cs - ov))))
               (T * R) (cs * R) ((cs - ov) * R) (ov / 2 * R).
Proof.
  intros HR Hov HT Heven Hal. split; [by apply decode_tiling|].
  pose proof (Z.div_mod ov 2 ltac:(lia)) as Hov2.
  pose proof (Z.div_mod (T - cs) (cs - ov) ltac:(lia)) as Hq.
  rewrite window_starts_length by lia.
  set (q := (T - cs) / (cs - ov)) in *.
  rewrite bool_decide_eq_false_2 by lia.
  split; nia.
Qed.

Section coverage.
Context {A : Type} `{!Frame A}.
Implicit Types self : AudioAutoencoder A.

Lemma encode_audio_covered self (audio : tensor A) (ov cs : Z) kw :
  let R := downsampling_ratio self in
  let total := Z.of_nat (shape2 audio) in
  let run := encode_audio self audio true ov cs kw in
  wf audio → 0 < R → 0 ≤ ov < cs → cs * R ≤ total → encode_ratio_law self →
  ∃ y, result run = inr (Latents y)
       ∧ Z.of_nat (shape2 y) = total / R
       ∧ covered (total / R) (trace run)
       ∧ (ov mod 2 = 0 → (total - cs * R) mod (cs * R - ov * R) = 0 →
          written_once (total / R) (trace run)).
Proof.
  intros R total run Hwf HR Hov Htotal Hlaw.
  destruct (encode_audio_chunked_run self audio ov cs kw Hwf HR Hov Htotal Hlaw)
    as (y & Hrun & _ & Hy2).
  pose proof (encode_tiling total cs ov R HR Hov Htotal) as Htil.
  exists y. unfold run. rewrite Hrun. unfold result, trace, covered, written_once, writes.
  simpl. rewrite pastes_of_encode_audio_trace. fold R total.
  split; [done|]. split; [done|]. split; [split|].
  - by apply plan_writes_in_bounds.
  - intros j Hj. by apply plan_writes_at_least_once.
  - intros Heven Hal j Hj. apply plan_writes_exactly_once; [|done].
    by apply encode_exact_tiling.
Qed.

Lemma decode_audio_covered self (latents : tensor A) (ov cs : Z) kw :
  let R := downsampling_ratio self in
  let total := Z.of_nat (shape2 latents) in
  let run := decode_audio self latents true ov cs kw in
  wf latents → 0 < R → 0 ≤ ov < cs → cs ≤ total → decode_ratio_law self →
  ∃ y, result run = inr y
       ∧ Z.of_nat (shape2 y) = total * R
       ∧ covered (total * R) (trace run)
       ∧ (ov mod 2 = 0 → (total - cs) mod (cs - ov) = 0 →
          written_once (total * R) (trace run)).
Proof.
  intros R total run Hwf HR Hov Htotal Hlaw.
  destruct (decode_audio_chunked_run self latents ov cs kw Hwf HR Hov Htotal Hlaw)
    as (y & Hrun & _ & Hy2).
  pose proof (decode_tiling total cs ov R HR Hov Htotal) as Htil.
  exists y. unfold run. rewrite Hrun. unfold result, trace, covered, written_once, writes.
  simpl. rewrite pastes_of_decode_audio_trace. fold R total.
  split; [done|]. split; [done|]. split; [split|].
  - by apply plan_writes_in_bounds.
  - intros j Hj. by apply plan_writes_at_least_once.
  - intros Heven Hal j Hj. apply plan_writes_exactly_once; [|done].
    by apply decode_exact_tiling.
Qed.
End coverage.

(** C1, as the code has it.  For [0 <= overlap < chunk_size] and an input
    at least one chunk long, with a codec that maps a length [T] to
    [T / R] (encode) or [T * R] (decode), chunked [encode_audio] and
    [decode_audio] return a buffer of the output length; every trimmed
    paste lies inside [0, output_length) and every output index is
    written at least once: there is no gap.  An index can be written more
    than once.  Every index is written exactly once when the overlap is
    even and the hop grid ends exactly at the end of the input, so that
    no right-aligned window is added. *)
Theorem stitching_covers_output {A} `{!Frame A} (self : AudioAutoencoder A)
    (audio latents : tensor A) (overlap chunk_size : Z) (kw : kwargs) :
  let R := downsampling_ratio self in
  let samples := Z.of_nat (shape2 audio) in
  let frames := Z.of_nat (shape2 latents) in
  let enc := encode_audio self audio true overlap chunk_size kw in
  let dec := decode_audio self latents true overlap chunk_size kw in
  wf audio → wf latents → 0 < R → 0 ≤ overlap < chunk_size →
  chunk_size * R ≤ samples → chunk_size ≤ frames →
  encode_ratio_law self → decode_ratio_law self →
  (∃ y, result enc = inr (Latents y)
        ∧ Z.of_nat (shape2 y) = samples / R
        ∧ covered (samples / R) (trace enc)
        ∧ (overlap mod 2 = 0 →
           (samples - chunk_size * R) mod (chunk_size * R - overlap * R) = 0 →
           written_once (samples / R) (trace enc)))
  ∧ (∃ y, result dec = inr y
          ∧ Z.of_nat (shape2 y) = frames * R
          ∧ covered (frames * R) (trace dec)
          ∧ (overlap mod 2 = 0 →
             (frames - chunk_size) mod (chunk_size - overlap) = 0 →
             written_once (frames * R) (trace dec))).
Proof.
  intros R samples frames enc dec Hwa Hwl HR Hov Hs Hf Hel Hdl. split.
  - by apply encode_audio_covered.
  - by apply decode_audio_covered.
Qed.

Lemma stitching_covers_output_witness :
  let enc := encode_audio (toy.codec 10) (toy.ramp 1 1000) true 8 32 ∅ in
  let dec := decode_audio (toy.codec 10) (toy.ramp 1 100) true 8 32 ∅ in
  (∃ y, result enc = inr (Latents y)
        ∧ Z.of_nat (shape2 y) = 1000 / 10
        ∧ covered (1000 / 10) (trace enc)
        ∧ (8 mod 2 = 0 → (1000 - 32 * 10) mod (32 * 10 - 8 * 10) = 0 →
           written_once (1000 / 10) (trace enc)))
  ∧ (∃ y, result dec = inr y
          ∧ Z.of_nat (shape2 y) = 100 * 10
          ∧ covered (100 * 10) (trace dec)
          ∧ (8 mod 2 = 0 → (100 - 32) mod (32 - 8) = 0 →
             written_once (100 * 10) (trace dec))).
Proof.
  apply (stitching_covers_output (toy.codec 10) (toy.ramp 1 1000) (toy.ramp 1 100) 8 32 ∅).
  - apply toy_ramp_wf.
  - apply toy_ramp_wf.
  - simpl; lia.
  - lia.
  - simpl; lia.
  - simpl; lia.
  - apply toy_codec_encode_law.
  - apply toy_codec_decode_law.
Defined.

(** C1, as stated, fails: with 1000 samples, [R = 10], [chunk_size = 32]
    and [overlap = 8], latent frame 72 is written by the third chunk and
    again by the right-aligned last chunk. *)
Lemma stitching_writes_an_index_twice :
  let tr := trace (encode_audio (toy.codec 10) (toy.ramp 1 1000) true 8 32 ∅) in
  writes 72 tr = 2%nat ∧ ¬ (∀ j, 0 ≤ j < 100 → writes j tr = 1%nat).
Proof.
  assert (writes 72 (trace (encode_audio (toy.codec 10) (toy.ramp 1 1000) true 8 32 ∅))
          = 2%nat) as H72 by (by vm_compute).
  split; [done|]. intros Hall. specialize (Hall 72 ltac:(lia)).
  rewrite H72 in Hall. discriminate.
Qed.

(** ** The codec calls of the chunked path (C2) *)

(** C2, as the code has it.  On valid parameters chunked [encode_audio]
    cuts and stacks all the windows first; then its second loop, for
    each chunk in turn, calls [self.encode] on that chunk alone and pastes
    the trimmed result.  The trace is the windows followed, chunk by chunk,
    by the forward calls of one [self.encode] and one paste; with an
    encoder present the encoder runs once per window.  [decode_audio] has
    the same structure with [self.decode] and the decoder. *)
Theorem codec_runs_once_per_chunk {A} `{!Frame A} (self : AudioAutoencoder A)
    (audio latents : tensor A) (overlap chunk_size : Z) (kw : kwargs) :
  let R := downsampling_ratio self in
  let enc := encode_audio self audio true overlap chunk_size kw in
  let dec := decode_audio self latents true overlap chunk_size kw in
  wf audio → wf latents → 0 < R → 0 ≤ overlap < chunk_size →
  chunk_size * R ≤ Z.of_nat (shape2 audio) → chunk_size ≤ Z.of_nat (shape2 latents) →
  encode_ratio_law self → decode_ratio_law self →
  (∃ y, enc = (inr (Latents y), encode_audio_trace self audio overlap chunk_size))
  ∧ (∀ f, encoder self = Some f →
      length (forward_calls "encoder" (trace enc)) = length (windows_of (trace enc)))
  ∧ (∃ y, dec = (inr y, decode_audio_trace self latents overlap chunk_size))
  ∧ (∀ f, decoder self = Some f →
      length (forward_calls "decoder" (trace dec)) = length (windows_of (trace dec))).
Proof.
  intros R enc dec Hwa Hwl HR Hov Hs Hf Hel Hdl.
  destruct (encode_audio_chunked_run self audio overlap chunk_size kw Hwa HR Hov Hs Hel)
    as (ye & He & _).
  destruct (decode_audio_chunked_run self latents overlap chunk_size kw Hwl HR Hov Hf Hdl)
    as (yd & Hd & _).
  unfold enc, dec. rewrite He, Hd. unfold trace. simpl.
  split; [by exists ye|]. split; [|split; [by exists yd|]].
  - intros f Henc. rewrite windows_of_encode_audio_trace.
    unfold encode_audio_trace. rewrite forward_calls_app, forward_calls_windows. simpl.
    unfold encode_step_trace. rewrite forward_calls_steps.
    + by rewrite length_seqZ, Nat2Z.id, length_fmap.
    + intros i _. by apply (encode_trace_encoder_calls self f).
  - intros f Hdec. rewrite windows_of_decode_audio_trace.
    unfold decode_audio_trace. rewrite forward_calls_app, forward_calls_windows. simpl.
    unfold decode_step_trace. rewrite forward_calls_steps.
    + by rewrite length_seqZ, Nat2Z.id, length_fmap.
    + intros i _. by apply (decode_trace_decoder_calls self f).
Qed.

Lemma codec_runs_once_per_chunk_witness :
  let self := toy.codec 10 in
  let enc := encode_audio self (toy.ramp 1 1000) true 8 32 ∅ in
  let dec := decode_audio self (toy.ramp 1 100) true 8 32 ∅ in
  (∃ y, enc = (inr (Latents y), encode_audio_trace self (toy.ramp 1 1000) 8 32))
  ∧ (∀ f, encoder self = Some f →
      length (forward_calls "encoder" (trace enc)) = length (windows_of (trace enc)))
  ∧ (∃ y, dec = (inr y, decode_audio_trace self (toy.ramp 1 100) 8 32))
  ∧ (∀ f, decoder self = Some f →
      length (forward_calls "decoder" (trace dec)) = length (windows_of (trace dec))).
Proof.
  apply (codec_runs_once_per_chunk (toy.codec 10) (toy.ramp 1 1000) (toy.ramp 1 100) 8 32 ∅).
  - apply toy_ramp_wf.
  - apply toy_ramp_wf.
  - simpl; lia.
  - lia.
  - simpl; lia.
  - simpl; lia.
  - apply toy_codec_encode_law.
  - apply toy_codec_decode_law.
Defined.

(** C2, as stated, fails: with 1000 samples, [R = 10], [chunk_size = 32]
    and [overlap = 8] the encoder runs four times, each time on one
    window of 320 samples of the one batch item, and each run is followed
    by the paste of its chunk. *)
Lemma encoder_is_called_per_chunk :
  let tr := trace (encode_audio (toy.codec 10) (toy.ramp 1 1000) true 8 32 ∅) in
  forward_calls "encoder" tr = [(1, 320); (1, 320); (1, 320); (1, 320)]%nat
  ∧ length (forward_calls "encoder" tr) ≠ 1%nat
  ∧ drop 4 tr = [Forward "encoder" 1 320; Paste 0 28 0 28;
                 Forward "encoder" 1 320; Paste 28 52 4 28;
                 Forward "encoder" 1 320; Paste 52 76 4 28;
                 Forward "encoder" 1 320; Paste 72 100 4 32].
Proof. by vm_compute. Qed.

(** ** The scenario of 1000 samples (C3) *)

(** C3, as the code has it.  For 1000 samples with [R = 10],
    [chunk_size = 32] and [overlap = 8], chunked [encode_audio] cuts four
    windows, at latent starts 0, 24 and 48 on the hop grid (a window at 72
    would end at 104, beyond the 100 frames) and the right-aligned one at
    68; the four trimmed pastes are [0, 28), [28, 52), [52, 76) and
    [72, 100): they cover [0, 100) without a gap, frames 72 to 75 being
    written twice. *)
Theorem scenario_1000_samples {A} `{!Frame A} (self : AudioAutoencoder A)
    (audio : tensor A) (kw : kwargs) :
  let run := encode_audio self audio true 8 32 kw in
  wf audio → shape2 audio = 1000%nat → downsampling_ratio self = 10 →
  encode_ratio_law self →
  (∃ y, result run = inr (Latents y) ∧ shape2 y = 100%nat)
  ∧ windows_of (trace run) = [(0, 320); (240, 560); (480, 800); (680, 1000)]
  ∧ pastes_of (trace run)
    = [(0, 28, 0, 28); (28, 52, 4, 28); (52, 76, 4, 28); (72, 100, 4, 32)]
  ∧ covered 100 (trace run).
Proof.
  intros run Hwf Hlen HR Hlaw.
  destruct (encode_audio_chunked_run self audio 8 32 kw Hwf) as (y & Hrun & _ & Hy2);
    [rewrite ?HR, ?Hlen; lia..|done|].
  destruct (encode_audio_covered self audio 8 32 kw Hwf) as (y' & _ & _ & Hcov & _);
    [rewrite ?HR, ?Hlen; lia..|done|].
  rewrite HR, Hlen in Hcov. change (Z.of_nat 1000 / 10) with 100 in Hcov.
  fold run in Hcov, Hrun. split; [|split; [|split; [|done]]].
  - exists y. rewrite Hrun. split; [done|]. rewrite HR, Hlen in Hy2.
    change (Z.of_nat 1000 / 10) with 100 in Hy2. lia.
  - rewrite Hrun. unfold trace. simpl.
    rewrite windows_of_encode_audio_trace, HR, Hlen. by vm_compute.
  - rewrite Hrun. unfold trace. simpl.
    rewrite pastes_of_encode_audio_trace, HR, Hlen. by vm_compute.
Qed.

Lemma scenario_1000_samples_witness :
  let run := encode_audio (toy.codec 10) (toy.ramp 1 1000) true 8 32 ∅ in
  (∃ y, result run = inr (Latents y) ∧ shape2 y = 100%nat)
  ∧ windows_of (trace run) = [(0, 320); (240, 560); (480, 800); (680, 1000)]
  ∧ pastes_of (trace run)
    = [(0, 28, 0, 28); (28, 52, 4, 28); (52, 76, 4, 28); (72, 100, 4, 32)]
  ∧ covered 100 (trace run).
Proof.
  apply (scenario_1000_samples (toy.codec 10) (toy.ramp 1 1000) ∅).
  - apply toy_ramp_wf.
  - reflexivity.
  - reflexivity.
  - apply toy_codec_encode_law.
Defined.

(** C3, as stated, fails: the windows are not at latent starts
    0, 24, 48, 72 and 68, and there are four chunks, not five. *)
Lemma scenario_1000_samples_has_four_chunks :
  let tr := trace (encode_audio (toy.codec 10) (toy.ramp 1 1000) true 8 32 ∅) in
  (λ w, w.1 / 10) <$> windows_of tr = [0; 24; 48; 68]
  ∧ (λ w, w.1 / 10) <$> windows_of tr ≠ [0; 24; 48; 72; 68]
  ∧ length (pastes_of tr) = 4%nat
  ∧ length (pastes_of tr) ≠ 5%nat.
Proof. by vm_compute. Qed.

(** ** An input of exactly one chunk (C10) *)

Lemma window_starts_single chunk hop : 0 < hop → window_starts chunk chunk hop = [0].
Proof.
  intros Hhop. unfold window_starts.
  rewrite Z.sub_diag, Z.div_0_l by lia.
  rewrite bool_decide_eq_false_2 by lia. by rewrite app_nil_r.
Qed.

Section single_chunk.
Context {A : Type} `{!Frame A}.
Implicit Types self : AudioAutoencoder A.

Lemma encode_kw_empty self (audio : tensor A) :
  encode_kw self audio ∅ = encode self audio false false false ∅.
Proof.
  unfold encode_kw, kw_flag. rewrite !lookup_empty.
  rewrite bool_decide_eq_false_2 by (by intros [? ?]).
  by rewrite !delete_empty.
Qed.

Lemma decode_kw_empty self (latents : tensor A) :
  decode_kw self latents ∅ = decode self latents false ∅.
Proof.
  unfold decode_kw, kw_flag. rewrite !lookup_empty.
  rewrite bool_decide_eq_false_2 by (by intros [? ?]).
  by rewrite !delete_empty.
Qed.

Lemma encode_audio_single_chunk self (audio : tensor A) (ov cs : Z) kw y :
  let R := downsampling_ratio self in
  wf audio → 0 < R → 0 ≤ ov < cs → Z.of_nat (shape2 audio) = cs * R →
  encode_ratio_law self →
  result (encode self audio false false false ∅) = inr (Latents y) →
  encode_audio self audio true ov cs kw
  = (inr (Latents y),
     Window 0 (cs * R) :: trace (encode self audio false false false ∅)
     ++ [Paste 0 cs 0 cs]).
Proof.
  intros R Hwf HR Hov HT Hlaw Hy.
  destruct (Hlaw audio Hwf) as (y' & Hy' & Hwfy & Hy0 & Hy2).
  rewrite Hy in Hy'. injection Hy' as <-.
  fold R in Hy2. rewrite HT, Z.div_mul in Hy2 by lia.
  unfold encode_audio. simpl negb. cbv iota zeta. fold R.
  assert (0 < cs * R - ov * R) as Hhop by nia.
  assert (0 < cs * R ≤ Z.of_nat (shape2 audio)) as Hchunk by nia.
  rewrite (bind_inr _ _ _ _ (collect_chunks_run audio _ _ Hhop Hchunk)).
  rewrite HT, window_starts_single by done. simpl fmap.
  match goal with
  | |- ((?k).1, _ ++ (?k).2) = _ =>
      assert (k = (inr (Latents y),
                   trace (encode self audio false false false ∅) ++ [Paste 0 cs 0 cs]))
        as ->; [|done]
  end.
  replace (0 + cs * R) with (Z.of_nat (shape2 audio)) by lia.
  rewrite slice2_full by done.
  rewrite (torch_stack_run [audio] (shape0 audio) (shape2 audio)), bind_ret
    by (done || by repeat constructor).
  unfold floordiv. destruct (Z.eqb_spec R 0) as [|_]; [lia|]. rewrite bind_ret.
  rewrite Z.div_mul by lia.
  unfold zeros_buffer. destruct (Z.ltb_spec cs 0) as [|_]; [lia|]. rewrite bind_ret.
  assert (encode_audio_step self [audio] (Z.of_nat (length [audio])) cs
            (cs * R - ov * R) (cs * R) (ov * R) R 0
            (torch_zeros (shape0 audio) (latent_dim self) (Z.to_nat cs))
          = (inr y, trace (encode self audio false false false ∅) ++ [Paste 0 cs 0 cs]))
    as Hstep.
  { unfold encode_audio_step.
    change (chunk_at [audio] 0) with (mret (M:=M) audio). rewrite bind_ret.
    rewrite (bind_inr _ _ _ _ (result_trace _ _ Hy)). simpl as_latents.
    rewrite bind_ret, Hy2.
    match goal with
    | |- ((?k).1, _ ++ (?k).2) = _ => assert (k = (inr y, [Paste 0 cs 0 cs])) as ->; [|done]
    end.
    rewrite bool_decide_eq_true_2 by done.
    replace (cs - cs) with 0 by lia.
    replace (trim_edges 0 (Z.of_nat (length [audio])) (ov * R / R / 2) 0 cs 0 cs)
      with (0, cs, 0, cs) by reflexivity.
    rewrite <- Hy2, Nat2Z.id. rewrite <- Hy0. by apply paste_whole. }
  change (seqZ 0 (Z.of_nat (length [audio]))) with [0]. simpl foldM.
  rewrite (bind_inr _ _ _ _ Hstep). simpl.
  by rewrite !app_nil_r.
Qed.

Lemma decode_audio_single_chunk self (latents : tensor A) (ov cs : Z) kw y :
  let R := downsampling_ratio self in
  wf latents → 0 < R → 0 ≤ ov < cs → Z.of_nat (shape2 latents) = cs →
  decode_ratio_law self →
  result (decode self latents false ∅) = inr y →
  decode_audio self latents true ov cs kw
  = (inr y,
     Window 0 cs :: trace (decode self latents false ∅)
     ++ [Paste 0 (cs * R) 0 (cs * R)]).
Proof.
  intros R Hwf HR Hov HT Hlaw Hy.
  destruct (Hlaw latents Hwf) as (y' & Hy' & Hwfy & Hy0 & Hy2).
  rewrite Hy in Hy'. injection Hy' as <-.
  fold R in Hy2. rewrite HT in Hy2.
  unfold decode_audio. simpl negb. cbv iota zeta. fold R.
  assert (0 < cs - ov) as Hhop by lia.
  assert (0 < cs ≤ Z.of_nat (shape2 latents)) as Hchunk by lia.
  rewrite (bind_inr _ _ _ _ (collect_chunks_run latents _ _ Hhop Hchunk)).
  rewrite HT, window_starts_single by done. simpl fmap.
  match goal with
  | |- ((?k).1, _ ++ (?k).2) = _ =>
      assert (k = (inr y,
                   trace (decode self latents false ∅) ++ [Paste 0 (cs * R) 0 (cs * R)]))
        as ->; [|done]
  end.
  replace (0 + cs) with (Z.of_nat (shape2 latents)) by lia.
  rewrite slice2_full by done.
  rewrite (torch_stack_run [latents] (shape0 latents) (shape2 latents)), bind_ret
    by (done || by repeat constructor).
  unfold zeros_buffer. destruct (Z.ltb_spec (cs * R) 0) as [|_]; [nia|]. rewrite bind_ret.
  change (seqZ 0 (Z.of_nat (length [latents]))) with [0]. simpl foldM.
  assert (decode_audio_step self [latents] (Z.of_nat (length [latents])) (cs * R)
            (cs - ov) cs ov R 0
            (torch_zeros (shape0 latents) (out_channels self) (Z.to_nat (cs * R)))
          = (inr y, trace (decode self latents false ∅) ++ [Paste 0 (cs * R) 0 (cs * R)]))
    as Hstep.
  { unfold decode_audio_step.
    change (chunk_at [latents] 0) with (mret (M:=M) latents). rewrite bind_ret.
    rewrite (bind_inr _ _ _ _ (result_trace _ _ Hy)). rewrite Hy2.
    match goal with
    | |- ((?k).1, _ ++ (?k).2) = _ =>
        assert (k = (inr y, [Paste 0 (cs * R) 0 (cs * R)])) as ->; [|done]
    end.
    rewrite bool_decide_eq_true_2 by done.
    replace (cs * R - cs * R) with 0 by lia.
    replace (trim_edges 0 (Z.of_nat (length [latents])) (ov / 2 * R) 0 (cs * R) 0 (cs * R))
      with (0, cs * R, 0, cs * R) by reflexivity.
    rewrite <- Hy2, Nat2Z.id. rewrite <- Hy0. by apply paste_whole. }
  rewrite (bind_inr _ _ _ _ Hstep). simpl.
  by rewrite !app_nil_r.
Qed.
End single_chunk.

(** C10, as amended.  When the input is exactly one chunk long,
    [0 <= overlap < chunk_size] and no further keyword argument is
    given, with a codec that maps a length [T] to [T / R] (encode) or
    [T * R] (decode), the chunked path cuts exactly one window, the
    whole input; pastes the whole codec output over the whole buffer,
    nothing trimmed; and returns what the non-chunked path returns. *)
Theorem single_chunk_equals_unchunked {A} `{!Frame A} (self : AudioAutoencoder A)
    (audio latents : tensor A) (overlap chunk_size : Z) :
  let R := downsampling_ratio self in
  let enc := encode_audio self audio true overlap chunk_size ∅ in
  let dec := decode_audio self latents true overlap chunk_size ∅ in
  wf audio → wf latents → 0 < R → 0 ≤ overlap < chunk_size →
  Z.of_nat (shape2 audio) = chunk_size * R →
  Z.of_nat (shape2 latents) = chunk_size →
  encode_ratio_law self → decode_ratio_law self →
  (result enc = result (encode_audio self audio false overlap chunk_size ∅)
   ∧ (∃ y, result enc = inr (Latents y))
   ∧ windows_of (trace enc) = [(0, chunk_size * R)]
   ∧ pastes_of (trace enc) = [(0, chunk_size, 0, chunk_size)])
  ∧ (result dec = result (decode_audio self latents false overlap chunk_size ∅)
     ∧ (∃ y, result dec = inr y)
     ∧ windows_of (trace dec) = [(0, chunk_size)]
     ∧ pastes_of (trace dec) = [(0, chunk_size * R, 0, chunk_size * R)]).
Proof.
  intros R enc dec Hwa Hwl HR Hov Ha Hl Hel Hdl. subst enc dec. split.
  - destruct (Hel audio Hwa) as (y & Hy & _).
    rewrite (encode_audio_single_chunk self audio _ _ _ y) by done.
    unfold encode_audio. simpl negb. cbv iota. rewrite encode_kw_empty, Hy.
    unfold result, trace. simpl. split; [done|]. split; [by exists y|].
    change (Window 0 (chunk_size * downsampling_ratio self) :: ?l)
      with ([Window 0 (chunk_size * downsampling_ratio self)] ++ l).
    rewrite !windows_of_app, !pastes_of_app.
    rewrite windows_of_forward, pastes_of_forward by apply encode_trace_forward.
    done.
  - destruct (Hdl latents Hwl) as (y & Hy & _).
    rewrite (decode_audio_single_chunk self latents _ _ _ y) by done.
    unfold decode_audio. simpl negb. cbv iota. rewrite decode_kw_empty, Hy.
    unfold result, trace. simpl. split; [done|]. split; [by exists y|].
    change (Window 0 chunk_size :: ?l) with ([Window 0 chunk_size] ++ l).
    rewrite !windows_of_app, !pastes_of_app.
    rewrite windows_of_forward, pastes_of_forward by apply decode_trace_forward.
    done.
Qed.

Lemma single_chunk_equals_unchunked_witness :
  let self := toy.codec 10 in
  let audio := toy.ramp 2 320 in
  let latents := toy.ramp 2 32 in
  let enc := encode_audio self audio true 8 32 ∅ in
  let dec := decode_audio self latents true 8 32 ∅ in
  (result enc = result (encode_audio self audio false 8 32 ∅)
   ∧ (∃ y, result enc = inr (Latents y))
   ∧ windows_of (trace enc) = [(0, 32 * 10)]
   ∧ pastes_of (trace enc) = [(0, 32, 0, 32)])
  ∧ (result dec = result (decode_audio self latents false 8 32 ∅)
     ∧ (∃ y, result dec = inr y)
     ∧ windows_of (trace dec) = [(0, 32)]
     ∧ pastes_of (trace dec) = [(0, 32 * 10, 0, 32 * 10)]).
Proof.
  apply (single_chunk_equals_unchunked (toy.codec 10) (toy.ramp 2 320) (toy.ramp 2 32) 8 32).
  - apply toy_ramp_wf.
  - apply toy_ramp_wf.
  - simpl; lia.
  - lia.
  - reflexivity.
  - reflexivity.
  - apply toy_codec_encode_law.
  - apply toy_codec_decode_law.
Defined.

(** C10, as stated, fails.  On an input of exactly one chunk, with a
    codec that obeys the length law: when the overlap is the chunk size
    the hop is 0 and the chunked path raises, where the non-chunked
    path returns; and [encode_audio] called with [return_info=True]
    returns the latents alone on the chunked path, and the latents with
    the info dictionary on the non-chunked path. *)
Lemma single_chunk_differs_with_keywords :
  let self := toy.codec 10 in
  let audio := toy.ramp 1 320 in
  let kw : kwargs := {["return_info" := PBool true]} in
  wf audio
  ∧ Z.of_nat (shape2 audio) = 32 * downsampling_ratio self
  ∧ encode_ratio_law self ∧ decode_ratio_law self
  ∧ result (encode_audio self audio true 32 32 ∅)
    = inl (ValueError "range() arg 3 must not be zero")
  ∧ result (encode_audio self audio true 32 32 ∅)
    ≠ result (encode_audio self audio false 32 32 ∅)
  ∧ result (encode_audio self audio true 8 32 kw)
    ≠ result (encode_audio self audio false 8 32 kw).
Proof.
  split; [apply toy_ramp_wf|]. split; [reflexivity|].
  split; [apply toy_codec_encode_law|]. split; [apply toy_codec_decode_law|].
  split; [by vm_compute|]. split; vm_compute; discriminate.
Qed.

(** ** One sample at a time (C9) *)

Lemma result_bind {X Y} (m : M X) (f : X → M Y) :
  result (m ≫= f) = match result m with inl e => inl e | inr a => result (f a) end.
Proof.
  destruct m as [[e|a] l]; [done|]. by rewrite (bind_inr _ _ a l).
Qed.

Lemma result_bind_congr {X Y} (m1 m2 : M X) (f1 f2 : X → M Y) :
  result m1 = result m2 →
  (∀ a, result m1 = inr a → result (f1 a) = result (f2 a)) →
  result (m1 ≫= f1) = result (m2 ≫= f2).
Proof.
  intros Hm Hf. rewrite !result_bind, <- Hm.
  destruct (result m1) as [e|a]; [done|]. by apply Hf.
Qed.

Section iterate_batch.
Context {A : Type} `{!Frame A}.
Implicit Types self : AudioAutoencoder A.
Implicit Types x : tensor A.

Lemma per_sample_batch f x : per_sample f → batch x → batch (f x).
Proof.
  intros (g & w & Hf) [Hlen Hpos]. rewrite Hf. split; simpl; [|done].
  by rewrite length_fmap.
Qed.

Lemma per_sample_shape0 f x : per_sample f → shape0 (f x) = shape0 x.
Proof. intros (g & w & Hf). by rewrite Hf. Qed.

Lemma slice0_item x (i : nat) row :
  length (data x) = shape0 x → data x !! i = Some row →
  slice0 x (Some (Z.of_nat i)) (Some (Z.of_nat i + 1)) = Tensor 1 (shape2 x) [row].
Proof.
  intros Hlen Hrow. pose proof (lookup_lt_Some _ _ _ Hrow) as Hi.
  unfold slice0. rewrite slice_bounds_in by lia.
  replace (Z.to_nat (Z.of_nat i + 1) - Z.to_nat (Z.of_nat i))%nat with 1%nat by lia.
  rewrite Nat2Z.id. f_equal.
  by rewrite (drop_S _ _ _ Hrow).
Qed.

Lemma sum_list_items (h : list A → list A) (n : nat) (rows : list (list A)) :
  sum_list (shape0 <$> ((λ row, Tensor 1 n [h row]) <$> rows)) = length rows.
Proof. induction rows as [|r l IH]; [done|]. rewrite !fmap_cons. simpl. by rewrite IH. Qed.

Lemma concat_items (h : list A → list A) (n : nat) (rows : list (list A)) :
  concat (data <$> ((λ row, Tensor 1 n [h row]) <$> rows)) = h <$> rows.
Proof. induction rows as [|r l IH]; [done|]. rewrite !fmap_cons. simpl. by rewrite IH. Qed.

Lemma torch_cat_items (h : list A → list A) (n : nat) (rows : list (list A)) :
  rows ≠ [] →
  torch_cat ((λ row, Tensor 1 n [h row]) <$> rows)
  = mret (Tensor (length rows) n (h <$> rows)).
Proof.
  intros Hne. destruct rows as [|row rows]; [done|]. unfold torch_cat.
  rewrite fmap_cons.
  rewrite (proj2 (forallb_forall _ _)).
  2:{ intros u (r & -> & _)%list_elem_of_In%list_elem_of_fmap. simpl.
      apply Nat.eqb_refl. }
  f_equal. f_equal.
  - apply (sum_list_items h n (row :: rows)).
  - apply (concat_items h n (row :: rows)).
Qed.

(** The sequential loop over a batch returns what the whole-batch call
    returns. *)
Lemma iterate_result name f x :
  batch x → per_sample f → result (iterate name f (shape0 x) x) = inr (f x).
Proof.
  intros [Hlen Hpos] (g & w & Hf). unfold iterate.
  rewrite (bind_inr _ _
    ((λ i, f (slice0 x (Some i) (Some (i + 1)))) <$> seqZ 0 (Z.of_nat (shape0 x)))
    (concat ((λ i, [Forward name (shape0 (slice0 x (Some i) (Some (i + 1))))
                               (shape2 (slice0 x (Some i) (Some (i + 1))))])
             <$> seqZ 0 (Z.of_nat (shape0 x))))).
  2:{ apply mapM_run. intros i _. unfold forward. by rewrite bind_tell. }
  assert ((λ i, f (slice0 x (Some i) (Some (i + 1)))) <$> seqZ 0 (Z.of_nat (shape0 x))
          = (λ row, Tensor 1 (w (shape2 x)) [g row]) <$> data x) as ->.
  { apply list_eq. intros k. rewrite !list_lookup_fmap.
    destruct (decide (k < shape0 x)%nat) as [Hk|Hk].
    - rewrite lookup_seqZ_lt by lia.
      destruct (lookup_lt_is_Some_2 (data x) k) as [row Hrow]; [lia|].
      rewrite Hrow. simpl. f_equal.
      rewrite Z.add_0_l, (slice0_item x k row), Hf by done. done.
    - rewrite lookup_seqZ_ge by lia.
      rewrite (lookup_ge_None_2 (data x)) by lia. done. }
  rewrite torch_cat_items by (intros Hnil; rewrite Hnil in Hlen; simpl in Hlen; lia).
  simpl. by rewrite Hf, Hlen.
Qed.

End iterate_batch.

(** C9, as amended.  For every batch of at least one item, [encode]
    with [iterate_batch=True] returns what it returns with
    [iterate_batch=False], whatever the other arguments; and so does
    [decode] called without further keyword arguments.  The
    pretransform, the encoder, the decoder and the decoding side of the
    bottleneck process the items of a batch independently.  (The
    bottleneck encodes the whole batch in both modes.) *)
Theorem iterate_batch_equals_batched {A} `{!Frame A} (self : AudioAutoencoder A)
    (audio latents : tensor A) (return_info skip_pretransform : bool) (kw : kwargs) :
  batch audio → batch latents →
  (∀ pt, pretransform self = Some pt →
         per_sample (pt_encode pt) ∧ per_sample (pt_decode pt)) →
  (∀ f, encoder self = Some f → per_sample f) →
  (∀ f, decoder self = Some f → per_sample (f ∅)) →
  (∀ bn, bottleneck self = Some bn → per_sample (bn_decode bn)) →
  result (encode self audio return_info skip_pretransform true kw)
  = result (encode self audio return_info skip_pretransform false kw)
  ∧ result (decode self latents true ∅) = result (decode self latents false ∅).
Proof.
  intros Haudio Hlatents Hpre Henc Hdec Hbn. split.
  - unfold encode. apply result_bind_congr.
    + destruct (pretransform self) as [pt|]; [|done].
      destruct (Hpre pt eq_refl) as [Hpe _].
      destruct skip_pretransform; [done|]. simpl negb. cbv iota.
      destruct (enable_grad pt); rewrite iterate_result by done;
        unfold forward; by rewrite bind_tell.
    + intros a Hres. assert (batch a) as Ha.
      { destruct (pretransform self) as [pt|]; [|by injection Hres as <-].
        destruct (Hpre pt eq_refl) as [Hpe _].
        destruct skip_pretransform; [by injection Hres as <-|].
        simpl negb in Hres. cbv iota in Hres.
        destruct (enable_grad pt); rewrite iterate_result in Hres by done;
          injection Hres as <-; by apply per_sample_batch. }
      apply result_bind_congr; [|done].
      destruct (encoder self) as [f|]; [|done].
      rewrite iterate_result by (done || by apply Henc).
      unfold forward. by rewrite bind_tell.
  - unfold decode. apply result_bind_congr.
    + destruct (bottleneck self) as [bn|]; [|done].
      rewrite iterate_result by (done || by apply Hbn).
      unfold forward. by rewrite bind_tell.
    + intros a Hres. assert (batch a) as Ha.
      { destruct (bottleneck self) as [bn|]; [|by injection Hres as <-].
        rewrite iterate_result in Hres by (done || by apply Hbn).
        injection Hres as <-. apply per_sample_batch; [by apply Hbn|done]. }
      apply result_bind_congr.
      * destruct (decoder self) as [f|].
        -- rewrite iterate_result by (done || by apply Hdec).
           unfold forward. by rewrite bind_tell.
        -- destruct Ha as [_ Hpos].
           by destruct (Nat.eqb_spec (shape0 a) 0); [lia|].
      * intros d Hd. assert (batch d ∧ shape0 a = shape0 d) as [Hbd Hshape].
        { destruct (decoder self) as [f|]; [|by destruct (true && _)].
          rewrite iterate_result in Hd by (done || by apply Hdec).
          injection Hd as <-. split; [apply per_sample_batch; [by apply Hdec|done]|].
          symmetry. apply per_sample_shape0. by apply Hdec. }
        apply result_bind_congr; [|done].
        destruct (pretransform self) as [pt|]; [|done].
        destruct (Hpre pt eq_refl) as [_ Hpd].
        destruct (enable_grad pt); rewrite ?Hshape, iterate_result by done;
          unfold forward; by rewrite bind_tell.
Qed.

Lemma iterate_batch_equals_batched_witness :
  let self := toy.codec 2 in
  result (encode self (toy.ramp 3 8) false false true ∅)
  = result (encode self (toy.ramp 3 8) false false false ∅)
  ∧ result (decode self (toy.ramp 3 4) true ∅) = result (decode self (toy.ramp 3 4) false ∅).
Proof.
  apply (iterate_batch_equals_batched (toy.codec 2) (toy.ramp 3 8) (toy.ramp 3 4)
           false false ∅).
  - split; simpl; [reflexivity|lia].
  - split; simpl; [reflexivity|lia].
  - intros pt Hpt. discriminate Hpt.
  - intros f Hf. injection Hf as <-.
    by exists (λ row, (λ k, default 0 (row !! (k * 2)%nat)) <$> seq 0 (length row / 2)),
              (λ n, (n / 2)%nat).
  - intros f Hf. injection Hf as <-.
    by exists (λ row, (λ k, default 0 (row !! (k / 2)%nat)) <$> seq 0 (length row * 2)),
              (λ n, (n * 2)%nat).
  - intros bn Hbn. discriminate Hbn.
Defined.

(** C9, as stated, fails.  A decoder that processes the items of a
    batch independently, and reads a keyword argument: [decode] with
    [iterate_batch=True] does not pass the keyword on and returns
    another tensor than with [iterate_batch=False].  And on an empty
    batch [encode] returns with [iterate_batch=False] and raises with
    [iterate_batch=True]. *)
Lemma iterate_batch_differs_from_batched :
  batch (toy.ramp 2 4)
  ∧ (∀ kw, per_sample (toy_gain.scale kw))
  ∧ result (decode toy_gain.codec (toy.ramp 2 4) true {["gain" := PInt 2]})
    ≠ result (decode toy_gain.codec (toy.ramp 2 4) false {["gain" := PInt 2]})
  ∧ result (encode (toy.codec 2) (toy.ramp 0 8) false false true ∅)
    ≠ result (encode (toy.codec 2) (toy.ramp 0 8) false false false ∅).
Proof.
  split; [split; simpl; [reflexivity|lia]|]. split; [|split].
  - intros kw. by exists (λ row : list Z, (λ v, v * toy_gain.gain kw) <$> row), (λ n, n).
  - vm_compute. discriminate.
  - vm_compute. discriminate.
Qed.

(** ** The recursion of [DiffusionAutoencoder.decode] (C6) *)

(** C6 fails on the code.  With a decoder module present,
    [DiffusionAutoencoder.decode] calls itself, not the decoder: whatever
    the number of stack frames available, the call ends in
    [RecursionError] and never returns a tensor. *)
Theorem diffusion_decode_with_decoder_never_returns {A} `{!Frame A}
    (depth : nat) (self : DiffusionAutoencoder.t A) (latents : tensor A) (steps : Z) :
  is_Some (decoder (DiffusionAutoencoder.base self)) →
  result (DiffusionAutoencoder.decode depth self latents steps) = inl RecursionError.
Proof.
  intros [dec Hdec]. revert latents steps.
  induction depth as [|depth IH]; intros latents steps; [done|].
  simpl. rewrite Hdec. rewrite result_bind.
  destruct (bottleneck (DiffusionAutoencoder.base self)) as [bn|].
  - unfold forward at 1. rewrite bind_tell. unfold result at 1. simpl.
    by rewrite result_bind, IH.
  - unfold result at 1. simpl. by rewrite result_bind, IH.
Qed.

Lemma diffusion_decode_with_decoder_never_returns_witness :
  result (DiffusionAutoencoder.decode 1000 (toy_diffusion.model 2 true) (toy.ramp 1 4) 100)
  = inl RecursionError.
Proof.
  apply (diffusion_decode_with_decoder_never_returns
           1000 (toy_diffusion.model 2 true) (toy.ramp 1 4) 100).
  simpl. by eexists.
Defined.

(** Without a decoder module the same method returns, given one stack
    frame. *)
Lemma diffusion_decode_without_decoder_returns {A} `{!Frame A}
    (depth : nat) (self : DiffusionAutoencoder.t A) (latents : tensor A) (steps : Z) :
  decoder (DiffusionAutoencoder.base self) = None →
  ∃ y, result (DiffusionAutoencoder.decode (S depth) self latents steps) = inr y.
Proof.
  intros Hdec. simpl. rewrite Hdec. unfold forward.
  destruct (bottleneck (DiffusionAutoencoder.base self)) as [bn|],
    (pretransform (DiffusionAutoencoder.base self)) as [pt|]; simpl;
    try destruct (enable_grad pt); by eexists.
Qed.

(** ** Missing configuration keys (C7) *)

Lemma bind_inr_inv {X Y} (m : M X) (f : X → M Y) b l :
  m ≫= f = (inr b, l) →
  ∃ a l1 l2, m = (inr a, l1) ∧ f a = (inr b, l2) ∧ l = l1 ++ l2.
Proof.
  destruct m as [[e|a] l1]; [done|]. rewrite (bind_inr _ _ a l1) by done.
  destruct (f a) as [r l2] eqn:Hf. simpl. intros [= -> <-]. by exists a, l1, l2.
Qed.

Lemma as_dict_inv v d l : as_dict v = (inr d, l) → v = PDict d ∧ l = [].
Proof. destruct v; try done. by intros [= -> <-]. Qed.

Lemma dict_of_get_inv v d l : dict_of_get v = (inr d, l) → v = PDict d ∧ l = [].
Proof. destruct v; try done. by intros [= -> <-]. Qed.

Lemma dict_item_inv d key v l : dict_item d key = (inr v, l) → d !! key = Some v ∧ l = [].
Proof. unfold dict_item. destruct (d !! key); [|done]. by intros [= -> <-]. Qed.

Section factory_facts.
Context {Enc Dec Bn Pt : Type}.
Context (new_encoder : string → kwargs → exn + Enc).
Context (new_decoder : string → kwargs → exn + Dec).
Context (create_pretransform_from_config : pyval → pyval → M Pt).
Context (create_bottleneck_from_config : pyval → M Bn).

Lemma construct_inv {T} (new : string → kwargs → exn + T) cls kw m l :
  construct new cls kw = (inr m, l) → l = [Construct cls].
Proof.
  unfold construct. destruct (new cls kw) as [e|m']; [done|].
  rewrite bind_tell. simpl. by intros [= _ <-].
Qed.

Lemma from_config_inv {T} (new : string → kwargs → exn + T) cls cfg m l :
  from_config new cls cfg = (inr m, l) → l = [Construct cls].
Proof.
  unfold from_config.
  intros (c & l1 & l2 & (_ & ->)%dict_item_inv & H & ->)%bind_inr_inv.
  apply bind_inr_inv in H as (kw & l3 & l4 & (_ & ->)%as_dict_inv & H & ->).
  by apply construct_inv in H as ->.
Qed.

Lemma assert_inv cond msg u l : assert cond msg = (inr u, l) → cond = true ∧ l = [].
Proof. destruct cond; [|done]. by intros [= _ <-]. Qed.

Lemma assert_true msg : assert true msg = mret tt.
Proof. done. Qed.

Lemma reversed_list_inv v r l : reversed_list v = (inr r, l) → l = [].
Proof. destruct v; try done; by intros [= _ <-]. Qed.

(** A successful encoder or decoder factory has run one constructor. *)
Lemma create_encoder_from_config_trace encoder_config e l :
  create_encoder_from_config new_encoder encoder_config = (inr e, l) →
  ∃ cls, l = [Construct cls].
Proof.
  unfold create_encoder_from_config.
  intros (cfg & l1 & l2 & (_ & ->)%dict_of_get_inv & H & ->)%bind_inr_inv.
  apply bind_inr_inv in H as (u & l3 & l4 & (_ & ->)%assert_inv & H & ->).
  apply bind_inr_inv in H as (m & l5 & l6 & Hm & [= _ <-] & ->).
  simpl. rewrite app_nil_r.
  repeat case_match; try done; try (eexists; by eapply from_config_inv).
  apply bind_inr_inv in Hm as (c & l7 & l8 & (_ & ->)%dict_item_inv & Hm & ->).
  apply bind_inr_inv in Hm as (kw & l9 & l10 & (_ & ->)%dict_of_get_inv & Hm & ->).
  apply bind_inr_inv in Hm as (r & l11 & l12 & ->%reversed_list_inv & Hm & ->).
  eexists. by eapply construct_inv.
Qed.

Lemma create_decoder_from_config_trace decoder_config d l :
  create_decoder_from_config new_decoder decoder_config = (inr d, l) →
  ∃ cls, l = [Construct cls].
Proof.
  unfold create_decoder_from_config.
  intros (cfg & l1 & l2 & (_ & ->)%dict_of_get_inv & H & ->)%bind_inr_inv.
  apply bind_inr_inv in H as (u & l3 & l4 & (_ & ->)%assert_inv & H & ->).
  apply bind_inr_inv in H as (m & l5 & l6 & Hm & [= _ <-] & ->).
  simpl. rewrite app_nil_r.
  repeat case_match; try done; eexists; by eapply from_config_inv.
Qed.

Lemma create_autoencoder_missing_key config ae_config encoder_config decoder_config
    e d key :
  config !! "model" = Some (PDict ae_config) →
  ae_config !! "encoder" = Some encoder_config →
  ae_config !! "decoder" = Some decoder_config →
  result (create_encoder_from_config new_encoder encoder_config) = inr e →
  result (create_decoder_from_config new_decoder decoder_config) = inr d →
  first_missing config ae_config = Some key →
  ∃ enc_cls dec_cls,
    create_autoencoder_from_config new_encoder new_decoder
      create_pretransform_from_config create_bottleneck_from_config (PDict config)
    = (inl (AssertionError (key +:+ " must be specified in model config")),
       [Construct enc_cls; Construct dec_cls]).
Proof.
  intros Hmodel Henc Hdec He Hd Hkey.
  apply result_trace in He, Hd.
  destruct (create_encoder_from_config_trace _ _ _ He) as [enc_cls Hle].
  destruct (create_decoder_from_config_trace _ _ _ Hd) as [dec_cls Hld].
  rewrite Hle in He. rewrite Hld in Hd.
  exists enc_cls, dec_cls. unfold create_autoencoder_from_config.
  change (as_dict (PDict config)) with (mret (M:=M) config). rewrite bind_ret.
  unfold dict_item. rewrite Hmodel, bind_ret.
  change (as_dict (PDict ae_config)) with (mret (M:=M) ae_config). rewrite bind_ret.
  rewrite Henc, bind_ret, (bind_inr _ _ _ _ He).
  match goal with
  | |- ((?k).1, _ ++ (?k).2) = _ =>
      assert (k = (inl (AssertionError (key +:+ " must be specified in model config")),
                   [Construct dec_cls])) as ->; [|done]
  end.
  rewrite Hdec, bind_ret, (bind_inr _ _ _ _ Hd).
  match goal with
  | |- ((?k).1, _ ++ (?k).2) = _ =>
      assert (k = (inl (AssertionError (key +:+ " must be specified in model config")),
                   [])) as ->; [|done]
  end.
  unfold first_missing in Hkey.
  destruct (is_none (dict_get ae_config "latent_dim" PNone)).
  { by injection Hkey as <-. }
  cbn [negb]. rewrite assert_true, bind_ret.
  destruct (is_none (dict_get ae_config "downsampling_ratio" PNone)).
  { by injection Hkey as <-. }
  cbn [negb]. rewrite assert_true, bind_ret.
  destruct (is_none (dict_get ae_config "io_channels" PNone)).
  { by injection Hkey as <-. }
  cbn [negb]. rewrite assert_true, bind_ret.
  destruct (is_none (dict_get config "sample_rate" PNone)); [|done].
  by injection Hkey as <-.
Qed.
End factory_facts.

Lemma first_missing_absent (config ae_config : gmap string pyval) :
  ae_config !! "latent_dim" = None ∨ ae_config !! "downsampling_ratio" = None
  ∨ ae_config !! "io_channels" = None ∨ config !! "sample_rate" = None →
  ∃ key, first_missing config ae_config = Some key
         ∧ key ∈ ["latent_dim"; "downsampling_ratio"; "io_channels"; "sample_rate"].
Proof.
  intros Habsent. unfold first_missing, dict_get.
  destruct (is_none match ae_config !! "latent_dim" with Some v => v | None => PNone end)
    eqn:H1; [eexists; split; [done|rewrite !elem_of_cons; auto]|].
  destruct (is_none match ae_config !! "downsampling_ratio" with
                    | Some v => v | None => PNone end)
    eqn:H2; [eexists; split; [done|rewrite !elem_of_cons; auto]|].
  destruct (is_none match ae_config !! "io_channels" with Some v => v | None => PNone end)
    eqn:H3; [eexists; split; [done|rewrite !elem_of_cons; auto]|].
  destruct (is_none match config !! "sample_rate" with Some v => v | None => PNone end)
    eqn:H4; [eexists; split; [done|rewrite !elem_of_cons; auto]|].
  destruct Habsent as [Ha|[Ha|[Ha|Ha]]]; rewrite Ha in *; done.
Qed.

(** C7, as the code has it.  When the model section has an encoder and a
    decoder section from which both modules can be built, and one of
    [latent_dim], [downsampling_ratio], [io_channels] (in the model
    section) or [sample_rate] (at top level) is absent,
    [create_autoencoder_from_config] raises an [AssertionError] whose
    message names the first missing key, and returns no autoencoder: the
    missing value is not defaulted.  The error comes after the encoder
    and the decoder have been constructed; nothing else is constructed. *)
Theorem missing_key_raises_after_codec_construction {Enc Dec Bn Pt : Type}
    (new_encoder : string → kwargs → exn + Enc)
    (new_decoder : string → kwargs → exn + Dec)
    (create_pretransform_from_config : pyval → pyval → M Pt)
    (create_bottleneck_from_config : pyval → M Bn)
    (config ae_config : gmap string pyval) (encoder_config decoder_config : pyval)
    (e : built Enc) (d : built Dec) :
  config !! "model" = Some (PDict ae_config) →
  ae_config !! "encoder" = Some encoder_config →
  ae_config !! "decoder" = Some decoder_config →
  result (create_encoder_from_config new_encoder encoder_config) = inr e →
  result (create_decoder_from_config new_decoder decoder_config) = inr d →
  ae_config !! "latent_dim" = None ∨ ae_config !! "downsampling_ratio" = None
  ∨ ae_config !! "io_channels" = None ∨ config !! "sample_rate" = None →
  ∃ key enc_cls dec_cls,
    first_missing config ae_config = Some key
    ∧ key ∈ ["latent_dim"; "downsampling_ratio"; "io_channels"; "sample_rate"]
    ∧ create_autoencoder_from_config new_encoder new_decoder
        create_pretransform_from_config create_bottleneck_from_config (PDict config)
      = (inl (AssertionError (key +:+ " must be specified in model config")),
         [Construct enc_cls; Construct dec_cls]).
Proof.
  intros Hmodel Henc Hdec He Hd Habsent.
  destruct (first_missing_absent config ae_config Habsent) as (key & Hkey & Hin).
  destruct (create_autoencoder_missing_key new_encoder new_decoder
              create_pretransform_from_config create_bottleneck_from_config
              config ae_config encoder_config decoder_config e d key)
    as (enc_cls & dec_cls & Hrun); try done.
  by exists key, enc_cls, dec_cls.
Qed.

Lemma missing_key_raises_after_codec_construction_witness :
  ∃ key enc_cls dec_cls,
    first_missing toy_factory.config toy_factory.model_config = Some key
    ∧ key ∈ ["latent_dim"; "downsampling_ratio"; "io_channels"; "sample_rate"]
    ∧ toy_factory.create (PDict toy_factory.config)
      = (inl (AssertionError (key +:+ " must be specified in model config")),
         [Construct enc_cls; Construct dec_cls]).
Proof.
  apply (missing_key_raises_after_codec_construction
           toy_factory.new_module toy_factory.new_module
           toy_factory.create_pretransform toy_factory.create_bottleneck
           toy_factory.config toy_factory.model_config
           toy_factory.codec_config toy_factory.codec_config
           (Built "OobleckEncoder" false) (Built "OobleckDecoder" false)).
  - by vm_compute.
  - by vm_compute.
  - by vm_compute.
  - by vm_compute.
  - by vm_compute.
  - left. by vm_compute.
Defined.

(** C7, as stated, fails: on a configuration without [latent_dim] the
    error is raised after the encoder and the decoder have been
    constructed. *)
Lemma missing_latent_dim_fails_after_construction :
  toy_factory.create (PDict toy_factory.config)
  = (inl (AssertionError "latent_dim must be specified in model config"),
     [Construct "OobleckEncoder"; Construct "OobleckDecoder"])
  ∧ trace (toy_factory.create (PDict toy_factory.config)) ≠ [].
Proof. split; by vm_compute. Qed.

(** * Further properties *)

(** ** [next_power_of_two] *)

Lemma bit_length_nonneg x : 0 ≤ bit_length x.
Proof.
  unfold bit_length. destruct (Z.eqb_spec x 0); [done|].
  pose proof (Z.log2_nonneg (Z.abs x)). lia.
Qed.

(** X1.  For [n >= 1], [next_power_of_two n] is the least power of two
    that is at least [n]: it is a power of two, it lies in [n, 2n), and
    no power of two between [n] and it is smaller.  In particular a
    power of two is returned unchanged. *)
Theorem next_power_of_two_least (n : Z) :
  1 ≤ n →
  (∃ k, 0 ≤ k ∧ next_power_of_two n = 2 ^ k)
  ∧ n ≤ next_power_of_two n < 2 * n
  ∧ ∀ k, 0 ≤ k → n ≤ 2 ^ k → next_power_of_two n ≤ 2 ^ k.
Proof.
  intros Hn. unfold next_power_of_two.
  split; [exists (bit_length (n - 1)); split; [apply bit_length_nonneg|done]|].
  unfold bit_length. destruct (Z.eqb_spec (n - 1) 0) as [H0|H0].
  - assert (n = 1) as -> by lia. simpl. split; [lia|].
    intros k Hk _. pose proof (Z.pow_pos_nonneg 2 k). lia.
  - rewrite Z.abs_eq by lia.
    pose proof (Z.log2_spec (n - 1) ltac:(lia)) as [Hlo Hhi].
    pose proof (Z.log2_nonneg (n - 1)) as Hlog.
    rewrite Z.pow_succ_r in Hhi by done.
    replace (Z.log2 (n - 1) + 1) with (Z.succ (Z.log2 (n - 1))) by lia.
    rewrite Z.pow_succ_r by done.
    split; [lia|]. intros k Hk Hle.
    destruct (Z.le_gt_cases (Z.succ (Z.log2 (n - 1))) k) as [Hge|Hlt].
    + rewrite <- Z.pow_succ_r by done. by apply Z.pow_le_mono_r.
    + assert (2 ^ k ≤ 2 ^ Z.log2 (n - 1)) by (apply Z.pow_le_mono_r; lia). lia.
Qed.

Lemma next_power_of_two_least_witness :
  (∃ k, 0 ≤ k ∧ next_power_of_two 1000 = 2 ^ k)
  ∧ 1000 ≤ next_power_of_two 1000 < 2 * 1000
  ∧ ∀ k, 0 ≤ k → 1000 ≤ 2 ^ k → next_power_of_two 1000 ≤ 2 ^ k.
Proof. apply (next_power_of_two_least 1000). lia. Defined.

(** ** The encoder and decoder factories *)

Ltac run_factory :=
  unfold create_encoder_from_config, create_decoder_from_config, from_config,
    dict_of_get, as_dict, dict_item, assert, construct, reversed_list, is_str,
    encoder_class, decoder_class, result, trace,
    mbind, M_bind, bind, mret, M_ret, ret, raise, tell.

Ltac built_one_module :=
  match goal with
  | Ht : ?d !! "type" = Some (PStr ?tag) |- _ => exists d, tag
  end;
  eexists; (split; [done|]); (split; [done|]);
  repeat match goal with
         | H : (_ =? _)%string = _ |- _ => rewrite H; clear H
         | H : _ !! "requires_grad" = _ |- _ => rewrite H; clear H
         end;
  done.

(** X2.  [create_encoder_from_config] and [create_decoder_from_config]
    either fail having constructed nothing, or return having run
    exactly one constructor: that of the class their string type tag
    stands for ([oobleck], [seanet], [dac] or [local_attn]); the module is
    frozen exactly when [requires_grad] is set to a false value. *)
Theorem codec_factories_build_one_module_or_none {Enc Dec : Type}
    (new_encoder : string → kwargs → exn + Enc)
    (new_decoder : string → kwargs → exn + Dec) (cfg : pyval) :
  (match result (create_encoder_from_config new_encoder cfg) with
   | inr b =>
       ∃ d tag cls,
         cfg = PDict d ∧ d !! "type" = Some (PStr tag) ∧ encoder_class tag = Some cls
         ∧ trace (create_encoder_from_config new_encoder cfg) = [Construct cls]
         ∧ frozen b = negb (truthy (dict_get d "requires_grad" (PBool true)))
   | inl _ => trace (create_encoder_from_config new_encoder cfg) = []
   end)
  ∧ (match result (create_decoder_from_config new_decoder cfg) with
     | inr b =>
         ∃ d tag cls,
           cfg = PDict d ∧ d !! "type" = Some (PStr tag) ∧ decoder_class tag = Some cls
           ∧ trace (create_decoder_from_config new_decoder cfg) = [Construct cls]
           ∧ frozen b = negb (truthy (dict_get d "requires_grad" (PBool true)))
     | inl _ => trace (create_decoder_from_config new_decoder cfg) = []
     end).
Proof.
  split.
  - destruct cfg as [| | | | |d]; try done. run_factory. unfold dict_get.
    destruct (d !! "type") as [[| | |tag| |]|] eqn:Htype; simpl; try done.
    repeat (case_match; simpl in *; try done; simplify_eq);
      rewrite ?app_nil_r; try reflexivity; built_one_module.
  - destruct cfg as [| | | | |d]; try done. run_factory. unfold dict_get.
    destruct (d !! "type") as [[| | |tag| |]|] eqn:Htype; simpl; try done.
    repeat (case_match; simpl in *; try done; simplify_eq);
      rewrite ?app_nil_r; try reflexivity; built_one_module.
Qed.

(** ** Edge behaviour of the chunked and the sequential paths *)

(** X3.  Chunked [encode_audio] and [decode_audio] called with an
    overlap equal to the chunk size have a hop size of zero: the window
    loop raises [ValueError] from [range], whatever the input and the
    model, before any window is cut and before the codec runs. *)
Theorem chunked_with_zero_hop_raises {A : Type} `{!Frame A}
    (self : AudioAutoencoder A) (x : tensor A) (chunk_size : Z) (kw : kwargs) :
  encode_audio self x true chunk_size chunk_size kw
    = (inl (ValueError "range() arg 3 must not be zero"), [])
  ∧ decode_audio self x true chunk_size chunk_size kw
    = (inl (ValueError "range() arg 3 must not be zero"), []).
Proof.
  unfold encode_audio, decode_audio, collect_chunks, py_range. simpl negb. cbv iota.
  rewrite !Z.sub_diag. done.
Qed.

(** X4.  On an empty batch the sequential path ([iterate_batch=True])
    fails where the batched path would call the modules on the empty
    tensor: the loop over the items produces nothing and [torch.cat]
    rejects the empty list.  [encode] fails so when it has an encoder, or
    a pretransform that is not skipped; [decode] fails so for every
    model, with or without bottleneck and decoder.  No module has
    run. *)
Theorem iterate_batch_on_empty_batch_raises {A : Type} `{!Frame A}
    (self : AudioAutoencoder A) (x : tensor A)
    (return_info skip_pretransform : bool) (kw : kwargs) :
  shape0 x = 0%nat →
  (is_Some (encoder self) ∨ (is_Some (pretransform self) ∧ skip_pretransform = false) →
   encode self x return_info skip_pretransform true kw = (inl EmptyTensorList, []))
  ∧ decode self x true kw = (inl EmptyTensorList, []).
Proof.
  intros Hx.
  assert (∀ name f, iterate name f (shape0 x) x = (inl EmptyTensorList, [])) as Hit.
  { intros name f. unfold iterate. by rewrite Hx. }
  split.
  - intros Hmod. unfold encode.
    destruct (pretransform self) as [pt|] eqn:Hpt, skip_pretransform; simpl negb; cbv iota.
    + destruct Hmod as [[enc Henc]|[_ [=]]]. rewrite Henc.
      rewrite bind_ret. by rewrite Hit.
    + destruct (enable_grad pt); by rewrite Hit.
    + destruct Hmod as [[enc Henc]|[[? [=]] _]]. rewrite Henc.
      rewrite bind_ret. by rewrite Hit.
    + destruct Hmod as [[enc Henc]|[[? [=]] _]]. rewrite Henc.
      rewrite bind_ret. by rewrite Hit.
  - unfold decode.
    destruct (bottleneck self) as [bn|] eqn:Hbn; [by rewrite Hit|].
    rewrite bind_ret.
    destruct (decoder self) as [dec|]; [by rewrite Hit|].
    by rewrite Hx.
Qed.

Lemma iterate_batch_on_empty_batch_raises_witness :
  (is_Some (encoder (toy.codec 2))
   ∨ (is_Some (pretransform (toy.codec 2)) ∧ false = false) →
   encode (toy.codec 2) (toy.ramp 0 8) false false true ∅ = (inl EmptyTensorList, []))
  ∧ decode (toy.codec 2) (toy.ramp 0 8) true ∅ = (inl EmptyTensorList, []).
Proof.
  apply (iterate_batch_on_empty_batch_raises (toy.codec 2) (toy.ramp 0 8) false false ∅).
  reflexivity.
Defined.

Lemma mapM_trace_Forall {X Y} (P : event → Prop) (f : X → M Y) xs :
  (∀ x, Forall P (trace (f x))) → Forall P (trace (mapM f xs)).
Proof.
  intros Hf. induction xs as [|x xs IH]; [by constructor|].
  simpl. apply trace_bind_Forall; [done|]. intros y.
  apply trace_bind_Forall; [done|]. intros ys. by constructor.
Qed.

Lemma iterate_trace_Forall {A : Type} `{!Frame A} (P : event → Prop) name
    (f : tensor A → tensor A) n x :
  (∀ b k, P (Forward name b k)) → Forall P (trace (iterate name f n x)).
Proof.
  intros HP. unfold iterate. apply trace_bind_Forall.
  - apply mapM_trace_Forall. intros i. unfold forward. rewrite bind_tell.
    constructor; [done|by constructor].
  - intros outs. unfold torch_cat. repeat case_match; by constructor.
Qed.

Lemma forward_calls_other name tr :
  Forall (λ ev, match ev with Forward m _ _ => m ≠ name | _ => True end) tr →
  forward_calls name tr = [].
Proof.
  induction 1 as [|ev tr Hev _ IH]; [done|].
  change (forward_calls name (ev :: tr)) with (forward_calls name ([ev] ++ tr)).
  rewrite forward_calls_app, IH, app_nil_r.
  destruct ev as [| m b k | |]; try done.
  unfold forward_calls. simpl. by destruct (String.eqb_spec m name).
Qed.

Lemma bind_fails {X Y} (m : M X) (f : X → M Y) :
  (∀ a, ∃ e, f a = (inl e, [])) →
  (∃ e, result (m ≫= f) = inl e) ∧ trace (m ≫= f) = trace m.
Proof.
  intros Hf. destruct m as [[e|a] l]; [by eauto|].
  destruct (Hf a) as [e He]. rewrite (bind_inr _ _ a l), He by done.
  simpl. rewrite app_nil_r. by eauto.
Qed.

(** X5.  [AudioAutoencoder.decode] cannot do without a decoder: when
    [self.decoder] is [None] it raises for every input, in the batched
    and in the sequential path, and neither a decoder nor the
    pretransform has run. *)
Theorem decode_without_decoder_raises {A : Type} `{!Frame A}
    (self : AudioAutoencoder A) (latents : tensor A) (iterate_batch : bool)
    (kw : kwargs) :
  decoder self = None →
  (∃ e, result (decode self latents iterate_batch kw) = inl e)
  ∧ forward_calls "decoder" (trace (decode self latents iterate_batch kw)) = []
  ∧ forward_calls "pretransform.decode" (trace (decode self latents iterate_batch kw)) = [].
Proof.
  intros Hdec. unfold decode. rewrite Hdec.
  match goal with
  | |- (∃ e, result (?m ≫= ?f) = inl e) ∧ _ =>
      destruct (bind_fails m f) as [Hres Htr];
        [intros a; destruct (iterate_batch && (shape0 a =? 0)%nat); by eexists|];
      assert (Forall (λ ev, match ev with
                            | Forward name _ _ => name = "bottleneck.decode"
                            | _ => False
                            end) (trace m)) as Hbn
  end.
  { destruct (bottleneck self) as [bn|]; [|by constructor].
    destruct iterate_batch; [by apply iterate_trace_Forall|].
    unfold forward. rewrite bind_tell. constructor; [done|by constructor]. }
  rewrite Htr. split; [done|].
  split; apply forward_calls_other; (eapply Forall_impl; [exact Hbn|]);
    intros [| m b k | |]; simpl; try done; by intros ->.
Qed.

Lemma decode_without_decoder_raises_witness :
  (∃ e, result (decode (DiffusionAutoencoder.base (toy_diffusion.model 2 false))
                  (toy.ramp 1 8) false ∅) = inl e)
  ∧ forward_calls "decoder"
      (trace (decode (DiffusionAutoencoder.base (toy_diffusion.model 2 false))
                (toy.ramp 1 8) false ∅)) = []
  ∧ forward_calls "pretransform.decode"
      (trace (decode (DiffusionAutoencoder.base (toy_diffusion.model 2 false))
                (toy.ramp 1 8) false ∅)) = [].
Proof.
  apply (decode_without_decoder_raises
           (DiffusionAutoencoder.base (toy_diffusion.model 2 false))
           (toy.ramp 1 8) false ∅).
  reflexivity.
Defined.

(** ** The diffusion decoder without a decoder module *)

(** X6.  A [DiffusionAutoencoder] without a decoder module decodes
    without taking a further stack frame: [decode] returns at every
    depth, after one call of the diffusion sampler, on noise of [latents.shape[2] *
    downsampling_ratio] frames conditioned on the latents, which are
    interpolated to that length when they do not have it. *)
Theorem diffusion_decode_without_decoder_samples_once {A : Type} `{!Frame A}
    (self : DiffusionAutoencoder.t A) (latents : tensor A) (steps : Z) (depth : nat) :
  decoder (DiffusionAutoencoder.base self) = None →
  let base := DiffusionAutoencoder.base self in
  let upsampled_length := Z.of_nat (shape2 latents) * downsampling_ratio base in
  let latents' :=
    match bottleneck base with Some bn => bn_decode bn latents | None => latents end in
  let cond :=
    if bool_decide (Z.of_nat (shape2 latents') = upsampled_length) then latents'
    else DiffusionAutoencoder.interpolate self latents' upsampled_length in
  let noise :=
    DiffusionAutoencoder.randn self (shape0 cond) (io_channels base) upsampled_length in
  let decoded := DiffusionAutoencoder.sample self noise steps cond in
  result (DiffusionAutoencoder.decode (S depth) self latents steps)
    = inr (match pretransform base with Some pt => pt_decode pt decoded | None => decoded end)
  ∧ forward_calls "diffusion"
      (trace (DiffusionAutoencoder.decode (S depth) self latents steps))
    = [(shape0 noise, shape2 noise)].
Proof.
  intros Hdec. cbn [DiffusionAutoencoder.decode]. rewrite Hdec.
  unfold forward, forward_calls, mbind, mret, M_bind, M_ret, bind, ret, tell, result, trace.
  destruct (bottleneck (DiffusionAutoencoder.base self)) as [bn|];
    destruct (pretransform (DiffusionAutoencoder.base self)) as [pt|];
    try destruct (enable_grad pt); simpl;
    repeat case_bool_decide; done.
Qed.

Lemma diffusion_decode_without_decoder_samples_once_witness :
  result (DiffusionAutoencoder.decode 1 (toy_diffusion.model 2 false) (toy.ramp 1 4) 100)
    = inr (toy.upsample 2 (toy.ramp 1 4))
  ∧ forward_calls "diffusion"
      (trace (DiffusionAutoencoder.decode 1 (toy_diffusion.model 2 false) (toy.ramp 1 4) 100))
    = [(1%nat, 8%nat)].
Proof.
  apply (diffusion_decode_without_decoder_samples_once
           (toy_diffusion.model 2 false) (toy.ramp 1 4) 100 0).
  reflexivity.
Defined.

(** ** What a successful [create_autoencoder_from_config] has done *)

(** X7.  When [create_autoencoder_from_config] returns, none of
    [latent_dim], [downsampling_ratio], [io_channels] and [sample_rate]
    it hands to [AudioAutoencoder] is [None], and what it has
    constructed is, in this order: the encoder that
    [create_encoder_from_config] builds from [model.encoder], the
    decoder that [create_decoder_from_config] builds from
    [model.decoder], what [create_pretransform_from_config] constructs
    when a pretransform is configured, what
    [create_bottleneck_from_config] constructs when a bottleneck is
    configured, and the autoencoder.  The model gets this encoder and
    this decoder, and a pretransform (a bottleneck) exactly when one is
    configured. *)
Theorem autoencoder_factory_success {Enc Dec Bn Pt : Type}
    (new_encoder : string → kwargs → exn + Enc)
    (new_decoder : string → kwargs → exn + Dec)
    (create_pretransform_from_config : pyval → pyval → M Pt)
    (create_bottleneck_from_config : pyval → M Bn)
    (config : pyval) (args : autoencoder_args) (l : list event) :
  create_autoencoder_from_config new_encoder new_decoder
    create_pretransform_from_config create_bottleneck_from_config config = (inr args, l) →
  is_none (arg_latent_dim args) = false
  ∧ is_none (arg_downsampling_ratio args) = false
  ∧ is_none (arg_io_channels args) = false
  ∧ is_none (arg_sample_rate args) = false
  ∧ ∃ config_d ae_config encoder_config decoder_config enc_cls dec_cls,
      config = PDict config_d
      ∧ config_d !! "model" = Some (PDict ae_config)
      ∧ ae_config !! "encoder" = Some encoder_config
      ∧ ae_config !! "decoder" = Some decoder_config
      ∧ create_encoder_from_config new_encoder encoder_config
        = (inr (arg_encoder args), [Construct enc_cls])
      ∧ create_decoder_from_config new_decoder decoder_config
        = (inr (arg_decoder args), [Construct dec_cls])
      ∧ let pretransform := dict_get ae_config "pretransform" PNone in
        let bottleneck := dict_get ae_config "bottleneck" PNone in
        let sample_rate := dict_get config_d "sample_rate" PNone in
        l = [Construct enc_cls; Construct dec_cls]
            ++ (if is_none pretransform then []
                else trace (create_pretransform_from_config pretransform sample_rate))
            ++ (if is_none bottleneck then []
                else trace (create_bottleneck_from_config bottleneck))
            ++ [Construct "AudioAutoencoder"]
        ∧ (arg_pretransform args = None ↔ is_none pretransform = true)
        ∧ (arg_bottleneck args = None ↔ is_none bottleneck = true).
Proof.
  unfold create_autoencoder_from_config.
  intros (config_d & l1 & l2 & (-> & ->)%as_dict_inv & H & ->)%bind_inr_inv.
  apply bind_inr_inv in H as (model & l3 & l4 & (Hmodel & ->)%dict_item_inv & H & ->).
  apply bind_inr_inv in H as (ae_config & l5 & l6 & (-> & ->)%as_dict_inv & H & ->).
  apply bind_inr_inv in H as (ec & l7 & l8 & (Hec & ->)%dict_item_inv & H & ->).
  apply bind_inr_inv in H as (e & l9 & l10 & He & H & ->).
  apply bind_inr_inv in H as (dc & l11 & l12 & (Hdc & ->)%dict_item_inv & H & ->).
  apply bind_inr_inv in H as (d & l13 & l14 & Hd & H & ->).
  apply bind_inr_inv in H as (u1 & l15 & l16 & (Hlat%negb_true_iff & ->)%assert_inv & H & ->).
  apply bind_inr_inv in H as (u2 & l17 & l18 & (Hdsr%negb_true_iff & ->)%assert_inv & H & ->).
  apply bind_inr_inv in H as (u3 & l19 & l20 & (Hio%negb_true_iff & ->)%assert_inv & H & ->).
  apply bind_inr_inv in H as (u4 & l21 & l22 & (Hsr%negb_true_iff & ->)%assert_inv & H & ->).
  apply bind_inr_inv in H as (pt & l_pt & l24 & Hpt & H & ->).
  apply bind_inr_inv in H as (bn & l_bn & l26 & Hbn & H & ->).
  apply bind_inr_inv in H as (dd & l27 & l28 & (_ & ->)%dict_of_get_inv & H & ->).
  rewrite bind_tell in H. injection H as <- <-.
  destruct (create_encoder_from_config_trace _ _ _ _ He) as [enc_cls ->].
  destruct (create_decoder_from_config_trace _ _ _ _ Hd) as [dec_cls ->].
  simpl. repeat (split; [done|]).
  exists config_d, ae_config, ec, dc, enc_cls, dec_cls.
  repeat (split; [done|]).
  assert (l_pt = (if is_none (dict_get ae_config "pretransform" PNone) then []
                  else trace (create_pretransform_from_config
                                (dict_get ae_config "pretransform" PNone)
                                (dict_get config_d "sample_rate" PNone)))
          ∧ (pt = None ↔ is_none (dict_get ae_config "pretransform" PNone) = true))
    as [-> Hpt_none].
  { destruct (is_none (dict_get ae_config "pretransform" PNone)); simpl in Hpt.
    - by injection Hpt as <- <-.
    - apply bind_inr_inv in Hpt as (p & lp & ? & Hp & [= <- <-] & ->).
      rewrite Hp. unfold trace. simpl. by rewrite app_nil_r. }
  assert (l_bn = (if is_none (dict_get ae_config "bottleneck" PNone) then []
                  else trace (create_bottleneck_from_config
                                (dict_get ae_config "bottleneck" PNone)))
          ∧ (bn = None ↔ is_none (dict_get ae_config "bottleneck" PNone) = true))
    as [-> Hbn_none].
  { destruct (is_none (dict_get ae_config "bottleneck" PNone)); simpl in Hbn.
    - by injection Hbn as <- <-.
    - apply bind_inr_inv in Hbn as (b & lb & ? & Hb & [= <- <-] & ->).
      rewrite Hb. unfold trace. simpl. by rewrite app_nil_r. }
  done.
Qed.

Lemma autoencoder_factory_success_witness :
  ∃ args,
    toy_factory.create (PDict toy_factory_complete.config)
    = (inr args,
       [Construct "OobleckEncoder"; Construct "OobleckDecoder"; Construct "Pretransform";
        Construct "Bottleneck"; Construct "AudioAutoencoder"])
    ∧ is_none (arg_latent_dim args) = false
    ∧ is_none (arg_downsampling_ratio args) = false
    ∧ is_none (arg_io_channels args) = false
    ∧ is_none (arg_sample_rate args) = false.
Proof.
  eexists. split; [by vm_compute|].
  destruct (autoencoder_factory_success toy_factory.new_module toy_factory.new_module
              toy_factory.create_pretransform toy_factory.create_bottleneck
              (PDict toy_factory_complete.config) _ _ eq_refl)
    as (Hlat & Hdsr & Hio & Hsr & _).
  by repeat split.
Defined.

(** ** Preparing audio for the encoder *)

Lemma foldM_seqZ_inv {St} (body : Z → St → M St) (P : Z → St → Prop) (n : nat) a s0 s' l :
  P a s0 →
  (∀ i s1 s2 l1, a ≤ i < a + Z.of_nat n → P i s1 → body i s1 = (inr s2, l1) → P (i + 1) s2) →
  foldM body (seqZ a (Z.of_nat n)) s0 = (inr s', l) → P (a + Z.of_nat n) s'.
Proof.
  revert a s0 l. induction n as [|n IH]; intros a s0 l H0 Hstep.
  - simpl. intros [= <- _]. by rewrite Z.add_0_r.
  - rewrite seqZ_cons by lia. simpl foldM.
    intros (s1 & l1 & l2 & Hs1 & Hrest & _)%bind_inr_inv.
    replace (Z.pred (Z.of_nat (S n))) with (Z.of_nat n) in Hrest by lia.
    replace (a + Z.of_nat (S n)) with (Z.succ a + Z.of_nat n) by lia.
    eapply IH; [| |exact Hrest].
    + replace (Z.succ a) with (a + 1) by lia. eapply Hstep; [lia|done..].
    + intros i s2 s3 l3 Hi. apply Hstep. lia.
Qed.

Lemma padded_audio_length_least m max_length :
  0 < m →
  let L := max_length + (m - max_length `mod` m) `mod` m in
  (m | L) ∧ max_length ≤ L ∧ ∀ L', (m | L') → max_length ≤ L' → L ≤ L'.
Proof.
  intros Hm L.
  pose proof (Z.mod_pos_bound max_length m Hm) as Hr.
  pose proof (Z.div_mod max_length m ltac:(lia)) as Hdm.
  assert (L = m * (max_length `div` m) + (if decide (max_length `mod` m = 0) then 0 else m))
    as HL.
  { unfold L. case_decide as H0.
    - rewrite H0, Z.sub_0_r, Z.mod_same by lia. lia.
    - rewrite Z.mod_small by lia. lia. }
  split; [|split].
  - rewrite HL. case_decide.
    + exists (max_length `div` m). lia.
    + exists (max_length `div` m + 1). lia.
  - rewrite HL. case_decide; lia.
  - intros L' [q ->] Hq. rewrite HL.
    set (d := max_length `div` m) in *. set (r := max_length `mod` m) in *.
    case_decide.
    + lia.
    + assert (d < q) by nia. nia.
Qed.

Section preprocess_facts.
Context {A : Type}.
Variable resample : Z → Z → ndarray A → ndarray A.
Variable prepare_audio : ndarray A → Z → Z → Z → Z → ndarray A.
Variable self : encoder_input_format.

Lemma list_item_inv {X} (xs : list X) i x l :
  list_item xs i = (inr x, l) → xs !! Z.to_nat i = Some x ∧ l = [].
Proof. unfold list_item. destruct (xs !! Z.to_nat i); [|done]. by intros [= -> <-]. Qed.

Lemma last_dim_inv (t : ndarray A) len l :
  last_dim t = (inr len, l) → nd_length t = len ∧ 0 ≤ len.
Proof.
  unfold last_dim, nd_length. destruct (last (nd_shape t)); [|done].
  intros [= <- _]. simpl. lia.
Qed.

Lemma to_channels_by_length_accepts audio sr a l :
  to_channels_by_length resample self audio sr = (inr a, l) →
  accepted_shape (nd_shape audio).
Proof.
  unfold to_channels_by_length, accepted_shape.
  destruct (Nat.eqb_spec (length (nd_shape audio)) 3) as [H3|H3]; simpl andb.
  - destruct (decide (nd_shape audio !! 0%nat = Some 1%nat)) as [H1|H1]; [auto|].
    rewrite (bool_decide_eq_false_2 _ H1), H3.
    intros (? & ? & ? & Hc & _)%bind_inr_inv. apply assert_inv in Hc as [Hc _]. simpl in Hc. by rewrite H3 in Hc.
  - destruct (Nat.eqb_spec (length (nd_shape audio)) 1) as [H1|H1]; [auto|].
    intros (? & ? & ? & (Hc%Nat.eqb_eq & _)%assert_inv & _)%bind_inr_inv. auto.
Qed.

(** The first loop: the items in order, their greatest length, and the
    sample rate of the last one. *)
Lemma resample_loop audio_list srs s l :
  length srs = length audio_list →
  foldM (resample_step resample self audio_list srs)
    (seqZ 0 (Z.of_nat (length audio_list))) (Resampled [] 0 None) = (inr s, l) →
  Forall2 (λ p a, result (to_channels_by_length resample self p.1 p.2) = inr a)
    (zip audio_list srs) (new_audio s)
  ∧ 0 ≤ max_length s
  ∧ Forall (λ a, nd_length a ≤ max_length s) (new_audio s)
  ∧ (max_length s = 0 ∨ ∃ a, a ∈ new_audio s ∧ nd_length a = max_length s)
  ∧ in_sr s = last srs.
Proof.
  intros Hlen Hrun.
  pose (P := λ (i : Z) (s : resampled (A:=A)),
    Forall2 (λ p a, result (to_channels_by_length resample self p.1 p.2) = inr a)
      (take (Z.to_nat i) (zip audio_list srs)) (new_audio s)
    ∧ 0 ≤ max_length s
    ∧ Forall (λ a, nd_length a ≤ max_length s) (new_audio s)
    ∧ (max_length s = 0 ∨ ∃ a, a ∈ new_audio s ∧ nd_length a = max_length s)
    ∧ in_sr s = last (take (Z.to_nat i) srs)).
  assert (P (0 + Z.of_nat (length audio_list)) s) as (H1 & H2 & H3 & H4 & H5).
  { eapply (foldM_seqZ_inv _ P); [| |exact Hrun].
    - unfold P. simpl. repeat split; auto. lia.
    - clear s l Hrun. intros i s1 s2 l1 Hi (I1 & I2 & I3 & I4 & I5).
      unfold resample_step.
      intros (audio & ? & ? & (Haudio & _)%list_item_inv & H & _)%bind_inr_inv.
      apply bind_inr_inv in H as (sr & ? & ? & (Hsr & _)%list_item_inv & H & _).
      apply bind_inr_inv in H as (a & la & ? & Ha & H & _).
      apply bind_inr_inv in H as (len & ? & ? & (Hlen_a & Hpos)%last_dim_inv & [= <- _] & _).
      unfold P. cbn [new_audio max_length in_sr].
      replace (Z.to_nat (i + 1)) with (S (Z.to_nat i)) by lia.
      assert (zip audio_list srs !! Z.to_nat i = Some (audio, sr)) as Hzip.
      { apply lookup_zip_with_Some. by exists audio, sr. }
      rewrite (take_S_r _ _ _ Hzip), (take_S_r _ _ _ Hsr), last_snoc.
      split; [|split; [|split; [|split]]].
      + apply Forall2_app; [done|]. constructor; [|done]. simpl. by rewrite Ha.
      + case_match; lia.
      + apply Forall_app. split.
        * eapply Forall_impl; [exact I3|]. simpl. intros ??. case_match; lia.
        * constructor; [|done]. case_match; lia.
      + destruct (Z.ltb_spec (max_length s1) len) as [Hlt|Hge].
        * right. exists a. split; [|done]. apply elem_of_app. right. by left.
        * destruct I4 as [I4|(a' & Hin & Ha')]; [by left|].
          right. exists a'. split; [|done]. apply elem_of_app. by left.
      + done. }
  rewrite Z.add_0_l, Nat2Z.id in H1, H5.
  rewrite take_ge in H1 by (rewrite length_zip_with; lia).
  rewrite take_ge in H5 by lia. done.
Qed.

(** The second loop replaces every item by its padded version. *)
Lemma pad_loop sr L (xs s : list (ndarray A)) l :
  foldM (pad_step prepare_audio self (Some sr) L) (seqZ 0 (Z.of_nat (length xs))) xs
    = (inr s, l) →
  s = (λ a, squeeze0 (prepare_audio a sr sr L (in_channels self))) <$> xs.
Proof.
  set (f := λ a, squeeze0 (prepare_audio a sr sr L (in_channels self))).
  intros Hrun.
  pose (P := λ (i : Z) (s : list (ndarray A)),
    s = (f <$> take (Z.to_nat i) xs) ++ drop (Z.to_nat i) xs).
  assert (P (0 + Z.of_nat (length xs)) s) as HP.
  { eapply (foldM_seqZ_inv _ P); [| |exact Hrun]; [done|].
    clear s l Hrun. intros i s1 s2 l1 Hi ->. unfold pad_step.
    intros (audio & ? & ? & (Haudio & _)%list_item_inv & H & _)%bind_inr_inv.
    rewrite bind_ret in H. injection H as <- _.
    unfold P.
    replace (Z.to_nat (i + 1)) with (S (Z.to_nat i)) by lia.
    set (k := Z.to_nat i) in *.
    assert (length (f <$> take k xs) = k) as Hk
      by (rewrite length_fmap, length_take; lia).
    rewrite lookup_app_r, Hk, Nat.sub_diag, lookup_drop, Nat.add_0_r in Haudio by lia.
    rewrite (take_S_r _ _ _ Haudio), fmap_app, <- (assoc_L (++)).
    rewrite insert_app_r_alt, Hk, Nat.sub_diag by lia.
    by rewrite (drop_S _ _ _ Haudio). }
  unfold P in HP. rewrite Z.add_0_l, Nat2Z.id, take_ge, drop_ge, app_nil_r in HP by lia.
  done.
Qed.

Lemma nd_stack_inv (ts : list (ndarray A)) out l :
  nd_stack ts = (inr out, l) →
  ts ≠ [] ∧ ∃ shape, nd_shape out = length ts :: shape
                     ∧ Forall (λ t, nd_shape t = shape) ts.
Proof.
  unfold nd_stack. destruct ts as [|t rest]; [done|].
  destruct (forallb _ rest) eqn:Hall; [|done]. intros [= <- _].
  split; [done|]. exists (nd_shape t). split; [done|].
  constructor; [done|]. apply Is_true_true, forallb_True in Hall.
  eapply Forall_impl; [exact Hall|]. intros u Hu. by apply bool_decide_unpack in Hu.
Qed.

(** How a successful run decomposes *)
Lemma preprocess_run audio_list in_sr_list out l :
  preprocess_audio_list_for_encoder resample prepare_audio self audio_list in_sr_list
    = (inr out, l) →
  let srs := sample_rates (length audio_list) in_sr_list in
  length srs = length audio_list
  ∧ min_length self ≠ 0
  ∧ ∃ s sr l1,
      foldM (resample_step resample self audio_list srs)
        (seqZ 0 (Z.of_nat (length audio_list))) (Resampled [] 0 None) = (inr s, l1)
      ∧ last srs = Some sr
      ∧ length (new_audio s) = length audio_list
      ∧ result (nd_stack
          ((λ a, squeeze0 (prepare_audio a sr sr
                             (max_length s + (min_length self
                                              - max_length s `mod` min_length self)
                                             `mod` min_length self)
                             (in_channels self))) <$> new_audio s))
        = inr out.
Proof.
  unfold preprocess_audio_list_for_encoder.
  fold (sample_rates (length audio_list) in_sr_list).
  set (srs := sample_rates (length audio_list) in_sr_list). intros H. simpl.
  apply bind_inr_inv in H as (? & ? & ? & (Hlen%Nat.eqb_eq & _)%assert_inv & H & _).
  apply bind_inr_inv in H as (s & l1 & ? & Hloop & H & _).
  apply bind_inr_inv in H as (L & ? & ? & HL & H & _).
  apply bind_inr_inv in H as (padded & ? & ? & Hpad & Hstack & _).
  unfold padded_audio_length in HL.
  destruct (Z.eqb_spec (min_length self) 0) as [|Hmin]; [done|]. injection HL as <- _.
  split; [done|]. split; [done|].
  destruct (resample_loop audio_list srs s l1 Hlen Hloop) as (Hitems & _ & _ & _ & Hsr).
  assert (length (new_audio s) = length audio_list) as Hn.
  { apply Forall2_length in Hitems. rewrite length_zip_with in Hitems. lia. }
  destruct (last srs) as [sr|] eqn:Hlast.
  - exists s, sr, l1. repeat (split; [done|]).
    rewrite Hsr, <- Hn in Hpad. apply pad_loop in Hpad as ->. by rewrite Hstack.
  - apply last_None in Hlast. rewrite Hlast in Hlen. simpl in Hlen.
    rewrite <- Hlen in Hpad, Hn. simpl in Hpad. injection Hpad as <- _.
    destruct (new_audio s); [done|done].
Qed.
End preprocess_facts.

(** X8.  When the model's [min_length] is positive and
    [preprocess_audio_list_for_encoder] returns, every item was handed
    to [prepare_audio] with one and the same target length: the least
    multiple of [min_length] that is at least the length of every item
    (after its shape was normalised and it was resampled).  The batch
    is the stack of the prepared items; all of them were prepared with
    the sample rate of the last item as both source and target rate. *)
Theorem padded_to_least_multiple_of_min_length {A : Type}
    (resample : Z → Z → ndarray A → ndarray A)
    (prepare_audio : ndarray A → Z → Z → Z → Z → ndarray A)
    (self : encoder_input_format) (audio_list : list (ndarray A))
    (in_sr_list : Z + list Z) (out : ndarray A) (l : list event) :
  0 < min_length self →
  preprocess_audio_list_for_encoder resample prepare_audio self audio_list in_sr_list
    = (inr out, l) →
  ∃ items L sr,
    Forall2 (λ p a, result (to_channels_by_length resample self p.1 p.2) = inr a)
      (zip audio_list (sample_rates (length audio_list) in_sr_list)) items
    ∧ last (sample_rates (length audio_list) in_sr_list) = Some sr
    ∧ result (nd_stack ((λ a, squeeze0 (prepare_audio a sr sr L (in_channels self)))
                          <$> items)) = inr out
    ∧ (min_length self | L)
    ∧ Forall (λ a, nd_length a ≤ L) items
    ∧ ∀ L', (min_length self | L') → Forall (λ a, nd_length a ≤ L') items → L ≤ L'.
Proof.
  intros Hmin Hrun.
  destruct (preprocess_run _ _ _ _ _ _ _ Hrun)
    as (Hlen & _ & s & sr & l1 & Hloop & Hlast & Hn & Hstack).
  destruct (resample_loop _ _ _ _ _ _ Hlen Hloop) as (Hitems & Hpos & Hall & Hmax & _).
  destruct (padded_audio_length_least (min_length self) (max_length s) Hmin)
    as (Hdiv & Hle & Hleast).
  exists (new_audio s); eexists; exists sr.
  split; [exact Hitems|]. split; [exact Hlast|]. split; [exact Hstack|].
  split; [exact Hdiv|]. split.
  - eapply Forall_impl; [exact Hall|]. simpl. intros a Ha. lia.
  - intros L' HL' Hall'. apply Hleast; [done|].
    destruct Hmax as [->|(a & Hin & <-)].
    + destruct (new_audio s) as [|a rest] eqn:Hitems_eq.
      * simpl in Hn. destruct audio_list; [|done].
        simpl in Hlen, Hlast. apply length_zero_iff_nil in Hlen.
        by rewrite Hlen in Hlast.
      * apply Forall_cons in Hall' as [Ha _].
        unfold nd_length in Ha. destruct (last (nd_shape a)); simpl in Ha; lia.
    + by eapply Forall_forall in Hall'.
Qed.

Lemma padded_to_least_multiple_of_min_length_witness :
  ∃ items L sr,
    Forall2 (λ p a, result (to_channels_by_length toy_preprocess.resample
                              toy_preprocess.format p.1 p.2) = inr a)
      (zip toy_preprocess.audio_list (sample_rates 2 (inl 44100))) items
    ∧ last (sample_rates 2 (inl 44100)) = Some sr
    ∧ result (nd_stack ((λ a, squeeze0 (toy_preprocess.prepare_audio a sr sr L 2))
                          <$> items))
      = inr (NdArray [2%nat; 2%nat; 8%nat] (replicate 32 0))
    ∧ (4 | L)
    ∧ Forall (λ a, nd_length a ≤ L) items
    ∧ ∀ L', (4 | L') → Forall (λ a, nd_length a ≤ L') items → L ≤ L'.
Proof.
  apply (padded_to_least_multiple_of_min_length toy_preprocess.resample
           toy_preprocess.prepare_audio toy_preprocess.format
           toy_preprocess.audio_list (inl 44100)
           (NdArray [2%nat; 2%nat; 8%nat] (replicate 32 0)) []).
  - reflexivity.
  - reflexivity.
Defined.

(** X9.  [preprocess_audio_list_for_encoder] returns only for a
    non-empty list of items ([torch.stack] rejects the empty list), with
    as many sample rates as items, each item of shape (length),
    (channels, length) or (1, channels, length), and a non-zero
    [min_length]; the batch it returns has one entry per item. *)
Theorem preprocess_returns_only_for_accepted_input {A : Type}
    (resample : Z → Z → ndarray A → ndarray A)
    (prepare_audio : ndarray A → Z → Z → Z → Z → ndarray A)
    (self : encoder_input_format) (audio_list : list (ndarray A))
    (in_sr_list : Z + list Z) (out : ndarray A) (l : list event) :
  preprocess_audio_list_for_encoder resample prepare_audio self audio_list in_sr_list
    = (inr out, l) →
  audio_list ≠ []
  ∧ length (sample_rates (length audio_list) in_sr_list) = length audio_list
  ∧ Forall (λ audio, accepted_shape (nd_shape audio)) audio_list
  ∧ min_length self ≠ 0
  ∧ nd_shape out !! 0%nat = Some (length audio_list).
Proof.
  intros Hrun.
  destruct (preprocess_run _ _ _ _ _ _ _ Hrun)
    as (Hlen & Hmin & s & sr & l1 & Hloop & Hlast & Hn & Hstack).
  destruct (resample_loop _ _ _ _ _ _ Hlen Hloop) as (Hitems & _).
  split; [|split; [done|split; [|split; [done|]]]].
  - intros ->. simpl in Hlen, Hlast. apply length_zero_iff_nil in Hlen.
    by rewrite Hlen in Hlast.
  - apply Forall_lookup. intros k audio Hk.
    destruct (lookup_lt_is_Some_2 (sample_rates (length audio_list) in_sr_list) k)
      as [sr_k Hsr]; [apply lookup_lt_Some in Hk; lia|].
    assert (zip audio_list (sample_rates (length audio_list) in_sr_list) !! k
            = Some (audio, sr_k)) as Hzip.
    { apply lookup_zip_with_Some. by exists audio, sr_k. }
    destruct (Forall2_lookup_l _ _ _ _ _ Hitems Hzip) as (a & _ & Ha).
    simpl in Ha.
    destruct (to_channels_by_length resample self audio sr_k) as [r la] eqn:Hto.
    simpl in Ha. subst r. by eapply to_channels_by_length_accepts.
  - destruct (nd_stack _) as [r ls] eqn:Hst. simpl in Hstack. subst r.
    apply nd_stack_inv in Hst as (_ & shape & -> & _).
    simpl. by rewrite length_fmap, Hn.
Qed.

Lemma preprocess_returns_only_for_accepted_input_witness :
  toy_preprocess.audio_list ≠ []
  ∧ length (sample_rates (length toy_preprocess.audio_list) (inl 44100))
    = length toy_preprocess.audio_list
  ∧ Forall (λ audio, accepted_shape (nd_shape audio)) toy_preprocess.audio_list
  ∧ min_length toy_preprocess.format ≠ 0
  ∧ nd_shape (NdArray [2%nat; 2%nat; 8%nat] (replicate 32 0)) !! 0%nat
    = Some (length toy_preprocess.audio_list).
Proof.
  apply (preprocess_returns_only_for_accepted_input toy_preprocess.resample
           toy_preprocess.prepare_audio toy_preprocess.format
           toy_preprocess.audio_list (inl 44100)
           (NdArray [2%nat; 2%nat; 8%nat] (replicate 32 0)) []).
  reflexivity.
Defined.

(** ** Rounding up to a multiple of 64 *)

(** X10.  For every integer [n], negative ones included,
    [next_multiple_of_64 n] is the least multiple of 64 that is at
    least [n]; it is the length [padded_audio_length] computes for a
    [min_length] of 64. *)
Theorem next_multiple_of_64_least (n : Z) :
  (64 | next_multiple_of_64 n)
  ∧ n ≤ next_multiple_of_64 n < n + 64
  ∧ (∀ m, (64 | m) → n ≤ m → next_multiple_of_64 n ≤ m)
  ∧ padded_audio_length {| sample_rate := 0; min_length := 64; in_channels := 0 |} n
    = mret (next_multiple_of_64 n).
Proof.
  unfold next_multiple_of_64, padded_audio_length. simpl.
  pose proof (Z.div_mod (n + 63) 64 ltac:(lia)) as Hdm.
  pose proof (Z.mod_pos_bound (n + 63) 64 ltac:(lia)) as Hr.
  split; [by apply Z.divide_factor_r|]. split; [lia|]. split.
  - intros m [q ->] Hq. lia.
  - f_equal.
    destruct (padded_audio_length_least 64 n ltac:(lia)) as ([q Hq] & Hle & Hleast).
    pose proof (Z.mod_pos_bound (64 - n `mod` 64) 64 ltac:(lia)) as Hr'.
    lia.
Qed.

(** ** The factory of diffusion autoencoders *)

Section diffusion_factory_facts.
Context {Enc Dec Bn Pt Dif : Type}.
Variable new_encoder : string → kwargs → exn + Enc.
Variable new_decoder : string → kwargs → exn + Dec.
Variable create_pretransform_from_config : pyval → pyval → M Pt.
Variable create_bottleneck_from_config : pyval → M Bn.
Variable new_diffusion : string → kwargs → exn + Dif.
Variable np_prod : pyval → M pyval.

Lemma subscript_inv v key x l :
  subscript v key = (inr x, l) → ∃ d, v = PDict d ∧ d !! key = Some x ∧ l = [].
Proof.
  unfold subscript.
  intros (d & ? & ? & (-> & ->)%as_dict_inv & (Hx & ->)%dict_item_inv & ->)%bind_inr_inv.
  by exists d.
Qed.

Lemma diffusion_from_config_inv cls diffae_config m l :
  diffusion_from_config new_diffusion cls diffae_config = (inr m, l) →
  l = [Construct cls].
Proof.
  unfold diffusion_from_config.
  intros (s & ? & ? & (_ & ->)%dict_item_inv & H & ->)%bind_inr_inv.
  apply bind_inr_inv in H as (c & ? & ? & (? & _ & _ & ->)%subscript_inv & H & ->).
  apply bind_inr_inv in H as (kw & ? & ? & (_ & ->)%as_dict_inv & H & ->).
  by apply construct_inv in H as ->.
Qed.

(** The diffusion wrapper a successful run has built *)
Lemma diffusion_branch_inv ty diffae_config (dif : option Dif) l :
  (if is_str ty "DAU1d" then
     d ← diffusion_from_config new_diffusion "DAU1DCondWrapper" diffae_config; mret (Some d)
   else if is_str ty "adp_1d" then
     d ← diffusion_from_config new_diffusion "UNet1DCondWrapper" diffae_config; mret (Some d)
   else if is_str ty "dit" then
     d ← diffusion_from_config new_diffusion "DiTWrapper" diffae_config; mret (Some d)
   else mret None) = (inr dif, l) →
  match dif with
  | Some _ => ∃ tag cls, ty = PStr tag ∧ diffusion_class tag = Some cls ∧ l = [Construct cls]
  | None => l = []
  end.
Proof.
  unfold diffusion_class.
  destruct ty as [| | |tag| |]; simpl; try by intros [= <- <-].
  destruct (String.eqb tag "DAU1d") eqn:E1;
    [|destruct (String.eqb tag "adp_1d") eqn:E2;
      [|destruct (String.eqb tag "dit") eqn:E3; [|by intros [= <- <-]]]].
  all: intros (m & ? & ? & ->%diffusion_from_config_inv & [= <- <-] & ->)%bind_inr_inv.
  all: exists tag; eexists; by rewrite ?E1, ?E2, ?E3.
Qed.
End diffusion_factory_facts.

(** X11.  [create_diffAE_from_config] returns only for the diffusion
    types [DAU1d], [adp_1d] and [dit]: it has then constructed the
    wrapper class of that type, and the [DiffusionAutoencoder] last.
    The encoder and the decoder are optional: each is [None] exactly
    when the model section has no such key.  The four required values
    are not [None]. *)
Theorem diffusion_factory_success {Enc Dec Bn Pt Dif : Type}
    (new_encoder : string → kwargs → exn + Enc)
    (new_decoder : string → kwargs → exn + Dec)
    (create_pretransform_from_config : pyval → pyval → M Pt)
    (create_bottleneck_from_config : pyval → M Bn)
    (new_diffusion : string → kwargs → exn + Dif)
    (np_prod : pyval → M pyval)
    (config : pyval) (args : diffusion_autoencoder_args) (l : list event) :
  create_diffAE_from_config new_encoder new_decoder create_pretransform_from_config
    create_bottleneck_from_config new_diffusion np_prod config = (inr args, l) →
  ∃ config_d diffae_config section tag cls,
    config = PDict config_d
    ∧ config_d !! "model" = Some (PDict diffae_config)
    ∧ diffae_config !! "diffusion" = Some (PDict section)
    ∧ section !! "type" = Some (PStr tag)
    ∧ diffusion_class tag = Some cls
    ∧ Construct cls ∈ l
    ∧ last l = Some (Construct "DiffusionAutoencoder")
    ∧ (dae_encoder args = None ↔ diffae_config !! "encoder" = None)
    ∧ (dae_decoder args = None ↔ diffae_config !! "decoder" = None)
    ∧ first_missing config_d diffae_config = None.
Proof.
  unfold create_diffAE_from_config.
  intros (config_d & ? & ? & (-> & ->)%as_dict_inv & H & ->)%bind_inr_inv.
  apply bind_inr_inv in H as (model & ? & ? & (Hmodel & ->)%dict_item_inv & H & ->).
  apply bind_inr_inv in H as (diffae_config & ? & ? & (-> & ->)%as_dict_inv & H & ->).
  apply bind_inr_inv in H as (enc & l_enc & ? & Henc & H & ->).
  apply bind_inr_inv in H as (dec & l_dec & ? & Hdec & H & ->).
  apply bind_inr_inv in H as (section & ? & ? & (Hsection & ->)%dict_item_inv & H & ->).
  apply bind_inr_inv in H
    as (ty & ? & ? & (section_d & -> & Hty & ->)%subscript_inv & H & ->).
  apply bind_inr_inv in H as (dif & l_dif & ? & Hdif%diffusion_branch_inv & H & ->).
  apply bind_inr_inv in H as (? & ? & ? & (Hlat%negb_true_iff & ->)%assert_inv & H & ->).
  apply bind_inr_inv in H as (? & ? & ? & (Hdsr%negb_true_iff & ->)%assert_inv & H & ->).
  apply bind_inr_inv in H as (? & ? & ? & (Hio%negb_true_iff & ->)%assert_inv & H & ->).
  apply bind_inr_inv in H as (? & ? & ? & (Hsr%negb_true_iff & ->)%assert_inv & H & ->).
  apply bind_inr_inv in H as (pt & l_pt & ? & Hpt & H & ->).
  apply bind_inr_inv in H as (bn & l_bn & ? & Hbn & H & ->).
  apply bind_inr_inv in H as (ratio & l_ratio & ? & Hratio & H & ->).
  apply bind_inr_inv in H as (d & ? & ? & Hd & H & ->).
  destruct dif as [d'|]; [|done]. injection Hd as <- <-.
  destruct Hdif as (tag & cls & -> & Hcls & ->).
  rewrite bind_tell in H. injection H as <- <-.
  exists config_d, diffae_config, section_d, tag, cls.
  split_and!; try done; simpl.
  - rewrite !elem_of_app, elem_of_cons. auto.
  - rewrite app_comm_cons, !app_assoc. apply last_snoc.
  - destruct (diffae_config !! "encoder"); [|by injection Henc as <-].
    apply bind_inr_inv in Henc as (? & ? & ? & _ & [= <- _] & _). done.
  - destruct (diffae_config !! "decoder"); [|by injection Hdec as <-].
    apply bind_inr_inv in Hdec as (? & ? & ? & _ & [= <- _] & _). done.
  - unfold first_missing. by rewrite Hlat, Hdsr, Hio, Hsr.
Qed.

Lemma diffusion_factory_success_witness :
  ∃ config_d diffae_config section tag cls,
    PDict (toy_diffusion_factory.config "dit") = PDict config_d
    ∧ config_d !! "model" = Some (PDict diffae_config)
    ∧ diffae_config !! "diffusion" = Some (PDict section)
    ∧ section !! "type" = Some (PStr tag)
    ∧ diffusion_class tag = Some cls
    ∧ Construct cls ∈ [Construct "DiTWrapper"; Construct "DiffusionAutoencoder"]
    ∧ last [Construct "DiTWrapper"; Construct "DiffusionAutoencoder"]
      = Some (Construct "DiffusionAutoencoder")
    ∧ ((None : option (built string)) = None ↔ diffae_config !! "encoder" = None)
    ∧ ((None : option (built string)) = None ↔ diffae_config !! "decoder" = None)
    ∧ first_missing config_d diffae_config = None.
Proof.
  eapply (diffusion_factory_success toy_factory.new_module toy_factory.new_module
            toy_factory.create_pretransform toy_factory.create_bottleneck
            toy_factory.new_module toy_diffusion_factory.np_prod
            (PDict (toy_diffusion_factory.config "dit"))
            {| dae_encoder := None; dae_decoder := None; dae_diffusion := "DiTWrapper";
               dae_io_channels := PInt 2; dae_sample_rate := PInt 44100;
               dae_latent_dim := PInt 64; dae_downsampling_ratio := PInt 2048;
               dae_diffusion_downsampling_ratio := PInt 1;
               dae_bottleneck := None; dae_pretransform := None |}).
  by vm_compute.
Defined.

(** X12.  A diffusion type other than the three is not reported as
    such: on a configuration that is complete otherwise (here without
    encoder, decoder, pretransform and bottleneck)
    [create_diffAE_from_config] raises [UnboundLocalError] for its local
    variable [diffusion], having constructed nothing. *)
Theorem unknown_diffusion_type_raises_unbound_local {Enc Dec Bn Pt Dif : Type}
    (new_encoder : string → kwargs → exn + Enc)
    (new_decoder : string → kwargs → exn + Dec)
    (create_pretransform_from_config : pyval → pyval → M Pt)
    (create_bottleneck_from_config : pyval → M Bn)
    (new_diffusion : string → kwargs → exn + Dif)
    (np_prod : pyval → M pyval)
    (config diffae_config section : gmap string pyval) (ty : pyval) :
  config !! "model" = Some (PDict diffae_config) →
  diffae_config !! "encoder" = None →
  diffae_config !! "decoder" = None →
  diffae_config !! "diffusion" = Some (PDict section) →
  section !! "type" = Some ty →
  (∀ tag, ty = PStr tag → diffusion_class tag = None) →
  first_missing config diffae_config = None →
  diffae_config !! "pretransform" = None →
  diffae_config !! "bottleneck" = None →
  create_diffAE_from_config new_encoder new_decoder create_pretransform_from_config
    create_bottleneck_from_config new_diffusion np_prod (PDict config)
  = (inl (UnboundLocalError "diffusion"), []).
Proof.
  intros Hmodel Henc Hdec Hsection Hty Hunknown Hmissing Hpt Hbn.
  assert (is_str ty "DAU1d" = false ∧ is_str ty "adp_1d" = false
          ∧ is_str ty "dit" = false) as (H1 & H2 & H3).
  { destruct ty as [| | |tag| |]; try done.
    specialize (Hunknown tag eq_refl). unfold diffusion_class in Hunknown. simpl.
    repeat case_match; done. }
  unfold first_missing in Hmissing.
  destruct (is_none (dict_get diffae_config "latent_dim" PNone)) eqn:Hlat; [done|].
  destruct (is_none (dict_get diffae_config "downsampling_ratio" PNone)) eqn:Hdsr; [done|].
  destruct (is_none (dict_get diffae_config "io_channels" PNone)) eqn:Hio; [done|].
  destruct (is_none (dict_get config "sample_rate" PNone)) eqn:Hsr; [done|].
  unfold create_diffAE_from_config, subscript, dict_item, as_dict, assert,
    mbind, M_bind, bind, mret, M_ret, ret, raise, tell.
  rewrite Hmodel, Henc, Hdec, Hsection, Hty, H1, H2, H3, Hlat, Hdsr, Hio, Hsr.
  unfold dict_get. by rewrite Hpt, Hbn.
Qed.

Lemma unknown_diffusion_type_raises_unbound_local_witness :
  toy_diffusion_factory.create (PDict (toy_diffusion_factory.config "unet"))
  = (inl (UnboundLocalError "diffusion"), []).
Proof.
  apply (unknown_diffusion_type_raises_unbound_local
           toy_factory.new_module toy_factory.new_module
           toy_factory.create_pretransform toy_factory.create_bottleneck
           toy_factory.new_module toy_diffusion_factory.np_prod
           (toy_diffusion_factory.config "unet")
           (toy_diffusion_factory.model_config "unet")
           {[ "type" := PStr "unet"; "config" := PDict ∅ ]} (PStr "unet")).
  - by vm_compute.
  - by vm_compute.
  - by vm_compute.
  - by vm_compute.
  - by vm_compute.
  - intros tag [= <-]. by vm_compute.
  - by vm_compute.
  - by vm_compute.
  - by vm_compute.
Defined.

(** ** Lengths through the Oobleck encoder and decoder *)

Lemma Sequential_step (l : layer) ls x y :
  l x = mret y → Sequential (l :: ls) x = Sequential ls y.
Proof. intros Hl. unfold Sequential. simpl. by rewrite Hl, bind_ret. Qed.

Lemma Sequential_raise (l : layer) ls x e :
  l x = raise e → Sequential (l :: ls) x = raise e.
Proof. intros Hl. unfold Sequential. simpl. by rewrite Hl. Qed.

Lemma padding_fits_mono padding_mode p p' L L' :
  padding_fits padding_mode p L → p' ≤ p → L ≤ L' → padding_fits padding_mode p' L'.
Proof. destruct padding_mode; simpl; intros; try done; lia. Qed.

Lemma padding_fits_always padding_mode p L :
  padding_mode = Zeros ∨ padding_mode = Replicate → padding_fits padding_mode p L.
Proof. by intros [-> | ->]. Qed.

Lemma conv_pad_fits padding_mode padding L :
  1 ≤ L → padding_fits padding_mode padding L →
  conv_pad padding_mode padding L
  = mret (match padding_mode with Zeros => L | _ => L + 2 * padding end).
Proof.
  intros HL Hfit. unfold conv_pad. destruct padding_mode; simpl in Hfit; try done.
  - destruct (Z.leb_spec L 0); [lia|]. by destruct (Z.ltb_spec padding L); [|lia].
  - by destruct (Z.leb_spec L 0); [lia|].
  - by destruct (Z.leb_spec padding L); [|lia].
Qed.

Lemma F_conv1d_length_run kernel_size stride padding dilation L :
  1 ≤ L → 0 < stride → dilation * (kernel_size - 1) + 1 ≤ L + 2 * padding →
  F_conv1d_length kernel_size stride padding dilation L
  = mret ((L + 2 * padding - dilation * (kernel_size - 1) - 1) / stride + 1).
Proof.
  intros HL Hs Hk. unfold F_conv1d_length.
  destruct (Z.leb_spec stride 0); [lia|].
  destruct (Z.ltb_spec (L + 2 * padding) (dilation * (kernel_size - 1) + 1)); [lia|].
  by destruct (Z.leb_spec L 0); [lia|].
Qed.

Lemma F_conv1d_length_short kernel_size stride padding dilation L :
  0 < stride → L + 2 * padding < dilation * (kernel_size - 1) + 1 →
  F_conv1d_length kernel_size stride padding dilation L
  = raise (RuntimeError "Kernel size can't be greater than actual input size").
Proof.
  intros Hs Hk. unfold F_conv1d_length.
  destruct (Z.leb_spec stride 0); [lia|].
  by destruct (Z.ltb_spec (L + 2 * padding) (dilation * (kernel_size - 1) + 1)); [|lia].
Qed.

(** A convolution whose padding fits returns the length torch documents,
    whatever the padding mode. *)
Lemma conv1d_length_run kernel_size stride padding dilation padding_mode L :
  1 ≤ L → 0 ≤ padding → 0 < stride → padding_fits padding_mode padding L →
  dilation * (kernel_size - 1) + 1 ≤ L + 2 * padding →
  conv1d_length kernel_size stride padding dilation padding_mode L
  = mret ((L + 2 * padding - dilation * (kernel_size - 1) - 1) / stride + 1).
Proof.
  intros HL Hp Hs Hfit Hk. unfold conv1d_length.
  destruct padding_mode; [by apply F_conv1d_length_run|..];
    rewrite conv_pad_fits, bind_ret by done;
    rewrite F_conv1d_length_run by lia;
    by replace (L + 2 * padding + 2 * 0) with (L + 2 * padding) by lia.
Qed.

Lemma conv1d_length_short kernel_size stride padding dilation padding_mode L :
  1 ≤ L → 0 < stride → padding_fits padding_mode padding L →
  L + 2 * padding < dilation * (kernel_size - 1) + 1 →
  conv1d_length kernel_size stride padding dilation padding_mode L
  = raise (RuntimeError "Kernel size can't be greater than actual input size").
Proof.
  intros HL Hs Hfit Hk. unfold conv1d_length.
  destruct padding_mode; [by apply F_conv1d_length_short|..];
    rewrite conv_pad_fits, bind_ret by done;
    apply F_conv1d_length_short; lia.
Qed.

Lemma conv1d_length_same kernel_size padding dilation padding_mode L :
  2 * padding = dilation * (kernel_size - 1) → 0 ≤ padding → 1 ≤ L →
  padding_fits padding_mode padding L →
  conv1d_length kernel_size 1 padding dilation padding_mode L = mret L.
Proof.
  intros Hp Hpos HL Hfit. rewrite conv1d_length_run by (done || lia).
  rewrite Z.div_1_r. f_equal. lia.
Qed.

(** A residual unit keeps the length. *)
Lemma ResidualUnit_length (causal : bool) (padding_mode : PaddingMode)
    (dilation kernel_size L : Z) :
  1 ≤ L → 1 ≤ dilation → 1 ≤ kernel_size →
  (if causal then 2 ≤ kernel_size else Z.even (dilation * (kernel_size - 1)) = true) →
  padding_fits padding_mode (ResidualUnit_padding causal dilation kernel_size) L →
  ResidualUnit causal padding_mode dilation kernel_size L = mret L.
Proof.
  intros HL Hd Hk Hmode Hfit. unfold ResidualUnit. unfold ResidualUnit_padding in *.
  destruct causal.
  - assert (1 ≤ dilation * (kernel_size - 1)) by nia.
    rewrite (Sequential_step _ _ _ (L + dilation * (kernel_size - 1))).
    2:{ rewrite conv1d_length_run by (done || lia).
        rewrite Z.div_1_r. f_equal. lia. }
    rewrite (Sequential_step _ _ _ (L + dilation * (kernel_size - 1)))
      by (apply conv1d_length_same; done || lia).
    unfold Sequential. simpl foldM. rewrite bind_ret.
    unfold TrimPadding_length, slice_index. rewrite bind_ret.
    destruct (Z.ltb_spec (- (dilation * (kernel_size - 1))) 0); [|lia].
    replace (Z.max 0 (Z.min (L + dilation * (kernel_size - 1))
                        (- (dilation * (kernel_size - 1))
                         + (L + dilation * (kernel_size - 1))))) with L by lia.
    unfold add_length. by rewrite Z.eqb_refl.
  - apply Z.even_spec in Hmode as [m Hm].
    assert (dilation * (kernel_size - 1) / 2 = m) as Hhalf
      by (rewrite Hm, Z.mul_comm, Z.div_mul; lia).
    rewrite Hhalf in Hfit |- *. assert (0 ≤ m) by nia.
    rewrite (Sequential_step _ _ _ L) by (apply conv1d_length_same; done || lia).
    rewrite (Sequential_step _ _ _ L) by (apply conv1d_length_same; done || lia).
    unfold Sequential. simpl foldM. rewrite !bind_ret.
    unfold add_length. by rewrite Z.eqb_refl.
Qed.

(** The three residual units of a block, whose widest padding is 27
    (54 in causal mode) *)
Lemma block_units_length (causal : bool) (padding_mode : PaddingMode) L :
  1 ≤ L → padding_fits padding_mode (ResidualUnit_padding causal 9 7) L →
  ResidualUnit causal padding_mode 1 7 L = mret L
  ∧ ResidualUnit causal padding_mode 3 7 L = mret L
  ∧ ResidualUnit causal padding_mode 9 7 L = mret L.
Proof.
  intros HL Hfit.
  repeat split; apply ResidualUnit_length; try lia; try (by destruct causal);
    (eapply padding_fits_mono; [exact Hfit| |lia]); by destruct causal.
Qed.

Lemma block_units_step (padding_mode : PaddingMode) ls L :
  1 ≤ L → padding_fits padding_mode 27 L →
  Sequential (ResidualUnit false padding_mode 1 7 :: ResidualUnit false padding_mode 3 7
              :: ResidualUnit false padding_mode 9 7 :: ls) L
  = Sequential ls L.
Proof.
  intros HL Hfit.
  destruct (block_units_length false padding_mode L HL Hfit) as (H1 & H3 & H9).
  by rewrite (Sequential_step _ _ _ L H1), (Sequential_step _ _ _ L H3),
    (Sequential_step _ _ _ L H9).
Qed.

Lemma product_pos ss : Forall (λ s, 0 < s ∧ Z.even s = true) ss → 1 ≤ product ss.
Proof.
  induction 1 as [|s ss [Hs _] _ IH]; simpl; [lia|]. nia.
Qed.

Lemma product_app l1 l2 : product (l1 ++ l2) = product l1 * product l2.
Proof. induction l1 as [|x l1 IH]; simpl; [lia|]. rewrite IH. lia. Qed.

Lemma product_reverse l : product (reverse l) = product l.
Proof.
  induction l as [|x l IH]; [done|].
  rewrite reverse_cons, product_app, IH. simpl. lia.
Qed.

Lemma ceil_half_even s : Z.even s = true → 2 * ceil_half s = s.
Proof.
  intros [m ->]%Z.even_spec. unfold ceil_half.
  replace (2 * m + 1) with (1 + m * 2) by lia.
  rewrite Z.div_add, Z.div_small by lia. lia.
Qed.

(** The padding of the downsampling convolution fits an input that is
    at least as long as an even stride. *)
Lemma downsample_padding_fits padding_mode s L :
  0 < s → Z.even s = true → s ≤ L → padding_fits padding_mode (ceil_half s) L.
Proof.
  intros Hs Heven HL. pose proof (ceil_half_even s Heven).
  destruct padding_mode; simpl; try done; lia.
Qed.

(** The loops that read the strides *)
Lemma mapM_strides {B} (g : Z → B) (strides : list Z) (n : nat) :
  (n ≤ length strides)%nat →
  mapM (λ i, stride ← list_item strides i; mret (g stride)) (seqZ 0 (Z.of_nat n))
  = mret (g <$> take n strides).
Proof.
  intros Hn.
  rewrite (mapM_run _ (λ i, g (default 0 (strides !! Z.to_nat i))) (λ _, [])).
  - assert (∀ xs : list Z, concat ((λ _, []) <$> xs) = ([] : list event)) as ->
      by (induction xs; done).
    unfold mret, M_ret, ret. do 2 f_equal. apply list_eq. intros k. rewrite !list_lookup_fmap.
    destruct (decide (k < n)%nat) as [Hk|Hk].
    + rewrite lookup_seqZ_lt, lookup_take_lt by lia. simpl.
      rewrite Z.add_0_l, Nat2Z.id.
      by destruct (lookup_lt_is_Some_2 strides k) as [s ->]; [lia|].
    + rewrite lookup_seqZ_ge, lookup_take_ge by lia. done.
  - intros i Hi%elem_of_seqZ. unfold list_item.
    destruct (lookup_lt_is_Some_2 strides (Z.to_nat i)) as [s Hs]; [lia|].
    by rewrite Hs, bind_ret.
Qed.

Lemma py_range_down (n : nat) :
  py_range (Z.of_nat n) 0 (-1)
  = mret ((λ k, Z.of_nat n + k * -1) <$> seqZ 0 (Z.of_nat n)).
Proof.
  unfold py_range, range_len.
  change (-1 =? 0) with false. change (0 <? -1) with false. cbv iota.
  change (- -1) with 1.
  replace (Z.of_nat n - 0 - -1 - 1) with (Z.of_nat n) by lia.
  by rewrite Z.div_1_r, Z.max_r by lia.
Qed.

Lemma mapM_strides_reversed {B} (g : Z → M B) (h : Z → B) (strides : list Z) (n : nat) :
  (∀ s, g s = mret (h s)) →
  (n ≤ length strides)%nat →
  mapM (λ i, stride ← list_item strides (i - 1); g stride)
    ((λ k, Z.of_nat n + k * -1) <$> seqZ 0 (Z.of_nat n))
  = mret (h <$> reverse (take n strides)).
Proof.
  intros Hg Hn.
  rewrite (mapM_run _ (λ i, h (default 0 (strides !! Z.to_nat (i - 1)))) (λ _, [])).
  - assert (∀ xs : list Z, concat ((λ _, []) <$> xs) = ([] : list event)) as ->
      by (induction xs; done).
    unfold mret, M_ret, ret. do 2 f_equal. apply list_eq. intros k.
    rewrite !list_lookup_fmap.
    destruct (decide (k < n)%nat) as [Hk|Hk].
    + rewrite lookup_seqZ_lt by lia. simpl.
      rewrite reverse_lookup by (rewrite length_take; lia).
      rewrite length_take, lookup_take_lt by lia.
      replace (Z.to_nat (Z.of_nat n + (0 + Z.of_nat k) * -1 - 1))
        with (n `min` length strides - S k)%nat by lia.
      by destruct (lookup_lt_is_Some_2 strides (n `min` length strides - S k))
        as [s ->]; [lia|].
    + rewrite lookup_seqZ_ge by lia.
      rewrite lookup_ge_None_2 by (rewrite length_reverse, length_take; lia). done.
  - intros i (k & -> & Hk%elem_of_seqZ)%list_elem_of_fmap. unfold list_item.
    destruct (lookup_lt_is_Some_2 strides (Z.to_nat (Z.of_nat n + k * -1 - 1)))
      as [s Hs]; [lia|].
    by rewrite Hs, bind_ret, Hg.
Qed.

Section oobleck_lengths.
Variable sconv1d_length : Z → Z → layer.
Variable sconv_transpose1d_length : Z → Z → layer.
Variable padding_mode : PaddingMode.

(** A non-causal encoder block with an even stride divides the length
    by the stride. *)
Lemma EncoderBlock_length s L :
  0 < s → Z.even s = true → s ≤ L → padding_fits padding_mode 27 L →
  EncoderBlock sconv1d_length false padding_mode s L = mret (L / s).
Proof.
  intros Hs Heven HL Hfit. unfold EncoderBlock.
  rewrite block_units_step by (done || lia).
  rewrite (Sequential_step _ _ _ (L / s)); [done|].
  unfold create_downsample_layer. pose proof (ceil_half_even s Heven) as Hhalf.
  rewrite conv1d_length_run by (lia || by apply downsample_padding_fits).
  f_equal.
  replace (L + 2 * ceil_half s - 1 * (2 * s - 1) - 1) with (L + (-1) * s) by lia.
  rewrite Z.div_add by lia. lia.
Qed.

Lemma encoder_blocks_length ss rest L :
  Forall (λ s, 0 < s ∧ Z.even s = true) ss → product ss ≤ L →
  padding_fits padding_mode 27 (L / product ss) →
  Sequential ((EncoderBlock sconv1d_length false padding_mode <$> ss) ++ rest) L
  = Sequential rest (L / product ss).
Proof.
  intros Hss. revert L. induction Hss as [|s ss [Hs Heven] Hss IH]; intros L HL Hfit.
  - simpl. by rewrite Z.div_1_r.
  - simpl in HL, Hfit |- *. pose proof (product_pos ss Hss) as Hpos.
    rewrite (Sequential_step _ _ _ (L / s)).
    2:{ apply EncoderBlock_length; [done..|nia|].
        eapply padding_fits_mono; [exact Hfit|lia|].
        apply Z.div_le_upper_bound; nia. }
    rewrite IH.
    + by rewrite Z.div_div by lia.
    + apply Z.div_le_lower_bound; lia.
    + by rewrite Z.div_div by lia.
Qed.

(** A non-causal decoder block multiplies the length by its stride: with
    the transposed convolution when the stride is even, with nearest
    upsampling for every stride. *)
Lemma DecoderBlock_run use_nearest_upsample s :
  DecoderBlock sconv_transpose1d_length false use_nearest_upsample padding_mode s
  = mret (Sequential
            [if use_nearest_upsample
             then Sequential [upsample_length s; conv1d_same_length]
             else conv_transpose1d_length (2 * s) s (ceil_half s);
             ResidualUnit false padding_mode 1 7; ResidualUnit false padding_mode 3 7;
             ResidualUnit false padding_mode 9 7]).
Proof.
  unfold DecoderBlock, create_upsample_layer.
  by destruct use_nearest_upsample; rewrite bind_ret.
Qed.

Lemma upsample_length_run s L :
  1 ≤ L → 0 < s → upsample_length s L = mret (L * s).
Proof.
  intros HL Hs. unfold upsample_length.
  destruct (Z.leb_spec L 0); [lia|]. by destruct (Z.leb_spec (L * s) 0); [nia|].
Qed.

Lemma DecoderBlock_length (use_nearest_upsample : bool) s L :
  1 ≤ L → 0 < s → (use_nearest_upsample = false → Z.even s = true) →
  padding_fits padding_mode 27 (L * s) →
  Sequential
    [if use_nearest_upsample
     then Sequential [upsample_length s; conv1d_same_length]
     else conv_transpose1d_length (2 * s) s (ceil_half s);
     ResidualUnit false padding_mode 1 7; ResidualUnit false padding_mode 3 7;
     ResidualUnit false padding_mode 9 7] L
  = mret (L * s).
Proof.
  intros HL Hs Heven Hfit.
  rewrite (Sequential_step _ _ _ (L * s)).
  - by rewrite block_units_step by (done || nia).
  - destruct use_nearest_upsample.
    + rewrite (Sequential_step _ _ _ (L * s)) by (by apply upsample_length_run).
      rewrite (Sequential_step _ _ _ (L * s)); [done|].
      unfold conv1d_same_length. by destruct (Z.leb_spec (L * s) 0); [nia|].
    + specialize (Heven eq_refl). pose proof (ceil_half_even s Heven) as Hhalf.
      unfold conv_transpose1d_length. destruct (Z.leb_spec s 0); [lia|].
      destruct (Z.leb_spec L 0); [lia|].
      f_equal. lia.
Qed.

Lemma decoder_blocks_length (use_nearest_upsample : bool) ss rest L :
  Forall (λ s, 0 < s ∧ (use_nearest_upsample = false → Z.even s = true)) ss → 1 ≤ L →
  padding_fits padding_mode 27 L →
  Sequential
    (((λ s, Sequential
              [if use_nearest_upsample
               then Sequential [upsample_length s; conv1d_same_length]
               else conv_transpose1d_length (2 * s) s (ceil_half s);
               ResidualUnit false padding_mode 1 7; ResidualUnit false padding_mode 3 7;
               ResidualUnit false padding_mode 9 7])
        <$> ss) ++ rest) L
  = Sequential rest (L * product ss).
Proof.
  intros Hss. revert L. induction Hss as [|s ss [Hs Heven] Hss IH]; intros L HL Hfit.
  - simpl. by rewrite Z.mul_1_r.
  - rewrite fmap_cons. simpl app.
    assert (padding_fits padding_mode 27 (L * s)) as Hfit'
      by (eapply padding_fits_mono; [exact Hfit|lia|nia]).
    rewrite (Sequential_step _ _ _ (L * s)) by (by apply DecoderBlock_length).
    rewrite IH by (done || nia). simpl. f_equal. lia.
Qed.

Lemma OobleckEncoder_layers (c_mults strides : list Z) :
  (length c_mults ≤ length strides)%nat →
  OobleckEncoder sconv1d_length false padding_mode c_mults strides
  = mret ([conv1d_length 7 1 3 1 padding_mode]
          ++ (EncoderBlock sconv1d_length false padding_mode
                <$> used_strides c_mults strides)
          ++ [conv1d_length 3 1 1 1 padding_mode]).
Proof.
  intros Hlen. unfold OobleckEncoder, used_strides.
  replace (Z.of_nat (length ([1] ++ c_mults)) - 1) with (Z.of_nat (length c_mults))
    by (simpl; lia).
  by rewrite (mapM_strides (EncoderBlock sconv1d_length false padding_mode)), !bind_ret
    by done.
Qed.

Lemma OobleckDecoder_layers (use_nearest_upsample : bool) (c_mults strides : list Z) :
  (length c_mults ≤ length strides)%nat →
  OobleckDecoder sconv_transpose1d_length false use_nearest_upsample padding_mode
    c_mults strides
  = mret ([conv1d_length 7 1 3 1 padding_mode]
          ++ ((λ s, Sequential
                      [if use_nearest_upsample
                       then Sequential [upsample_length s; conv1d_same_length]
                       else conv_transpose1d_length (2 * s) s (ceil_half s);
                       ResidualUnit false padding_mode 1 7;
                       ResidualUnit false padding_mode 3 7;
                       ResidualUnit false padding_mode 9 7])
                <$> reverse (used_strides c_mults strides))
          ++ [conv1d_length 7 1 3 1 padding_mode]).
Proof.
  intros Hlen. unfold OobleckDecoder, used_strides.
  replace (Z.of_nat (length ([1] ++ c_mults)) - 1) with (Z.of_nat (length c_mults))
    by (simpl; lia).
  rewrite py_range_down, bind_ret.
  by rewrite (mapM_strides_reversed _ _ _ _ (DecoderBlock_run use_nearest_upsample)),
    !bind_ret by done.
Qed.

Lemma OobleckEncoder_length_even (c_mults strides : list Z) (L : Z) :
  (length c_mults ≤ length strides)%nat →
  Forall (λ s, 0 < s ∧ Z.even s = true) (used_strides c_mults strides) →
  product (used_strides c_mults strides) ≤ L →
  padding_fits padding_mode 27 (L / product (used_strides c_mults strides)) →
  OobleckEncoder_length sconv1d_length false padding_mode c_mults strides L
  = mret (L / product (used_strides c_mults strides)).
Proof.
  intros Hlen Hss HL Hfit. unfold OobleckEncoder_length.
  rewrite OobleckEncoder_layers, bind_ret by done.
  pose proof (product_pos _ Hss) as Hpos.
  assert (1 ≤ L / product (used_strides c_mults strides))
    by (apply Z.div_le_lower_bound; lia).
  assert (L / product (used_strides c_mults strides) ≤ L)
    by (apply Z.div_le_upper_bound; nia).
  simpl app.
  rewrite (Sequential_step _ _ _ L)
    by (apply conv1d_length_same; try lia;
        eapply padding_fits_mono; [exact Hfit|lia|lia]).
  rewrite encoder_blocks_length by done.
  by rewrite (Sequential_step _ _ _ (L / product (used_strides c_mults strides)))
    by (apply conv1d_length_same; try lia;
        eapply padding_fits_mono; [exact Hfit|lia|lia]).
Qed.

Lemma OobleckDecoder_length_even (use_nearest_upsample : bool)
    (c_mults strides : list Z) (L : Z) :
  (length c_mults ≤ length strides)%nat →
  Forall (λ s, 0 < s ∧ (use_nearest_upsample = false → Z.even s = true))
    (used_strides c_mults strides) →
  1 ≤ L → padding_fits padding_mode 27 L →
  OobleckDecoder_length sconv_transpose1d_length false use_nearest_upsample padding_mode
    c_mults strides L
  = mret (L * product (used_strides c_mults strides)).
Proof.
  intros Hlen Hss HL Hfit. unfold OobleckDecoder_length.
  rewrite OobleckDecoder_layers, bind_ret by done.
  assert (1 ≤ product (used_strides c_mults strides)).
  { clear -Hss. induction Hss as [|s ss [Hs _] _ IH]; simpl; [lia|nia]. }
  simpl app.
  rewrite (Sequential_step _ _ _ L)
    by (apply conv1d_length_same; try lia;
        eapply padding_fits_mono; [exact Hfit|lia|lia]).
  rewrite decoder_blocks_length by (by try apply Forall_reverse).
  rewrite product_reverse.
  by rewrite (Sequential_step _ _ _ (L * product (used_strides c_mults strides)))
    by (apply conv1d_length_same; try lia;
        eapply padding_fits_mono; [exact Hfit|lia|nia]).
Qed.

Lemma EncoderBlock_short s L :
  0 < s → Z.even s = true → 1 ≤ L < s →
  padding_fits padding_mode 27 L → padding_fits padding_mode (ceil_half s) L →
  EncoderBlock sconv1d_length false padding_mode s L
  = raise (RuntimeError "Kernel size can't be greater than actual input size").
Proof.
  intros Hs Heven HL Hfit Hfit'. unfold EncoderBlock.
  rewrite block_units_step by (done || lia).
  apply Sequential_raise.
  unfold create_downsample_layer. pose proof (ceil_half_even s Heven) as Hhalf.
  apply conv1d_length_short; done || lia.
Qed.

Lemma encoder_blocks_short ss rest L :
  padding_mode = Zeros ∨ padding_mode = Replicate →
  Forall (λ s, 0 < s ∧ Z.even s = true) ss → 1 ≤ L < product ss →
  Sequential ((EncoderBlock sconv1d_length false padding_mode <$> ss) ++ rest) L
  = raise (RuntimeError "Kernel size can't be greater than actual input size").
Proof.
  intros Hmode Hss. revert L. induction Hss as [|s ss [Hs Heven] Hss IH]; intros L HL.
  - simpl in HL. lia.
  - simpl in HL |- *. pose proof (product_pos ss Hss) as Hpos.
    destruct (decide (L < s)) as [Hshort|Hlong].
    + apply Sequential_raise.
      apply EncoderBlock_short; [done..|lia| |]; by apply padding_fits_always.
    + rewrite (Sequential_step _ _ _ (L / s))
        by (apply EncoderBlock_length; [done..|lia|by apply padding_fits_always]).
      apply IH. split; [apply Z.div_le_lower_bound; lia|].
      apply Z.div_lt_upper_bound; lia.
Qed.
End oobleck_lengths.

(** *** Another padding mode than zeros only adds rejections *)

Lemma refines_bind {X Y} (m m0 : M X) (f f0 : X → M Y) :
  result m = result m0 ∨ rejects m →
  (∀ x, result (f x) = result (f0 x) ∨ rejects (f x)) →
  result (m ≫= f) = result (m0 ≫= f0) ∨ rejects (m ≫= f).
Proof.
  unfold rejects. intros Hm Hf. rewrite !result_bind.
  destruct Hm as [<-|[msg Hm]].
  - destruct (result m) as [e|x]; [by left|].
    destruct (Hf x) as [Hx|[msg Hx]]; [by left|]. right. by exists msg.
  - right. exists msg. by rewrite Hm.
Qed.

Lemma Sequential_refines (ls ls0 : list layer) :
  Forall2 (λ l l0 : layer, ∀ x, result (l x) = result (l0 x) ∨ rejects (l x)) ls ls0 →
  ∀ x, result (Sequential ls x) = result (Sequential ls0 x) ∨ rejects (Sequential ls x).
Proof.
  induction 1 as [|l l0 ls ls0 Hl _ IH]; intros x; [by left|].
  unfold Sequential. simpl. by apply refines_bind.
Qed.

Lemma conv1d_length_refines kernel_size stride padding dilation padding_mode L :
  result (conv1d_length kernel_size stride padding dilation padding_mode L)
  = result (conv1d_length kernel_size stride padding dilation Zeros L)
  ∨ rejects (conv1d_length kernel_size stride padding dilation padding_mode L).
Proof.
  assert (∀ padded, padded = L + 2 * padding → (1 ≤ L ∨ padding ≤ L) →
            result (F_conv1d_length kernel_size stride 0 dilation padded)
            = result (F_conv1d_length kernel_size stride padding dilation L)
            ∨ rejects (F_conv1d_length kernel_size stride 0 dilation padded)) as HF.
  { intros padded -> HL. unfold F_conv1d_length, rejects.
    replace (L + 2 * padding + 2 * 0) with (L + 2 * padding) by lia.
    destruct (stride <=? 0); [by left|].
    destruct (L + 2 * padding <? dilation * (kernel_size - 1) + 1); [by left|].
    destruct (Z.leb_spec (L + 2 * padding) 0); [right; by eexists|].
    destruct (Z.leb_spec L 0); [lia|]. by left. }
  unfold conv1d_length. destruct padding_mode; [by left|..]; unfold conv_pad.
  - destruct (Z.leb_spec L 0); [right; by eexists|].
    destruct (Z.ltb_spec padding L); [|right; by eexists].
    rewrite bind_ret. apply HF; [done|lia].
  - destruct (Z.leb_spec L 0); [right; by eexists|].
    rewrite bind_ret. apply HF; [done|lia].
  - destruct (Z.leb_spec padding L); [|right; by eexists].
    rewrite bind_ret. apply HF; [done|lia].
Qed.

Section oobleck_refines.
Variable sconv1d_length : Z → Z → layer.
Variable sconv_transpose1d_length : Z → Z → layer.
Variable padding_mode : PaddingMode.

Lemma ResidualUnit_refines causal dilation kernel_size L :
  result (ResidualUnit causal padding_mode dilation kernel_size L)
  = result (ResidualUnit causal Zeros dilation kernel_size L)
  ∨ rejects (ResidualUnit causal padding_mode dilation kernel_size L).
Proof.
  unfold ResidualUnit. apply refines_bind; [|by left].
  apply Sequential_refines.
  constructor; [|constructor; [by left|constructor]].
  intros x. apply conv1d_length_refines.
Qed.

Lemma EncoderBlock_refines causal s L :
  result (EncoderBlock sconv1d_length causal padding_mode s L)
  = result (EncoderBlock sconv1d_length causal Zeros s L)
  ∨ rejects (EncoderBlock sconv1d_length causal padding_mode s L).
Proof.
  unfold EncoderBlock. apply Sequential_refines.
  do 3 (constructor; [intros x; apply ResidualUnit_refines|]).
  constructor; [|constructor].
  intros x. unfold create_downsample_layer.
  destruct causal; [by left|apply conv1d_length_refines].
Qed.

Lemma OobleckEncoder_length_refines c_mults strides L :
  (length c_mults ≤ length strides)%nat →
  result (OobleckEncoder_length sconv1d_length false padding_mode c_mults strides L)
  = result (OobleckEncoder_length sconv1d_length false Zeros c_mults strides L)
  ∨ rejects (OobleckEncoder_length sconv1d_length false padding_mode c_mults strides L).
Proof.
  intros Hlen. unfold OobleckEncoder_length.
  rewrite !OobleckEncoder_layers, !bind_ret by done.
  apply Sequential_refines.
  apply Forall2_app; [|apply Forall2_app].
  - constructor; [|constructor]. intros x. apply conv1d_length_refines.
  - apply Forall2_fmap, Forall_Forall2_diag, Forall_forall.
    intros s _ x. apply EncoderBlock_refines.
  - constructor; [|constructor]. intros x. apply conv1d_length_refines.
Qed.

Lemma OobleckDecoder_length_refines use_nearest_upsample c_mults strides L :
  (length c_mults ≤ length strides)%nat →
  result (OobleckDecoder_length sconv_transpose1d_length false use_nearest_upsample
            padding_mode c_mults strides L)
  = result (OobleckDecoder_length sconv_transpose1d_length false use_nearest_upsample
              Zeros c_mults strides L)
  ∨ rejects (OobleckDecoder_length sconv_transpose1d_length false use_nearest_upsample
               padding_mode c_mults strides L).
Proof.
  intros Hlen. unfold OobleckDecoder_length.
  rewrite !OobleckDecoder_layers, !bind_ret by done.
  apply Sequential_refines.
  apply Forall2_app; [|apply Forall2_app].
  - constructor; [|constructor]. intros x. apply conv1d_length_refines.
  - apply Forall2_fmap, Forall_Forall2_diag, Forall_forall.
    intros s _. apply Sequential_refines.
    constructor; [by left|].
    do 3 (constructor; [intros x; apply ResidualUnit_refines|]). constructor.
  - constructor; [|constructor]. intros x. apply conv1d_length_refines.
Qed.
End oobleck_refines.

(** X13.  [TrimPadding] keeps the frames before the last [padding]
    ones.  With a padding of zero the slice [x[:, :, : -0]] is
    [x[:, :, :0]]: the result is empty, not the input. *)
Theorem TrimPadding_drops_trailing_frames {A : Type} (x : tensor A) (padding : Z) :
  wf x →
  (0 < padding →
   Z.of_nat (shape2 (TrimPadding padding x)) = Z.max 0 (Z.of_nat (shape2 x) - padding)
   ∧ data (TrimPadding padding x)
     = (λ row, take (Z.to_nat (Z.of_nat (shape2 x) - padding)) row) <$> data x)
  ∧ shape2 (TrimPadding 0 x) = 0%nat
  ∧ Forall (λ row, row = []) (data (TrimPadding 0 x))
  ∧ TrimPadding_length padding (Z.of_nat (shape2 x))
    = mret (Z.of_nat (shape2 (TrimPadding padding x))).
Proof.
  intros [_ Hrows]. unfold TrimPadding, TrimPadding_length, slice2, slice_bounds, slice_index.
  simpl. split; [|split; [|split]].
  - intros Hp. destruct (Z.ltb_spec (- padding) 0); [|lia]. simpl. split; [lia|].
    apply list_fmap_ext. intros _ row _. rewrite drop_0. f_equal. lia.
  - lia.
  - apply Forall_fmap, Forall_true. intros row. simpl.
    replace (Z.to_nat (0 `max` (0 `max` (Z.of_nat (shape2 x) `min` (- 0)))) - Z.to_nat 0)%nat
      with 0%nat by lia.
    done.
  - f_equal. destruct (Z.ltb_spec (- padding) 0); simpl; lia.
Qed.

Lemma TrimPadding_drops_trailing_frames_witness :
  (0 < 2 →
   Z.of_nat (shape2 (TrimPadding 2 (toy.ramp 1 8)))
     = Z.max 0 (Z.of_nat (shape2 (toy.ramp 1 8)) - 2)
   ∧ data (TrimPadding 2 (toy.ramp 1 8))
     = (λ row, take (Z.to_nat (Z.of_nat (shape2 (toy.ramp 1 8)) - 2)) row)
         <$> data (toy.ramp 1 8))
  ∧ shape2 (TrimPadding 0 (toy.ramp 1 8)) = 0%nat
  ∧ Forall (λ row, row = []) (data (TrimPadding 0 (toy.ramp 1 8)))
  ∧ TrimPadding_length 2 (Z.of_nat (shape2 (toy.ramp 1 8)))
    = mret (Z.of_nat (shape2 (TrimPadding 2 (toy.ramp 1 8)))).
Proof.
  apply (TrimPadding_drops_trailing_frames (toy.ramp 1 8) 2).
  apply toy_ramp_wf.
Defined.

(** X14.  A [ResidualUnit] keeps the length of a non-empty input, so
    that its skip connection [x + res] adds tensors of the same length,
    whenever its padding fits the input under the padding mode (always
    with zeros and replicate, a padding shorter than the input with
    reflect, not longer with circular): in causal mode for every kernel
    size above 1 (the right padding is trimmed again), otherwise
    whenever [dilation * (kernel_size - 1)] is even, as it is for the
    default kernel size 7 and the dilations 1, 3 and 9 of the encoder
    and decoder blocks.  With reflect, an input no longer than the
    padding is rejected, and with circular a shorter one. *)
Theorem ResidualUnit_keeps_length (causal : bool) (padding_mode : PaddingMode)
    (dilation kernel_size L : Z) :
  1 ≤ L → 1 ≤ dilation → 1 ≤ kernel_size →
  (if causal then 2 ≤ kernel_size else Z.even (dilation * (kernel_size - 1)) = true) →
  let padding := ResidualUnit_padding causal dilation kernel_size in
  (padding_fits padding_mode padding L →
   ResidualUnit causal padding_mode dilation kernel_size L = mret L)
  ∧ (padding_fits padding_mode (ResidualUnit_padding causal 9 7) L →
     ResidualUnit causal padding_mode 1 7 L = mret L
     ∧ ResidualUnit causal padding_mode 3 7 L = mret L
     ∧ ResidualUnit causal padding_mode 9 7 L = mret L)
  ∧ (L ≤ padding →
     ResidualUnit causal Reflect dilation kernel_size L
     = raise (RuntimeError
                "Padding size should be less than the corresponding input dimension"))
  ∧ (L < padding →
     ResidualUnit causal Circular dilation kernel_size L
     = raise (RuntimeError "Padding value causes wrapping around more than once.")).
Proof.
  intros HL Hd Hk Hmode padding.
  split; [by apply ResidualUnit_length|].
  split; [by apply block_units_length|].
  split; intros Hshort; unfold ResidualUnit; fold padding.
  - rewrite (Sequential_raise _ _ _
               (RuntimeError
                  "Padding size should be less than the corresponding input dimension"));
      [done|].
    unfold conv1d_length, conv_pad.
    destruct (Z.leb_spec L 0); [lia|]. by destruct (Z.ltb_spec padding L); [lia|].
  - rewrite (Sequential_raise _ _ _
               (RuntimeError "Padding value causes wrapping around more than once."));
      [done|].
    unfold conv1d_length, conv_pad.
    by destruct (Z.leb_spec padding L); [lia|].
Qed.

Lemma ResidualUnit_keeps_length_witness :
  ResidualUnit true Reflect 3 7 100 = mret 100
  ∧ (ResidualUnit true Reflect 1 7 100 = mret 100
     ∧ ResidualUnit true Reflect 3 7 100 = mret 100
     ∧ ResidualUnit true Reflect 9 7 100 = mret 100)
  ∧ ResidualUnit false Reflect 9 7 27
    = raise (RuntimeError
               "Padding size should be less than the corresponding input dimension")
  ∧ ResidualUnit false Circular 9 7 26
    = raise (RuntimeError "Padding value causes wrapping around more than once.").
Proof.
  destruct (ResidualUnit_keeps_length true Reflect 3 7 100) as (H1 & H2 & _); try lia.
  destruct (ResidualUnit_keeps_length false Zeros 9 7 27) as (_ & _ & H3 & _);
    try lia; [done|].
  destruct (ResidualUnit_keeps_length false Zeros 9 7 26) as (_ & _ & _ & H4);
    try lia; [done|].
  split; [apply H1; by vm_compute|].
  split; [apply H2; by vm_compute|].
  split; [apply H3; by vm_compute|apply H4; by vm_compute].
Defined.

(** X15.  A non-causal [OobleckEncoder] whose strides are even maps an
    input of [L] samples, [L] at least the product [R] of the strides
    it uses, to [L // R] latents: with the padding modes zeros (the
    default) and replicate for every such [L], with reflect when
    [L // R] exceeds 27, the widest padding of a residual unit, and
    with circular when [L // R] is at least 27.  It uses one stride per
    channel multiplier: further strides do not change the result. *)
Theorem OobleckEncoder_divides_length (sconv1d_length : Z → Z → layer)
    (padding_mode : PaddingMode) (c_mults strides : list Z) (L : Z) :
  (length c_mults ≤ length strides)%nat →
  Forall (λ s, 0 < s ∧ Z.even s = true) (used_strides c_mults strides) →
  product (used_strides c_mults strides) ≤ L →
  padding_fits padding_mode 27 (L / product (used_strides c_mults strides)) →
  OobleckEncoder_length sconv1d_length false padding_mode c_mults strides L
  = mret (L / product (used_strides c_mults strides))
  ∧ ∀ more, OobleckEncoder_length sconv1d_length false padding_mode c_mults
              (strides ++ more) L
            = OobleckEncoder_length sconv1d_length false padding_mode c_mults strides L.
Proof.
  intros Hlen Hss HL Hfit. split; [by apply OobleckEncoder_length_even|].
  intros more.
  assert (used_strides c_mults (strides ++ more) = used_strides c_mults strides) as Hused
    by (unfold used_strides; by rewrite take_app_le by lia).
  rewrite !OobleckEncoder_length_even; rewrite ?Hused, ?length_app; try done; lia.
Qed.

Lemma OobleckEncoder_divides_length_witness :
  OobleckEncoder_length no_causal_layer false Reflect [1; 2; 4; 8] [2; 4; 8; 8] 16384
  = mret 32
  ∧ ∀ more, OobleckEncoder_length no_causal_layer false Reflect [1; 2; 4; 8]
              ([2; 4; 8; 8] ++ more) 16384
            = OobleckEncoder_length no_causal_layer false Reflect [1; 2; 4; 8]
                [2; 4; 8; 8] 16384.
Proof.
  apply (OobleckEncoder_divides_length no_causal_layer Reflect
           [1; 2; 4; 8] [2; 4; 8; 8] 16384).
  - simpl. lia.
  - repeat constructor.
  - by vm_compute.
  - by vm_compute.
Defined.

(** X16.  A non-causal [OobleckDecoder] maps [L] latents, [L] at
    least 1, to [L * R] samples, [R] being the product of the strides it
    uses: with transposed convolutions when these strides are even, with
    nearest-neighbour upsampling for all positive strides; with the
    padding modes zeros (the default) and replicate for every such [L],
    with reflect when [L] exceeds 27, the widest padding of a residual
    unit, and with circular when [L] is at least 27.  The blocks take
    the strides in reverse order, one per channel multiplier: further
    strides do not change the result. *)
Theorem OobleckDecoder_multiplies_length (sconv_transpose1d_length : Z → Z → layer)
    (use_nearest_upsample : bool) (padding_mode : PaddingMode)
    (c_mults strides : list Z) (L : Z) :
  (length c_mults ≤ length strides)%nat →
  Forall (λ s, 0 < s ∧ (use_nearest_upsample = false → Z.even s = true))
    (used_strides c_mults strides) →
  1 ≤ L → padding_fits padding_mode 27 L →
  OobleckDecoder_length sconv_transpose1d_length false use_nearest_upsample padding_mode
    c_mults strides L
  = mret (L * product (used_strides c_mults strides))
  ∧ ∀ more, OobleckDecoder_length sconv_transpose1d_length false use_nearest_upsample
              padding_mode c_mults (strides ++ more) L
            = OobleckDecoder_length sconv_transpose1d_length false use_nearest_upsample
                padding_mode c_mults strides L.
Proof.
  intros Hlen Hss HL Hfit. split; [by apply OobleckDecoder_length_even|].
  intros more.
  assert (used_strides c_mults (strides ++ more) = used_strides c_mults strides) as Hused
    by (unfold used_strides; by rewrite take_app_le by lia).
  rewrite !OobleckDecoder_length_even; rewrite ?Hused, ?length_app; try done; lia.
Qed.

Lemma OobleckDecoder_multiplies_length_witness :
  OobleckDecoder_length no_causal_layer false false Reflect [1; 2; 4; 8] [2; 4; 8; 8] 32
  = mret 16384
  ∧ ∀ more, OobleckDecoder_length no_causal_layer false false Reflect [1; 2; 4; 8]
              ([2; 4; 8; 8] ++ more) 32
            = OobleckDecoder_length no_causal_layer false false Reflect [1; 2; 4; 8]
                [2; 4; 8; 8] 32.
Proof.
  apply (OobleckDecoder_multiplies_length no_causal_layer false Reflect
           [1; 2; 4; 8] [2; 4; 8; 8] 32).
  - simpl. lia.
  - repeat constructor.
  - lia.
  - by vm_compute.
Defined.

(** X17.  Encoding with a non-causal Oobleck encoder and decoding with
    the decoder of the same even strides and the same padding mode
    returns [(L // R) * R] samples for an input of [L >= R] samples:
    never more than [L], and [L] again exactly when [L] is a multiple
    of [R], the product of the strides.  This holds with the padding
    modes zeros (the default) and replicate, with reflect when [L // R]
    exceeds 27 and with circular when it is at least 27.  [(L // R) * R]
    is the length [preprocess_audio_list_for_encoder] pads to when
    [min_length] is [R]. *)
Theorem Oobleck_round_trip_length (sconv1d_length sconv_transpose1d_length : Z → Z → layer)
    (use_nearest_upsample : bool) (padding_mode : PaddingMode)
    (c_mults strides : list Z) (L : Z) :
  (length c_mults ≤ length strides)%nat →
  Forall (λ s, 0 < s ∧ Z.even s = true) (used_strides c_mults strides) →
  product (used_strides c_mults strides) ≤ L →
  padding_fits padding_mode 27 (L / product (used_strides c_mults strides)) →
  let R := product (used_strides c_mults strides) in
  (latents ← OobleckEncoder_length sconv1d_length false padding_mode c_mults strides L;
   OobleckDecoder_length sconv_transpose1d_length false use_nearest_upsample padding_mode
     c_mults strides latents)
  = mret (L / R * R)
  ∧ L / R * R ≤ L
  ∧ (L / R * R = L ↔ (R | L)).
Proof.
  intros Hlen Hss HL Hfit R. pose proof (product_pos _ Hss) as Hpos.
  fold R in HL, Hpos, Hfit.
  rewrite OobleckEncoder_length_even, bind_ret by done. fold R.
  rewrite OobleckDecoder_length_even.
  - fold R. split; [done|].
    pose proof (Z.mul_div_le L R ltac:(lia)). split; [lia|]. split.
    + intros HR. exists (L / R). lia.
    + intros [q ->]. rewrite Z.div_mul by lia. done.
  - done.
  - eapply Forall_impl; [exact Hss|]. simpl. by intros s [??].
  - apply Z.div_le_lower_bound; lia.
  - done.
Qed.

Lemma Oobleck_round_trip_length_witness :
  (latents ← OobleckEncoder_length no_causal_layer false Reflect [1; 2; 4; 8]
               [2; 4; 8; 8] 16500;
   OobleckDecoder_length no_causal_layer false false Reflect [1; 2; 4; 8] [2; 4; 8; 8]
     latents)
  = mret (16500 / 512 * 512)
  ∧ 16500 / 512 * 512 ≤ 16500
  ∧ (16500 / 512 * 512 = 16500 ↔ (512 | 16500)).
Proof.
  apply (Oobleck_round_trip_length no_causal_layer no_causal_layer false Reflect
           [1; 2; 4; 8] [2; 4; 8; 8] 16500).
  - simpl. lia.
  - repeat constructor.
  - by vm_compute.
  - by vm_compute.
Defined.

(** X18.  A non-causal [OobleckEncoder] with even strides rejects a
    non-empty input shorter than the product [R] of the strides it
    uses, whatever the padding mode: torch raises a [RuntimeError].
    With the padding modes zeros (the default) and replicate it is one
    of the downsampling convolutions that gets an input shorter than
    its kernel; with reflect and circular the padding of an earlier
    layer may be refused first.  No latent is produced for less than
    [R] samples. *)
Theorem OobleckEncoder_rejects_short_input (sconv1d_length : Z → Z → layer)
    (padding_mode : PaddingMode) (c_mults strides : list Z) (L : Z) :
  (length c_mults ≤ length strides)%nat →
  Forall (λ s, 0 < s ∧ Z.even s = true) (used_strides c_mults strides) →
  1 ≤ L < product (used_strides c_mults strides) →
  rejects (OobleckEncoder_length sconv1d_length false padding_mode c_mults strides L)
  ∧ (padding_mode = Zeros ∨ padding_mode = Replicate →
     OobleckEncoder_length sconv1d_length false padding_mode c_mults strides L
     = raise (RuntimeError "Kernel size can't be greater than actual input size")).
Proof.
  intros Hlen Hss HL.
  assert (∀ mode, mode = Zeros ∨ mode = Replicate →
            OobleckEncoder_length sconv1d_length false mode c_mults strides L
            = raise (RuntimeError "Kernel size can't be greater than actual input size"))
    as Hkernel.
  { intros mode Hmode. unfold OobleckEncoder_length.
    rewrite OobleckEncoder_layers, bind_ret by done. simpl app.
    rewrite (Sequential_step _ _ _ L)
      by (apply conv1d_length_same; try lia; by apply padding_fits_always).
    by apply encoder_blocks_short. }
  split; [|apply Hkernel].
  destruct (OobleckEncoder_length_refines sconv1d_length padding_mode c_mults strides L
              Hlen) as [Heq|Hrej]; [|done].
  eexists. rewrite Heq, Hkernel by (by left). done.
Qed.

Lemma OobleckEncoder_rejects_short_input_witness :
  rejects (OobleckEncoder_length no_causal_layer false Reflect [1; 2; 4; 8]
             [2; 4; 8; 8] 511)
  ∧ OobleckEncoder_length no_causal_layer false Zeros [1; 2; 4; 8] [2; 4; 8; 8] 511
    = raise (RuntimeError "Kernel size can't be greater than actual input size").
Proof.
  split.
  - apply (OobleckEncoder_rejects_short_input no_causal_layer Reflect
             [1; 2; 4; 8] [2; 4; 8; 8] 511).
    + simpl. lia.
    + repeat constructor.
    + by vm_compute.
  - apply (OobleckEncoder_rejects_short_input no_causal_layer Zeros
             [1; 2; 4; 8] [2; 4; 8; 8] 511).
    + simpl. lia.
    + repeat constructor.
    + by vm_compute.
    + by left.
Defined.

(** X19.  With an odd stride the non-causal blocks are off by one: the
    padding [ceil(stride / 2)] is then [(stride + 1) / 2], the
    downsampling convolution and with it the encoder block return
    [(L + 1) // stride] frames, and the transposed convolution and with
    it the decoder block [L * stride - 1].  A stride of 1 makes the
    encoder block one frame longer and the decoder block one frame
    shorter.  This holds with the default padding mode, zeros, and with
    every other mode whose paddings fit: 27, the widest of the residual
    units, and in the encoder block that of the downsampling
    convolution; the transposed convolution always pads with zeros. *)
Theorem odd_stride_blocks_are_off_by_one
    (sconv1d_length sconv_transpose1d_length : Z → Z → layer)
    (padding_mode : PaddingMode) (s L : Z) :
  0 < s → Z.odd s = true → 1 ≤ L → s - 1 ≤ L → 2 ≤ L * s →
  (padding_fits padding_mode (ceil_half s) L →
   create_downsample_layer sconv1d_length false padding_mode s L = mret ((L + 1) / s))
  ∧ create_upsample_layer sconv_transpose1d_length false false padding_mode s
    = mret (conv_transpose1d_length (2 * s) s (ceil_half s))
  ∧ conv_transpose1d_length (2 * s) s (ceil_half s) L = mret (L * s - 1)
  ∧ (padding_fits padding_mode 27 L → padding_fits padding_mode (ceil_half s) L →
     EncoderBlock sconv1d_length false padding_mode s L = mret ((L + 1) / s))
  ∧ ∃ block,
      DecoderBlock sconv_transpose1d_length false false padding_mode s = mret block
      ∧ (padding_fits padding_mode 27 (L * s - 1) → block L = mret (L * s - 1)).
Proof.
  intros Hs [m Hm]%Z.odd_spec HL1 HL2 HL3.
  assert (2 * ceil_half s = s + 1) as Hhalf.
  { unfold ceil_half. rewrite Hm.
    replace (2 * m + 1 + 1) with ((m + 1) * 2) by lia. rewrite Z.div_mul by lia. lia. }
  assert (padding_fits padding_mode (ceil_half s) L →
          create_downsample_layer sconv1d_length false padding_mode s L
          = mret ((L + 1) / s)) as Hdown.
  { intros Hfit. unfold create_downsample_layer.
    rewrite conv1d_length_run by (done || lia).
    f_equal.
    replace (L + 2 * ceil_half s - 1 * (2 * s - 1) - 1) with (L + 1 + (-1) * s) by lia.
    rewrite Z.div_add by lia. lia. }
  assert (conv_transpose1d_length (2 * s) s (ceil_half s) L = mret (L * s - 1)) as Hup.
  { unfold conv_transpose1d_length. destruct (Z.leb_spec s 0); [lia|].
    destruct (Z.leb_spec L 0); [lia|].
    f_equal. lia. }
  split; [done|]. split; [done|]. split; [done|]. split.
  - intros Hfit Hfit'. unfold EncoderBlock.
    rewrite block_units_step by done.
    by rewrite (Sequential_step _ _ _ ((L + 1) / s)) by (by apply Hdown).
  - rewrite DecoderBlock_run. eexists. split; [done|].
    intros Hfit.
    rewrite (Sequential_step _ _ _ (L * s - 1)) by done.
    by rewrite block_units_step by (done || lia).
Qed.

Lemma odd_stride_blocks_are_off_by_one_witness :
  create_downsample_layer no_causal_layer false Zeros 1 100 = mret ((100 + 1) / 1)
  ∧ create_upsample_layer no_causal_layer false false Zeros 1
    = mret (conv_transpose1d_length (2 * 1) 1 (ceil_half 1))
  ∧ conv_transpose1d_length (2 * 1) 1 (ceil_half 1) 100 = mret (100 * 1 - 1)
  ∧ EncoderBlock no_causal_layer false Zeros 1 100 = mret ((100 + 1) / 1)
  ∧ ∃ block,
      DecoderBlock no_causal_layer false false Zeros 1 = mret block
      ∧ block 100 = mret (100 * 1 - 1).
Proof.
  destruct (odd_stride_blocks_are_off_by_one no_causal_layer no_causal_layer Zeros 1 100)
    as (Hdown & Hlayer & Hup & Henc & block & Hblock & Hdec); try done; try lia.
  split; [by apply Hdown|]. split; [done|]. split; [done|].
  split; [by apply Henc|].
  exists block. split; [done|]. by apply Hdec.
Defined.

(** ** Padding in the period discriminator *)

(** X20.  [MPD.pad_to_period] always pads: by [period - t % period]
    frames, between 1 and [period], a whole period when [t] is already a
    multiple.  The padded length is the least multiple of [period]
    above [t].  The reflection needs more input frames than padding:
    the input is returned padded, its own frames first, when
    [t] exceeds the padding, and rejected otherwise. *)
Theorem pad_to_period_always_pads {A : Type} (period : Z) (x : tensor A) :
  0 < period → wf x →
  let t := Z.of_nat (shape2 x) in
  let pad := period - t `mod` period in
  1 ≤ pad ≤ period
  ∧ t + pad = (t / period + 1) * period
  ∧ (pad < t →
     ∃ y, pad_to_period period x = mret y
          ∧ wf y ∧ shape0 y = shape0 x ∧ Z.of_nat (shape2 y) = t + pad
          ∧ Forall2 (λ row row', take (shape2 x) row' = row) (data x) (data y))
  ∧ (t ≤ pad →
     pad_to_period period x
     = raise (RuntimeError
                "Padding size should be less than the corresponding input dimension")).
Proof.
  intros Hp [Hlen Hrows] t pad.
  pose proof (Z.mod_pos_bound t period Hp) as Hmod.
  pose proof (Z.div_mod t period ltac:(lia)) as Hdm.
  split; [unfold pad; lia|]. split; [unfold pad; lia|].
  unfold pad_to_period, reflect_pad. fold t. fold pad.
  destruct (Z.eqb_spec period 0); [lia|].
  destruct (Z.leb_spec 0 pad); [|unfold pad in *; lia].
  split.
  - intros Hlt. destruct (Z.ltb_spec pad t); [|lia].
    eexists. split; [done|]. split; [|split; [done|split; [simpl; lia|]]].
    + split; simpl; [by rewrite length_fmap|].
      apply Forall_fmap. eapply Forall_impl; [exact Hrows|]. simpl. intros row Hrow.
      rewrite length_app, length_reverse, length_take, length_drop. unfold t in *. lia.
    + simpl. apply Forall2_fmap_r, Forall_Forall2_diag.
      eapply Forall_impl; [exact Hrows|]. simpl. intros row Hrow.
      by rewrite take_app_length' by done.
  - intros Hge. by destruct (Z.ltb_spec pad t); [lia|].
Qed.

Lemma pad_to_period_always_pads_witness :
  1 ≤ 4 - 8 `mod` 4 ≤ 4
  ∧ 8 + (4 - 8 `mod` 4) = (8 / 4 + 1) * 4
  ∧ (4 - 8 `mod` 4 < 8 →
     ∃ y, pad_to_period 4 (toy.ramp 1 8) = mret y
          ∧ wf y ∧ shape0 y = 1%nat ∧ Z.of_nat (shape2 y) = 8 + (4 - 8 `mod` 4)
          ∧ Forall2 (λ row row', take 8 row' = row) (data (toy.ramp 1 8)) (data y))
  ∧ (8 ≤ 4 - 8 `mod` 4 →
     pad_to_period 4 (toy.ramp 1 8)
     = raise (RuntimeError
                "Padding size should be less than the corresponding input dimension")).
Proof.
  apply (pad_to_period_always_pads 4 (toy.ramp 1 8)); [lia|apply toy_ramp_wf].
Defined.

(** ** The tensors of a [MultiDiscriminator] *)

Lemma concat_uniform {X} (b : nat) (ls : list (list X)) (i : nat) (l : list X) :
  Forall (λ l, length l = b) ls → ls !! i = Some l →
  take b (drop (i * b) (concat ls)) = l.
Proof.
  intros Hls. revert i. induction Hls as [|l0 ls Hl0 _ IH]; intros i Hi; [done|].
  rewrite concat_cons. destruct i as [|i].
  - injection Hi as ->. change (0 * b)%nat with 0%nat.
    by rewrite drop_0, take_app_length' by done.
  - rewrite drop_app_ge by lia. rewrite Hl0.
    replace (S i * b - b)%nat with (i * b)%nat by lia. by apply IH.
Qed.

Lemma sum_list_uniform (b : nat) (l : list nat) :
  Forall (λ x, x = b) l → sum_list l = (length l * b)%nat.
Proof. induction 1 as [|x l -> _ IH]; simpl; [done|]. by rewrite IH. Qed.

Section multi_discriminator.
Context {A : Type}.

Lemma torch_cat_uniform (xs : list (tensor A)) (b T : nat) :
  xs ≠ [] → Forall (λ x, shape0 x = b ∧ shape2 x = T) xs →
  torch_cat xs = mret (Tensor (length xs * b) T (concat (data <$> xs))).
Proof.
  intros Hne Hxs. destruct xs as [|x xs]; [done|]. unfold torch_cat.
  apply Forall_cons in Hxs as [[Hb HT] Hxs].
  assert (forallb (λ u, shape2 u =? shape2 x)%nat xs = true) as ->.
  { apply Is_true_true, forallb_True. eapply Forall_impl; [exact Hxs|].
    simpl. intros u [_ Hu]. apply Is_true_true, Nat.eqb_eq. congruence. }
  do 2 f_equal; [|done].
  rewrite (sum_list_uniform b).
  - by rewrite length_fmap.
  - apply Forall_fmap. constructor; [done|].
    eapply Forall_impl; [exact Hxs|]. by intros u [? _].
Qed.

Lemma torch_chunk_uniform (xs : list (tensor A)) (b T : nat) :
  xs ≠ [] → (1 ≤ b)%nat →
  Forall (λ x, wf x ∧ shape0 x = b ∧ shape2 x = T) xs →
  torch_chunk (Z.of_nat (length xs))
    (Tensor (length xs * b) T (concat (data <$> xs)))
  = mret xs.
Proof.
  intros Hne Hb Hxs. unfold torch_chunk. simpl shape0. simpl shape2.
  set (n := length xs).
  assert (1 ≤ n)%nat by (unfold n; destruct xs; [done|simpl; lia]).
  destruct (Z.leb_spec (Z.of_nat n) 0); [lia|].
  assert ((Z.of_nat (n * b) + Z.of_nat n - 1) / Z.of_nat n = Z.of_nat b) as ->.
  { symmetry. apply (Z.div_unique _ _ _ (Z.of_nat n - 1)); lia. }
  destruct (Z.eqb_spec (Z.of_nat b) 0); [lia|].
  assert ((Z.of_nat (n * b) + Z.of_nat b - 1) / Z.of_nat b = Z.of_nat n) as ->.
  { symmetry. apply (Z.div_unique _ _ _ (Z.of_nat b - 1)); lia. }
  f_equal. apply list_eq. intros i. rewrite list_lookup_fmap.
  destruct (decide (i < n)%nat) as [Hi|Hi].
  - rewrite lookup_seqZ_lt by lia. simpl.
    destruct (lookup_lt_is_Some_2 xs i) as [x Hx]; [done|]. rewrite Hx. f_equal.
    pose proof (proj1 (Forall_lookup _ _) Hxs i x Hx) as ([Hlen Hrows] & Hbx & HTx).
    unfold slice0. simpl shape0. simpl shape2. simpl data.
    rewrite slice_bounds_in by nia.
    replace (Z.to_nat ((0 + Z.of_nat i + 1) * Z.of_nat b)
             - Z.to_nat ((0 + Z.of_nat i) * Z.of_nat b))%nat with b by nia.
    replace (Z.to_nat ((0 + Z.of_nat i) * Z.of_nat b)) with (i * b)%nat by nia.
    rewrite (concat_uniform b _ i (data x)).
    + destruct x as [s0 s2 d]. simpl in *. by subst.
    + apply Forall_fmap. eapply Forall_impl; [exact Hxs|].
      simpl. intros u ([Hu _] & Hbu & _). lia.
    + by rewrite list_lookup_fmap, Hx.
  - rewrite lookup_seqZ_ge by lia. by rewrite lookup_ge_None_2 by lia.
Qed.

Lemma dict_of_pairs_snoc {V} (pairs : list (string * V)) k v :
  dict_of_pairs (pairs ++ [(k, v)]) = <[k := v]> (dict_of_pairs pairs).
Proof. unfold dict_of_pairs. by rewrite foldl_app. Qed.

Lemma dict_of_pairs_lookup {V} (f : string → V) (keys : list string) k :
  dict_of_pairs ((λ k, (k, f k)) <$> keys) !! k
  = if decide (k ∈ keys) then Some (f k) else None.
Proof.
  induction keys as [|k' keys IH] using rev_ind.
  - rewrite decide_False by apply not_elem_of_nil. done.
  - rewrite fmap_app. simpl. rewrite dict_of_pairs_snoc.
    destruct (decide (k = k')) as [->|Hne].
    + rewrite lookup_insert_eq. rewrite decide_True; [done|].
      apply elem_of_app. right. by left.
    + rewrite lookup_insert_ne, IH by done.
      destruct (decide (k ∈ keys)) as [Hin|Hnin].
      * rewrite decide_True; [done|]. apply elem_of_app. by left.
      * rewrite decide_False; [done|].
        intros [?|Heq%list_elem_of_singleton]%elem_of_app; done.
Qed.
End multi_discriminator.

(** X21.  [unpack_tensor_to_dict] undoes the concatenation
    [MultiDiscriminator.forward] starts with: when every key names an
    input of the same shape, with at least one item, the inputs
    concatenated along the batch and unpacked again are the inputs, key
    by key, and nothing else. *)
Theorem unpack_inverts_concatenation {A : Type} (keys : list string)
    (inputs : gmap string (tensor A)) (b T : nat) :
  keys ≠ [] → (1 ≤ b)%nat →
  (∀ k, k ∈ keys → ∃ x, inputs !! k = Some x ∧ wf x ∧ shape0 x = b ∧ shape2 x = T) →
  ∃ X out,
    discriminator_input keys inputs = mret X
    ∧ shape0 X = (length keys * b)%nat
    ∧ unpack_tensor_to_dict keys X = mret out
    ∧ ∀ k, out !! k = if decide (k ∈ keys) then inputs !! k else None.
Proof.
  intros Hne Hb Hin.
  set (d := Tensor 0 0 [] : tensor A).
  set (f := λ k, default d (inputs !! k)).
  assert (Forall (λ x, wf x ∧ shape0 x = b ∧ shape2 x = T) (f <$> keys)) as Hxs.
  { apply Forall_fmap, Forall_forall. intros k Hk.
    destruct (Hin k Hk) as (x & Hx & ?). unfold f. simpl. by rewrite Hx. }
  assert (f <$> keys ≠ []) as Hne' by (by destruct keys).
  exists (Tensor (length keys * b) T (concat (data <$> (f <$> keys)))).
  exists (dict_of_pairs ((λ k, (k, f k)) <$> keys)).
  split; [|split; [done|split]].
  - unfold discriminator_input.
    rewrite (mapM_run _ f (λ _, [])).
    + assert (∀ xs : list string, concat ((λ _, []) <$> xs) = ([] : list event)) as Hnil
        by (induction xs; done).
      rewrite Hnil.
      change (inr (f <$> keys), []) with (mret (M:=M) (f <$> keys)). rewrite bind_ret.
      rewrite (torch_cat_uniform _ b T), length_fmap; [done..|].
      eapply Forall_impl; [exact Hxs|]. by intros x (_ & ? & ?).
    + intros k Hk. destruct (Hin k Hk) as (x & Hx & _). unfold f. by rewrite Hx.
  - unfold unpack_tensor_to_dict.
    rewrite <- (length_fmap f keys) at 1 2.
    rewrite (torch_chunk_uniform _ b T), bind_ret by done.
    rewrite (mapM_run _ (λ ik, (ik.2, f ik.2)) (λ _, [])).
    + assert (∀ xs : list (Z * string), concat ((λ _, []) <$> xs) = ([] : list event))
        as Hnil by (induction xs; done).
      rewrite Hnil.
      match goal with
      | |- (inr ?p, []) ≫= _ = _ => change (inr p, []) with (mret (M:=M) p)
      end.
      rewrite bind_ret. do 2 f_equal.
      apply list_eq. intros i. rewrite !list_lookup_fmap.
      destruct (keys !! i) as [k|] eqn:Hk.
      * pose proof (lookup_lt_Some _ _ _ Hk).
        assert (zip (seqZ 0 (Z.of_nat (length keys))) keys !! i
                = Some (Z.of_nat i, k)) as ->; [|done].
        apply lookup_zip_with_Some. exists (Z.of_nat i), k.
        split_and!; try done.
        by rewrite lookup_seqZ_lt by lia.
      * assert (zip (seqZ 0 (Z.of_nat (length keys))) keys !! i = None) as ->;
          [|done].
        apply lookup_zip_with_None. by right.
    + intros [i k] (j & Hj)%list_elem_of_lookup.
      apply lookup_zip_with_Some in Hj as (i' & k' & [= <- <-] & Hi & Hk).
      apply lookup_seqZ in Hi as [-> _]. simpl. unfold list_item.
      by rewrite Z.add_0_l, Nat2Z.id, list_lookup_fmap, Hk.
  - intros k. rewrite dict_of_pairs_lookup. case_decide as Hk; [|done].
    destruct (Hin k Hk) as (x & Hx & _). unfold f. by rewrite Hx.
Qed.

Lemma unpack_inverts_concatenation_witness :
  ∃ X out,
    discriminator_input toy_discriminator.keys toy_discriminator.inputs = mret X
    ∧ shape0 X = (length toy_discriminator.keys * 2)%nat
    ∧ unpack_tensor_to_dict toy_discriminator.keys X = mret out
    ∧ ∀ k, out !! k = if decide (k ∈ toy_discriminator.keys)
                      then toy_discriminator.inputs !! k else None.
Proof.
  apply (unpack_inverts_concatenation toy_discriminator.keys toy_discriminator.inputs 2 4).
  - done.
  - lia.
  - intros k [->|[->|[]%elem_of_nil]%elem_of_cons]%elem_of_cons.
    + eexists. split; [by vm_compute|]. split; [apply toy_ramp_wf|done].
    + eexists. split; [by vm_compute|]. split; [|done].
      split; [done|]. by repeat constructor.
Defined.

(** ** Collecting the features of several discriminators *)

Lemma concat_dicts_lookup {T} (dict_a dict_b : gmap string (T + list T)) k :
  concat_dicts dict_a dict_b !! k
  = match dict_a !! k, dict_b !! k with
    | None, None => None
    | a, b => Some (inr (from_option as_list [] a ++ from_option as_list [] b))
    end.
Proof.
  unfold concat_dicts. rewrite lookup_merge.
  by destruct (dict_a !! k), (dict_b !! k).
Qed.

(** X22.  [concat_dicts] returns, for every key of either dictionary,
    the list of what the first dictionary holds under it followed by
    what the second holds, a tensor counting as a list of one; its keys
    are the union of the keys, and it is associative, so that the
    [reduce] calls of [MultiDiscriminator.forward] do not depend on how
    the calls nest. *)
Theorem concat_dicts_is_associative {T} (dict_a dict_b dict_c : gmap string (T + list T)) :
  (∀ k, concat_dicts dict_a dict_b !! k
        = match dict_a !! k, dict_b !! k with
          | None, None => None
          | a, b => Some (inr (from_option as_list [] a ++ from_option as_list [] b))
          end)
  ∧ dom (concat_dicts dict_a dict_b) = dom dict_a ∪ dom dict_b
  ∧ concat_dicts (concat_dicts dict_a dict_b) dict_c
    = concat_dicts dict_a (concat_dicts dict_b dict_c).
Proof.
  split; [apply concat_dicts_lookup|]. split.
  - apply set_eq. intros k. rewrite elem_of_union, !elem_of_dom, concat_dicts_lookup.
    destruct (dict_a !! k) as [a|], (dict_b !! k) as [b|].
    + split; [intros _; left|intros _]; by eexists.
    + split; [intros _; left|intros _]; by eexists.
    + split; [intros _; right|intros _]; by eexists.
    + split; [intros [? [=]]|intros [[? [=]]|[? [=]]]].
  - apply map_eq. intros k. rewrite !concat_dicts_lookup.
    destruct (dict_a !! k), (dict_b !! k), (dict_c !! k); simpl;
      by rewrite ?app_nil_r, <- ?(assoc_L (++)).
Qed.

Lemma foldl_concat_dicts_lookup {T} (acc : gmap string (T + list T))
    (ds : list (gmap string T)) k :
  (∀ k v, acc !! k = Some v → ∃ l, v = inr l) →
  foldl concat_dicts acc (tensor_dict <$> ds) !! k
  = match acc !! k, omap (λ d : gmap string T, d !! k) ds with
    | None, [] => None
    | a, l => Some (inr (from_option as_list [] a ++ l))
    end.
Proof.
  revert acc. induction ds as [|d ds IH]; intros acc Hacc.
  - simpl. destruct (acc !! k) as [v|] eqn:Hv; [|done].
    destruct (Hacc k v Hv) as [l ->]. by rewrite app_nil_r.
  - rewrite fmap_cons. simpl foldl. rewrite IH.
    + unfold tensor_dict at 1. rewrite concat_dicts_lookup, lookup_fmap.
      assert (omap (λ d0 : gmap string T, d0 !! k) (d :: ds)
              = from_option (λ t, [t]) [] (d !! k)
                ++ omap (λ d0 : gmap string T, d0 !! k) ds) as ->
        by (simpl; by destruct (d !! k)).
      destruct (acc !! k) as [v|], (d !! k) as [t|]; simpl;
        destruct (omap (λ d0 : gmap string T, d0 !! k) ds); simpl;
        by rewrite ?app_nil_r, <- ?(assoc_L (++)).
    + intros k' v. rewrite concat_dicts_lookup.
      destruct (acc !! k'), (tensor_dict d !! k'); intros [= <-]; eauto.
Qed.

(** X23.  Reducing two or more dictionaries of tensors with
    [concat_dicts] gives, under every key, the tensors the
    dictionaries hold under it, in the order of the dictionaries, those
    without the key being skipped.  A single dictionary is returned as
    it is: its values are then tensors, not lists. *)
Theorem reduce_concat_dicts_collects {T} (ds : list (gmap string T)) :
  (2 ≤ length ds)%nat →
  (∃ m, reduce concat_dicts (tensor_dict <$> ds) = mret m
        ∧ ∀ k, m !! k = match omap (λ d : gmap string T, d !! k) ds with
                        | [] => None
                        | l => Some (inr l)
                        end)
  ∧ ∀ d : gmap string T, reduce concat_dicts [tensor_dict d] = mret (tensor_dict d).
Proof.
  intros Hlen. split; [|done].
  destruct ds as [|d1 [|d2 ds]]; simpl in Hlen; try lia.
  exists (foldl concat_dicts (concat_dicts (tensor_dict d1) (tensor_dict d2))
            (tensor_dict <$> ds)).
  split; [done|]. intros k. rewrite foldl_concat_dicts_lookup.
  - unfold tensor_dict. rewrite concat_dicts_lookup, !lookup_fmap.
    assert (omap (λ d : gmap string T, d !! k) (d1 :: d2 :: ds)
            = from_option (λ t, [t]) [] (d1 !! k) ++ from_option (λ t, [t]) [] (d2 !! k)
              ++ omap (λ d : gmap string T, d !! k) ds) as ->
      by (simpl; by destruct (d1 !! k), (d2 !! k)).
    destruct (d1 !! k), (d2 !! k); simpl;
      destruct (omap (λ d : gmap string T, d !! k) ds); done.
  - intros k' v. rewrite concat_dicts_lookup.
    destruct (tensor_dict d1 !! k'), (tensor_dict d2 !! k'); intros [= <-]; eauto.
Qed.

Lemma reduce_concat_dicts_collects_witness :
  (∃ m, reduce concat_dicts (tensor_dict <$> toy_discriminator.features) = mret m
        ∧ ∀ k, m !! k = match omap (λ d : gmap string Z, d !! k) toy_discriminator.features with
                        | [] => None
                        | l => Some (inr l)
                        end)
  ∧ ∀ d : gmap string Z, reduce concat_dicts [tensor_dict d] = mret (tensor_dict d).
Proof.
  apply (reduce_concat_dicts_collects toy_discriminator.features).
  simpl. lia.
Defined.

(** ** The padding mode of the Oobleck encoder and decoder *)

(** X24.  Another padding mode than the default only adds rejections:
    whatever its padding mode, a non-causal [OobleckEncoder] returns
    what it returns with zeros, or raises a [RuntimeError]; and so does
    a non-causal [OobleckDecoder], whose transposed convolutions and
    nearest upsampling do not take the padding mode. *)
Theorem padding_mode_only_adds_rejections
    (sconv1d_length sconv_transpose1d_length : Z → Z → layer)
    (use_nearest_upsample : bool) (padding_mode : PaddingMode)
    (c_mults strides : list Z) (L : Z) :
  (length c_mults ≤ length strides)%nat →
  (result (OobleckEncoder_length sconv1d_length false padding_mode c_mults strides L)
   = result (OobleckEncoder_length sconv1d_length false Zeros c_mults strides L)
   ∨ rejects (OobleckEncoder_length sconv1d_length false padding_mode c_mults strides L))
  ∧ (result (OobleckDecoder_length sconv_transpose1d_length false use_nearest_upsample
               padding_mode c_mults strides L)
     = result (OobleckDecoder_length sconv_transpose1d_length false use_nearest_upsample
                 Zeros c_mults strides L)
     ∨ rejects (OobleckDecoder_length sconv_transpose1d_length false use_nearest_upsample
                  padding_mode c_mults strides L)).
Proof.
  intros Hlen. split.
  - by apply OobleckEncoder_length_refines.
  - by apply OobleckDecoder_length_refines.
Qed.

Lemma padding_mode_only_adds_rejections_witness :
  (result (OobleckEncoder_length no_causal_layer false Reflect [1; 2; 4; 8]
             [2; 4; 8; 8] 8192)
   = result (OobleckEncoder_length no_causal_layer false Zeros [1; 2; 4; 8]
               [2; 4; 8; 8] 8192)
   ∨ rejects (OobleckEncoder_length no_causal_layer false Reflect [1; 2; 4; 8]
                [2; 4; 8; 8] 8192))
  ∧ (result (OobleckDecoder_length no_causal_layer false false Reflect [1; 2; 4; 8]
               [2; 4; 8; 8] 8192)
     = result (OobleckDecoder_length no_causal_layer false false Zeros [1; 2; 4; 8]
                 [2; 4; 8; 8] 8192)
     ∨ rejects (OobleckDecoder_length no_causal_layer false false Reflect [1; 2; 4; 8]
                  [2; 4; 8; 8] 8192)).
Proof.
  apply (padding_mode_only_adds_rejections no_causal_layer no_causal_layer false Reflect
           [1; 2; 4; 8] [2; 4; 8; 8] 8192).
  simpl. lia.
Defined.
